(** * FFoveated: the streaming pipeline of main.c and codec.c

    A shallow embedding of the worker loops of the foveated transcoding
    pipeline (reader, source decoder, encoder, foveation decoder), of the
    gaze provider and of [main], together with the properties the design
    document states about them.  [Main] follows main.c; [Codec] follows
    codec.c, whose text the sources carry after helpers.h.

    Every worker is a sequential C function whose only interaction with the
    rest of the process goes through library calls: libav codec calls, the
    blocking queue, the allocator, the clock and SDL.  The answers of those
    calls are read from a [World] of scripts, and everything a worker does to
    the outside is recorded in a trace of [event]s.  A worker loop performs
    exactly one [av_read_frame] / [avcodec_receive_*] call per iteration, so
    the loops are structural recursions over the script of those answers;
    a script that ends while the loop is still iterating leaves the worker
    [Running].  A worker waits inside [dequeue] on a queue nobody fills
    ([Blocked]) and inside [enqueue] on a full queue nobody drains
    ([Stalled]). *)

From Stdlib Require Import String ZArith List Bool Lia.
From Stdlib Require Import Floats.SpecFloat.
Import ListNotations.
Open Scope string_scope.
Open Scope list_scope.
Open Scope Z_scope.

(* ================================================================== *)
(** * libav and libc constants *)

Definition EXIT_SUCCESS : Z := 0.
Definition EXIT_FAILURE : Z := 1.

Definition ENOMEM : Z := 12.
Definition EAGAIN : Z := 11.
Definition EINVAL : Z := 22.

(** [AVERROR(e)] on a platform with positive errno values. *)
Definition AVERROR (e : Z) : Z := - e.

(** [MKTAG(a,b,c,d)] and [FFERRTAG(a,b,c,d)] of libavutil. *)
Definition MKTAG (a b c d : Z) : Z :=
  Z.lor a (Z.lor (Z.shiftl b 8) (Z.lor (Z.shiftl c 16) (Z.shiftl d 24))).
Definition FFERRTAG (a b c d : Z) : Z := - MKTAG a b c d.

(** 'E' 'O' 'F' ' ' *)
Definition AVERROR_EOF : Z := FFERRTAG 69 79 70 32.
(** 0xF8 'S' 'T' 'R' and 0xF8 'D' 'E' 'C' *)
Definition AVERROR_STREAM_NOT_FOUND : Z := FFERRTAG 248 83 84 82.
Definition AVERROR_DECODER_NOT_FOUND : Z := FFERRTAG 248 68 69 67.

(** The conversion of an [int] to [size_t], an unsigned type of 64 bits:
    the value modulo 2^64. *)
Definition SIZE_MAX : Z := 18446744073709551615.

Definition size_t_of_int (n : Z) : Z := n mod (SIZE_MAX + 1).

(** [enum AVDiscard] *)
Definition AVDISCARD_NONE : Z := -16.
Definition AVDISCARD_DEFAULT : Z := 0.
Definition AVDISCARD_ALL : Z := 48.

(* ================================================================== *)
(** * Media objects *)

(** IEEE-754 binary32, the C [float] of the descriptor. *)
Definition float := spec_float.

(** The block of four floats [foveation_descriptor] returns. *)
Record descriptor : Type := mkDescr {
  d_fx : float;
  d_fy : float;
  d_sigma : float;
  d_offset : float
}.

(** Side-data tags; only the foveation tag is named by the program. *)
Inductive AVFrameSideDataType : Type :=
| AV_FRAME_DATA_FOVEATION_DESCRIPTOR
| AV_FRAME_DATA_OTHER (tag : Z).

(** What [sd->data] points to: the buffer libav allocated for the entry, or
    the descriptor block the encoder stores there. *)
Inductive sd_buffer : Type :=
| SdRaw (size : Z)
| SdDescr (bytes : Z) (d : descriptor).

Record AVFrameSideData : Type := mkSideData {
  sd_type : AVFrameSideDataType;
  sd_size : Z;
  sd_data : option sd_buffer      (* [None] is the null pointer *)
}.

Record AVFrame : Type := mkFrame {
  frame_id : Z;                   (* the picture, opaque *)
  pict_type : Z;
  side_data : list AVFrameSideData
}.

Record AVPacket : Type := mkPacket {
  buf : option Z;                 (* [pkt->buf], [None] is NULL *)
  stream_index : Z;
  pkt_id : Z                      (* the payload, opaque *)
}.

Record AVStream : Type := mkStream {
  st_index : Z;
  discard : Z
}.

Record AVFormatContext : Type := mkFormat {
  streams : list AVStream
}.

(* ================================================================== *)
(** * Effects: world, events and the worker monad *)

(** The queue fields of the three context structs. *)
Inductive queue_field : Type := packet_queue | frame_queue | lag_queue.

(** A [void *] travelling through a queue. *)
Inductive payload : Type :=
| PPacket (p : AVPacket)
| PFrame (f : AVFrame)
| PTime (t : Z).

(** Window size and pointer position as SDL reports them at one query. *)
Record sdl_sample : Type := mkSdl {
  win_w : Z;
  win_h : Z;
  ptr_x : Z;
  ptr_y : Z
}.

Inductive event : Type :=
| Enqueue (q : queue_field) (data : option payload)
| Dequeue (q : queue_field) (data : option payload)
| SendPacket (p : option AVPacket) (r : Z)
| SendFrame (f : AVFrame) (r : Z)
| PacketFree (p : option AVPacket)
| FrameFree (f : AVFrame)
| Perror (msg : string)
| Usage
| CodecClose
| CodecFree
| CloseInput
| CreateThread (name : string)
| WaitThread
| OpenInput (file : string).

Record World : Type := mkWorld {
  w_ptr : list bool;              (* successive pointer-returning calls
                                     (malloc, av_*_alloc, lookups);
                                     [false] is NULL, past the end: success *)
  w_ret : list Z;                 (* successive status-returning set-up calls,
                                     past the end: 0 *)
  w_send : list Z;                (* successive avcodec_send_* results,
                                     past the end: 0 *)
  w_packets : list (option AVPacket);  (* what upstream puts on the packet queue *)
  w_frames : list (option AVFrame);    (* what upstream puts on the frame queue *)
  w_clock : list Z;               (* successive av_gettime_relative readings *)
  w_sdl : list sdl_sample;        (* successive window / pointer readings *)
  w_join : list bool;             (* successive SDL_WaitThread calls: does the
                                     awaited worker ever return; past the end: yes *)
  w_room : list bool              (* successive enqueue calls: does the queue
                                     have room, or does its consumer ever make
                                     room; past the end: yes *)
}.

Definition set_ptr (l : list bool) (w : World) : World :=
  mkWorld l (w_ret w) (w_send w) (w_packets w) (w_frames w) (w_clock w) (w_sdl w) (w_join w)
          (w_room w).
Definition set_ret (l : list Z) (w : World) : World :=
  mkWorld (w_ptr w) l (w_send w) (w_packets w) (w_frames w) (w_clock w) (w_sdl w) (w_join w)
          (w_room w).
Definition set_send (l : list Z) (w : World) : World :=
  mkWorld (w_ptr w) (w_ret w) l (w_packets w) (w_frames w) (w_clock w) (w_sdl w) (w_join w)
          (w_room w).
Definition set_packets (l : list (option AVPacket)) (w : World) : World :=
  mkWorld (w_ptr w) (w_ret w) (w_send w) l (w_frames w) (w_clock w) (w_sdl w) (w_join w)
          (w_room w).
Definition set_frames (l : list (option AVFrame)) (w : World) : World :=
  mkWorld (w_ptr w) (w_ret w) (w_send w) (w_packets w) l (w_clock w) (w_sdl w) (w_join w)
          (w_room w).
Definition set_clock (l : list Z) (w : World) : World :=
  mkWorld (w_ptr w) (w_ret w) (w_send w) (w_packets w) (w_frames w) l (w_sdl w) (w_join w)
          (w_room w).
Definition set_sdl (l : list sdl_sample) (w : World) : World :=
  mkWorld (w_ptr w) (w_ret w) (w_send w) (w_packets w) (w_frames w) (w_clock w) l (w_join w)
          (w_room w).
Definition set_join (l : list bool) (w : World) : World :=
  mkWorld (w_ptr w) (w_ret w) (w_send w) (w_packets w) (w_frames w) (w_clock w) (w_sdl w) l
          (w_room w).
Definition set_room (l : list bool) (w : World) : World :=
  mkWorld (w_ptr w) (w_ret w) (w_send w) (w_packets w) (w_frames w) (w_clock w) (w_sdl w)
          (w_join w) l.

(** Ways a worker stops without returning. *)
Inductive halt : Type :=
| Exit (status : Z)               (* exit(status): the process is gone *)
| Undefined (what : string)       (* undefined behaviour *)
| Blocked                         (* waits on a queue nobody fills *)
| Stalled                         (* waits on a full queue nobody drains *)
| Running.                        (* the script ended inside the loop *)

Inductive result (A : Type) : Type :=
| Ok (a : A)
| Halt (h : halt).
Arguments Ok {A} a.
Arguments Halt {A} h.

Definition M (A : Type) : Type := World -> result A * World * list event.

Definition ret {A} (a : A) : M A := fun w => (Ok a, w, []).

Definition bind {A B} (m : M A) (k : A -> M B) : M B :=
  fun w =>
    match m w with
    | (Ok a, w1, t1) =>
        match k a w1 with
        | (r, w2, t2) => (r, w2, t1 ++ t2)
        end
    | (Halt h, w1, t1) => (Halt h, w1, t1)
    end.

Declare Scope worker_scope.
Delimit Scope worker_scope with worker.
Notation "x <- m ;; k" := (bind m (fun x => k))
  (at level 61, m at next level, right associativity) : worker_scope.
Notation "m ;; k" := (bind m (fun _ => k))
  (at level 61, right associativity) : worker_scope.
Open Scope worker_scope.

Definition emit (e : event) : M unit := fun w => (Ok tt, w, [e]).
Definition stop {A} (h : halt) : M A := fun w => (Halt h, w, []).

(** Modelled from the spec: [pexit_], declared and documented in helpers.h
    but defined outside the sources at hand: report through perror, then
    [exit(EXIT_FAILURE)]. *)
Definition pexit {A} (msg : string) : M A :=
  emit (Perror msg) ;; stop (Exit EXIT_FAILURE).

(** [perror] alone reports and returns. *)
Definition perror (msg : string) : M unit := emit (Perror msg).

(** The next answer of a script, [d] once the script is used up. *)
Definition next_of {A} (d : A) (l : list A) : A * list A :=
  match l with
  | [] => (d, [])
  | x :: l' => (x, l')
  end.

(** A pointer-returning call: [true] when the pointer is not NULL. *)
Definition alloc : M bool :=
  fun w => match w_ptr w with
           | [] => (Ok true, w, [])
           | b :: l => (Ok b, set_ptr l w, [])
           end.

(** A status-returning set-up call. *)
Definition status : M Z :=
  fun w => match w_ret w with
           | [] => (Ok 0, w, [])
           | r :: l => (Ok r, set_ret l w, [])
           end.

(** Modelled from the spec: the blocking FIFO ([enqueue] / [queue_append],
    [dequeue] / [queue_extract]), declared in helpers.h but defined outside
    the sources at hand.  [enqueue] blocks while the queue is full.  The
    consumer is another thread, so whether room is there, or is ever made,
    is an answer of the world: with room the payload is stored, the null
    payload like any other; on a queue that stays full the caller waits for
    ever and nothing is stored. *)
Definition enqueue (q : queue_field) (data : option payload) : M unit :=
  fun w => match w_room w with
           | [] => (Ok tt, w, [Enqueue q data])
           | true :: l => (Ok tt, set_room l w, [Enqueue q data])
           | false :: l => (Halt Stalled, set_room l w, [])
           end.

(** The answers [enqueue] gets on a queue of the given capacity that has no
    consumer: room for [capacity] payloads, then none for ever. *)
Definition undrained (capacity : nat) : list bool :=
  repeat true capacity ++ [false].

(** Modelled from the spec: [dequeue] yields the items in the order upstream
    enqueued them, the null sentinel included; with none to come the caller
    waits for ever. *)
Definition dequeue_packet : M (option AVPacket) :=
  fun w => match w_packets w with
           | [] => (Halt Blocked, w, [])
           | p :: l => (Ok p, set_packets l w,
                        [Dequeue packet_queue (option_map PPacket p)])
           end.

Definition dequeue_frame : M (option AVFrame) :=
  fun w => match w_frames w with
           | [] => (Halt Blocked, w, [])
           | f :: l => (Ok f, set_frames l w,
                        [Dequeue frame_queue (option_map PFrame f)])
           end.

(** [avcodec_send_packet] / [avcodec_send_frame]: the codec's answer. *)
Definition send_result : M Z :=
  fun w => match w_send w with
           | [] => (Ok 0, w, [])
           | r :: l => (Ok r, set_send l w, [])
           end.

Definition avcodec_send_packet (p : option AVPacket) : M Z :=
  r <- send_result ;; emit (SendPacket p r) ;; ret r.

Definition avcodec_send_frame (f : AVFrame) : M Z :=
  r <- send_result ;; emit (SendFrame f r) ;; ret r.

Definition av_gettime_relative : M Z :=
  fun w => match w_clock w with
           | [] => (Ok 0, w, [])
           | t :: l => (Ok t, set_clock l w, [])
           end.

(** Trace projections. *)
Definition queue_eqb (q q' : queue_field) : bool :=
  match q, q' with
  | packet_queue, packet_queue
  | frame_queue, frame_queue
  | lag_queue, lag_queue => true
  | _, _ => false
  end.

Definition enq_one (q : queue_field) (e : event) : list (option payload) :=
  match e with
  | Enqueue q' d => if queue_eqb q q' then [d] else []
  | _ => []
  end.

Definition deq_one (e : event) : list (option payload) :=
  match e with Dequeue _ d => [d] | _ => [] end.

(** What a trace put on queue [q], and what it took from its input queue. *)
Definition enqueued (q : queue_field) (t : list event) : list (option payload) :=
  flat_map (enq_one q) t.

Definition dequeued (t : list event) : list (option payload) :=
  flat_map deq_one t.

Definition reported (t : list event) : list string :=
  flat_map (fun e => match e with Perror m => [m] | _ => [] end) t.

Definition outcome {A} (r : result A * World * list event) : result A := fst (fst r).
Definition final {A} (r : result A * World * list event) : World := snd (fst r).
Definition trace {A} (r : result A * World * list event) : list event := snd r.

(** Modelled from the spec: [create_queue] / [queue_init], documented in
    helpers.h: allocates the queue and calls [pexit] when that fails. *)
Definition create_queue (capacity : Z) : M unit :=
  ok <- alloc ;;
  if negb ok then pexit "create_queue failed" else ret tt.

(** [SDL_WaitThread]: returns once the awaited worker has returned. *)
Definition SDL_WaitThread : M unit :=
  fun w => match w_join w with
           | [] => (Ok tt, w, [WaitThread])
           | true :: l => (Ok tt, set_join l w, [WaitThread])
           | false :: l => (Halt Blocked, set_join l w, [WaitThread])
           end.

(** [p == NULL] *)
Definition is_null {A} (p : option A) : bool :=
  match p with None => true | Some _ => false end.

(** Loop control of a C loop body. *)
Inductive loop_ctl : Type := Continue | Break.

(** A script of codec or demuxer answers: the status and, for status 0, what
    the call wrote into the caller's container. *)
Definition script (A : Type) : Type := list (Z * A).

(* ================================================================== *)
(** * main.c *)

Module Main.

Record reader_context : Type := mkReader {
  filename : string;
  r_stream_index : Z;
  format_ctx : AVFormatContext
}.

(** [reader_thread]: one [av_read_frame] answer per iteration. *)
Fixpoint reader_loop (r_ctx : reader_context) (reads : script AVPacket) : M unit :=
  ok <- alloc ;;                                  (* pkt = malloc(sizeof(AVPacket)) *)
  if negb ok then pexit "malloc failed" else
  match reads with
  | [] => stop Running
  | (r, pkt) :: reads' =>
      if r =? AVERROR_EOF then ret tt             (* break *)
      else if r <? 0 then pexit "av_read_frame failed"
      else if is_null (buf pkt) || negb (stream_index pkt =? r_stream_index r_ctx) then
        emit (PacketFree (Some pkt)) ;;           (* av_packet_free(&pkt); continue *)
        reader_loop r_ctx reads'
      else
        enqueue packet_queue (Some (PPacket pkt)) ;;
        reader_loop r_ctx reads'
  end.

Definition reader_thread (r_ctx : reader_context) (reads : script AVPacket) : M Z :=
  reader_loop r_ctx reads ;;
  enqueue packet_queue None ;;
  emit CloseInput ;;
  ret 0.

(** [open_decoder].  [format_ctx] is the pointer the decoder context
    copied from the reader context: [None] when [avformat_close_input] has
    released the container by then, as [reader_thread] does on its way out.
    [video_stream = format_ctx->streams[stream_index]] is read before
    anything else. *)
Definition open_decoder (format_ctx : option AVFormatContext) (stream_index : Z)
  : M unit :=
  match format_ctx with
  | None => stop (Undefined "format_ctx->streams")
  | Some fc =>
  if stream_index <? 0 then stop (Undefined "streams[stream_index]") else
  match nth_error (streams fc) (Z.to_nat stream_index) with
  | None => stop (Undefined "streams[stream_index]")
  | Some video_stream =>
  ctx <- alloc ;;                                 (* avcodec_alloc_context3 *)
  if negb ctx then pexit "avcodec_alloc_context3 failed" else
  r <- status ;;                                  (* avcodec_parameters_to_context *)
  if r <? 0 then pexit "avcodec_parameters_to_context failed" else
  codec <- alloc ;;                               (* avcodec_find_decoder *)
  if negb codec then pexit "avcodec_find_decoder failed" else
  r <- status ;;                                  (* avcodec_open2 *)
  if r <? 0 then pexit "avcodec_open2 failed" else
  ret tt
  end end.

(** [supply_packet] *)
Definition supply_packet (packet : option AVPacket) : M unit :=
  r <- avcodec_send_packet packet ;;
  if r =? AVERROR EAGAIN then
    pexit "API break: decoder send and receive returns EAGAIN"
  else if r =? AVERROR_EOF then
    pexit "Decoder has already been flushed"
  else if r =? AVERROR EINVAL then
    pexit "codec invalid, not open or requires flushing"
  else if r =? AVERROR ENOMEM then
    pexit "memory allocation failed"
  else ret tt.

(** The [for (;;)] of [decoder_thread]: one [avcodec_receive_frame] answer
    per iteration. *)
Fixpoint decoder_loop (recv : script AVFrame) : M unit :=
  match recv with
  | [] => stop Running
  | (r, frame) :: recv' =>
      if r =? 0 then
        enqueue frame_queue (Some (PFrame frame)) ;;
        ok <- alloc ;;                            (* frame = av_frame_alloc() *)
        if negb ok then pexit "av_frame_alloc failed" else
        decoder_loop recv'
      else if r =? AVERROR EAGAIN then
        packet <- dequeue_packet ;;
        supply_packet packet ;;
        decoder_loop recv'
      else if r =? AVERROR_EOF then ret tt        (* break *)
      else if r =? AVERROR EINVAL then pexit "avcodec_receive_frame failed"
      else decoder_loop recv'
  end.

(** [decoder_thread]; [format_ctx] and [stream_index] are the fields of
    [dec_ctx] it reads. *)
Definition decoder_thread (format_ctx : option AVFormatContext) (stream_index : Z)
  (recv : script AVFrame) : M Z :=
  open_decoder format_ctx stream_index ;;
  ok <- alloc ;;                                  (* frame = av_frame_alloc() *)
  if negb ok then pexit "av_frame_alloc failed" else
  decoder_loop recv ;;
  enqueue frame_queue None ;;
  emit CodecClose ;;
  emit CodecFree ;;
  ret 0.

(** [streams[i]->discard = d]; [None] when [i] is not a stream of the
    container. *)
Fixpoint set_discard (ss : list AVStream) (i : nat) (d : Z) : option (list AVStream) :=
  match ss, i with
  | [], _ => None
  | s :: ss', O => Some (mkStream (st_index s) d :: ss')
  | s :: ss', S i' =>
      match set_discard ss' i' d with
      | Some r => Some (s :: r)
      | None => None
      end
  end.

Section WithContainer.

(** What [avformat_open_input] finds under a file name, and the answer of
    [av_find_best_stream(..., AVMEDIA_TYPE_VIDEO, ...)] on it. *)
Variable probe : string -> AVFormatContext.
Variable av_find_best_stream : AVFormatContext -> Z.
(** [parse_file_lines], documented in helpers.h and defined outside the
    sources at hand: the lines of the playlist, or [pexit]. *)
Variable parse_file_lines : string -> M (list string).

(** [reader_init]; [queue_capacity] is an [int], converted to the [size_t]
    [create_queue] takes. *)
Definition reader_init (file : string) (queue_capacity : Z) : M reader_context :=
  ok <- alloc ;;                                (* avformat_alloc_context *)
  if negb ok then pexit "avformat_alloc_context failed" else
  emit (OpenInput file) ;;
  r <- status ;;                                (* avformat_open_input *)
  if r <? 0 then pexit "avformat_open_input failed" else
  let fc := probe file in
  let idx := av_find_best_stream fc in
  if (idx =? AVERROR_STREAM_NOT_FOUND) || (idx =? AVERROR_DECODER_NOT_FOUND) then
    pexit "video stream or decoder not found"
  else if idx <? 0 then stop (Undefined "streams[stream_index]") else
  match set_discard (streams fc) (Z.to_nat idx) AVDISCARD_DEFAULT with
  | None => stop (Undefined "streams[stream_index]")
  | Some ss =>
      create_queue (size_t_of_int queue_capacity) ;;
      ok <- alloc ;;                            (* r = malloc(...) *)
      if negb ok then pexit "malloc failed" else
      ret (mkReader file idx (mkFormat ss))
  end.

(** The body of the playlist loop of [main]; [i] is unused by it. *)
Definition playlist_body (video_files : list string) (i : nat) : M loop_ctl :=
  r_ctx <- reader_init (nth 0 video_files "") 32 ;;
  emit (CreateThread "reader_thread") ;;
  SDL_WaitThread ;;
  ret Break.                                    (* break; //DEMO *)

(** [for (int i = 0; video_files[i]; i++)]: [rest] is the array from
    index [i] on. *)
Fixpoint playlist_loop (video_files : list string) (i : nat) (rest : list string)
  : M unit :=
  match rest with
  | [] => ret tt
  | _ :: rest' =>
      c <- playlist_body video_files i ;;
      match c with
      | Break => ret tt
      | Continue => playlist_loop video_files (S i) rest'
      end
  end.

Definition main (argv : list string) : M Z :=
  if negb (Z.of_nat (List.length argv) =? 2) then
    emit Usage ;; stop (Exit EXIT_FAILURE)
  else
    video_files <- parse_file_lines (nth 1 argv "") ;;
    playlist_loop video_files 0 video_files ;;
    r <- status ;;                              (* SDL_Init(SDL_INIT_VIDEO) *)
    if negb (r =? 0) then pexit "SDL_Init failed" else
    ret EXIT_SUCCESS.

End WithContainer.

End Main.

(* ================================================================== *)
(** * Single-precision arithmetic of the gaze provider *)

Definition prec32 : Z := 24.
Definition emax32 : Z := 128.
Definition sizeof_float : Z := 4.

(** [(float) n] for an [int] [n]: round to nearest, ties to even. *)
Definition float_of_int (n : Z) : float := binary_normalize prec32 emax32 n 0 false.

(** [a / b] in single precision. *)
Definition float_div (a b : float) : float := SFdiv prec32 emax32 a b.

(** The [double] constant [0.3] (0x3FD3333333333333) and its conversion on
    assignment to a [float]. *)
Definition double_0_3 : spec_float := S754_finite false 5404319552844595 (-54).

Definition float_of_double (d : spec_float) : float :=
  match d with
  | S754_finite s m e => binary_round prec32 emax32 s m e
  | _ => d
  end.

Definition float_le (a b : float) : bool := SFleb a b.
Definition float_zero : float := S754_zero false.
Definition float_one : float := float_of_int 1.

(* ================================================================== *)
(** * codec.c *)

Module Codec.

(** [SDL_GetWindowSize] and [SDL_GetMouseState] of one call of the gaze
    provider; without a reading SDL leaves zeros. *)
Definition sdl_query : M sdl_sample :=
  fun w => match w_sdl w with
           | [] => (Ok (mkSdl 0 0 0 0), w, [])
           | s :: l => (Ok s, set_sdl l w, [])
           end.

(** [foveation_descriptor], built without [ET]. *)
Definition foveation_descriptor : M descriptor :=
  s <- sdl_query ;;                               (* SDL_GetWindowSize *)
  let width := win_w s in
  let height := win_h s in
  f <- alloc ;;                                   (* f = malloc(4*sizeof(float)) *)
  if negb f then pexit "malloc failed" else
  let mouse_x := ptr_x s in                       (* SDL_GetMouseState *)
  let mouse_y := ptr_y s in
  ret (mkDescr (float_div (float_of_int mouse_x) (float_of_int width))
               (float_div (float_of_int mouse_y) (float_of_int height))
               (float_of_double double_0_3)
               (float_of_int 20)).

(** [supply_frame] *)
Definition supply_frame (frame : AVFrame) : M unit :=
  r <- avcodec_send_frame frame ;;
  if r =? AVERROR EAGAIN then
    pexit "API break: encoder send and receive returns EAGAIN"
  else if r =? AVERROR_EOF then
    pexit "Encoder has already been flushed"
  else if r =? AVERROR EINVAL then
    pexit "codec invalid, not open or requires flushing"
  else if r =? AVERROR ENOMEM then
    pexit "memory allocation failed"
  else ret tt.

Definition descr_size : Z := 4 * sizeof_float.

(** [av_frame_new_side_data(frame, type, size)] followed by the store
    [sd->data = data]: the entry libav appended, with its buffer pointer
    overwritten. *)
Definition new_side_data (type : AVFrameSideDataType) (size : Z) : AVFrameSideData :=
  mkSideData type size (Some (SdRaw size)).

Definition set_sd_data (sd : AVFrameSideData) (data : option sd_buffer) : AVFrameSideData :=
  mkSideData (sd_type sd) (sd_size sd) data.

(** The frame once [sd] is its newest entry and [pict_type] is cleared. *)
Definition annotate (frame : AVFrame) (sd : AVFrameSideData) : AVFrame :=
  mkFrame (frame_id frame) 0 (side_data frame ++ [sd]).

(** The [EAGAIN] branch of [encoder_thread] for a frame that is not the
    sentinel. *)
Definition encode_frame (frame : AVFrame) : M unit :=
  ok <- alloc ;;                                  (* av_frame_new_side_data *)
  if negb ok then pexit "side data allocation failed" else
  let sd := new_side_data AV_FRAME_DATA_FOVEATION_DESCRIPTOR descr_size in
  descr <- foveation_descriptor ;;
  let sd := set_sd_data sd (Some (SdDescr (4 * sizeof_float) descr)) in
  let frame := annotate frame sd in               (* frame->pict_type = 0 *)
  supply_frame frame ;;
  emit (FrameFree frame) ;;
  timestamp <- alloc ;;                           (* malloc(sizeof(int64_t)) *)
  (if negb timestamp then perror "malloc failed" else ret tt) ;;
  now <- av_gettime_relative ;;
  if negb timestamp then stop (Undefined "*timestamp") else
  enqueue lag_queue (Some (PTime now)).

(** The [for (;;)] of [encoder_thread]: one [avcodec_receive_packet] answer
    per iteration; [packet] tells whether the container pointer is set. *)
Fixpoint encoder_loop (recv : script AVPacket) (packet : bool) : M unit :=
  if negb packet then pexit "av_packet_alloc failed" else
  match recv with
  | [] => stop Running
  | (r, pkt) :: recv' =>
      if r =? 0 then
        enqueue packet_queue (Some (PPacket pkt)) ;;
        packet' <- alloc ;;                       (* packet = av_packet_alloc() *)
        encoder_loop recv' packet'
      else if r =? AVERROR EAGAIN then
        frame <- dequeue_frame ;;
        match frame with
        | None => ret tt                          (* break *)
        | Some frame =>
            encode_frame frame ;;
            encoder_loop recv' packet
        end
      else if r =? AVERROR_EOF then ret tt        (* break *)
      else if r =? AVERROR EINVAL then pexit "avcodec_receive_packet failed"
      else encoder_loop recv' packet
  end.

Definition encoder_thread (recv : script AVPacket) : M Z :=
  packet <- alloc ;;                              (* packet = av_packet_alloc() *)
  encoder_loop recv packet ;;
  enqueue packet_queue None ;;
  emit CodecClose ;;
  emit CodecFree ;;
  ret 0.

(** [supply_packet] *)
Definition supply_packet (packet : option AVPacket) : M unit :=
  r <- avcodec_send_packet packet ;;
  if r =? AVERROR EAGAIN then
    pexit "API break: decoder send and receive returns EAGAIN"
  else if r =? AVERROR_EOF then
    pexit "Decoder has already been flushed"
  else if r =? AVERROR EINVAL then
    pexit "codec invalid, not open or requires flushing"
  else if r =? AVERROR ENOMEM then
    pexit "memory allocation failed"
  else ret tt.

(** The [for (;;)] of [decoder_thread]: one [avcodec_receive_frame] answer
    per iteration; [frame] tells whether the container pointer is set. *)
Fixpoint decoder_loop (recv : script AVFrame) (frame : bool) : M unit :=
  if negb frame then pexit "av_frame_alloc failed" else
  match recv with
  | [] => stop Running
  | (r, f) :: recv' =>
      if r =? 0 then
        enqueue frame_queue (Some (PFrame f)) ;;
        frame' <- alloc ;;                        (* frame = av_frame_alloc() *)
        decoder_loop recv' frame'
      else if r =? AVERROR EAGAIN then
        packet <- dequeue_packet ;;
        supply_packet packet ;;
        emit (PacketFree packet) ;;
        decoder_loop recv' frame
      else if r =? AVERROR_EOF then ret tt        (* break *)
      else if r =? AVERROR EINVAL then pexit "avcodec_receive_frame failed"
      else decoder_loop recv' frame
  end.

Definition decoder_thread (recv : script AVFrame) : M Z :=
  frame <- alloc ;;                               (* frame = av_frame_alloc() *)
  decoder_loop recv frame ;;
  enqueue frame_queue None ;;
  emit CodecClose ;;
  ret 0.

End Codec.

(* ================================================================== *)
(** * Specification vocabulary *)

(** The statuses the two [supply_*] functions and the design document name. *)
Definition known_submit_status (r : Z) : bool :=
  (r =? 0) || (r =? AVERROR EAGAIN) || (r =? AVERROR_EOF)
  || (r =? AVERROR EINVAL) || (r =? AVERROR ENOMEM).

(** A trace with the recorded submit statuses forgotten. *)
Definition forget_status (e : event) : event :=
  match e with
  | SendPacket p _ => SendPacket p 0
  | SendFrame f _ => SendFrame f 0
  | _ => e
  end.


(** [wp m w Q]: the run of [m] from world [w] ends with a result, a world
    and a trace that [Q] accepts. *)
Definition wp {A} (m : M A) (w : World)
  (Q : result A -> World -> list event -> Prop) : Prop :=
  Q (outcome (m w)) (final (m w)) (trace (m w)).

(** ** The encoder's duty per frame *)

(** A side-data entry that is a foveation descriptor: the foveation tag,
    a payload that is not null, of exactly 16 bytes (4 floats). *)
Definition is_foveation_entry (sd : AVFrameSideData) : bool :=
  match sd_type sd, sd_data sd with
  | AV_FRAME_DATA_FOVEATION_DESCRIPTOR, Some (SdDescr bytes _) =>
      (sd_size sd =? 16) && (bytes =? 16)
  | _, _ => false
  end.

Definition carries_descriptor (f : AVFrame) : bool :=
  existsb is_foveation_entry (side_data f).

(** Frames handed to [avcodec_send_frame], frames taken from the frame
    queue, and entries put on the lag queue, in order of occurrence. *)
Definition submitted (t : list event) : list AVFrame :=
  flat_map (fun e => match e with SendFrame f _ => [f] | _ => [] end) t.

Definition taken (t : list event) : list AVFrame :=
  flat_map (fun e => match e with
                     | Dequeue frame_queue (Some (PFrame f)) => [f]
                     | _ => []
                     end) t.

Definition lag_entries (t : list event) : list (option payload) :=
  enqueued lag_queue t.

(** Where the encoder stands with the frame it took from the queue. *)
Inductive enc_phase : Type :=
| Idle                            (* nothing in hand *)
| Taken (f : AVFrame)             (* dequeued, not yet submitted *)
| Sent (f : AVFrame).             (* submitted, lag entry not yet enqueued *)

(** Events that do not move the phase. *)
Definition silent (e : event) : bool :=
  match e with
  | Dequeue frame_queue _ => false
  | SendFrame _ _ => false
  | Enqueue lag_queue _ => false
  | _ => true
  end.

Inductive enc_step : enc_phase -> event -> enc_phase -> Prop :=
| step_take f :
    enc_step Idle (Dequeue frame_queue (Some (PFrame f))) (Taken f)
| step_sentinel :
    enc_step Idle (Dequeue frame_queue None) Idle
| step_submit f sd r :
    is_foveation_entry sd = true ->
    enc_step (Taken f) (SendFrame (Codec.annotate f sd) r) (Sent (Codec.annotate f sd))
| step_stamp f ts :
    enc_step (Sent f) (Enqueue lag_queue (Some (PTime ts))) Idle
| step_silent s e :
    silent e = true -> enc_step s e s.

Inductive enc_run : enc_phase -> list event -> enc_phase -> Prop :=
| run_nil s : enc_run s [] s
| run_cons s e s1 t s2 :
    enc_step s e s1 -> enc_run s1 t s2 -> enc_run s (e :: t) s2.

(** A worker that returned, or that was observed between two iterations,
    has nothing in hand. *)
Definition settled {A} (r : result A) (s : enc_phase) : Prop :=
  match r with
  | Ok _ | Halt Running | Halt Blocked => s = Idle
  | Halt _ => True
  end.

(** Strict alternation of submissions and lag entries; the result tells
    whether the last submission still waits for its entry. *)
Fixpoint alternation (pending : bool) (t : list event) : option bool :=
  match t with
  | [] => Some pending
  | SendFrame _ _ :: t' => if pending then None else alternation true t'
  | Enqueue lag_queue d :: t' =>
      match pending, d with
      | true, Some (PTime _) => alternation false t'
      | _, _ => None
      end
  | _ :: t' => alternation pending t'
  end.

(** The frame a phase holds before submission, and whether a submission
    waits for its lag entry. *)
Definition in_hand (s : enc_phase) : list AVFrame :=
  match s with Taken f => [f] | _ => [] end.

Definition awaits_stamp (s : enc_phase) : bool :=
  match s with Sent _ => true | _ => false end.

Definition annotate_pair (p : AVFrame * AVFrameSideData) : AVFrame :=
  Codec.annotate (fst p) (snd p).

(** ** Sentinel discipline *)

Definition returned {A} (r : result A) : bool :=
  match r with Ok _ => true | Halt _ => false end.

(** A queue history made of payloads only, closed by one null sentinel
    exactly when the producer has returned. *)
Definition terminated_once (closed : bool) (l : list (option payload)) : Prop :=
  exists items, l = map Some items ++ (if closed then [None] else []).

Definition sentinel_discipline {A} (q : queue_field)
  (r : result A * World * list event) : Prop :=
  terminated_once (returned (outcome r)) (enqueued q (trace r)).

(** The input queue is consumed in FIFO order: what was taken, followed by
    what is left, is what upstream supplied. *)
Definition fifo_packets {A} (w : World) (r : result A * World * list event) : Prop :=
  map (option_map PPacket) (w_packets w)
  = dequeued (trace r) ++ map (option_map PPacket) (w_packets (final r)).

Definition fifo_frames {A} (w : World) (r : result A * World * list event) : Prop :=
  map (option_map PFrame) (w_frames w)
  = dequeued (trace r) ++ map (option_map PFrame) (w_frames (final r)).

(** The null packet was handed to the codec (the drain request). *)
Definition is_drain (e : event) : bool :=
  match e with SendPacket None _ => true | _ => false end.

Definition drain_requested (t : list event) : bool := existsb is_drain t.

(** The sentinel was taken from the input queue. *)
Definition sentinel_taken (t : list event) : bool :=
  existsb (fun d => is_null d) (dequeued t).

(** The script answers end-of-stream at some point. *)
Definition answers_eof {A} (s : script A) : bool :=
  existsb (fun x => fst x =? AVERROR_EOF) s.

(** Nothing is left on the input queue. *)
Definition drained_packets {A} (r : result A * World * list event) : Prop :=
  w_packets (final r) = [].

Definition drained_frames {A} (r : result A * World * list event) : Prop :=
  w_frames (final r) = [].

(** ** Environments in which a worker makes progress *)

(** The submit statuses at which [supply_packet] and [supply_frame] end the
    process. *)
Definition fatal_submit_status (r : Z) : bool :=
  (r =? AVERROR EAGAIN) || (r =? AVERROR_EOF)
  || (r =? AVERROR EINVAL) || (r =? AVERROR ENOMEM).

(** Every queue the worker fills is drained by its consumer: no [enqueue]
    waits for ever. *)
Definition drained_downstream (w : World) : bool :=
  forallb (fun b : bool => b) (w_room w).

(** No pointer-returning call fails, no submission is refused with a fatal
    status, no set-up call reports an error, and the consumers downstream
    keep draining their queues. *)
Definition healthy (w : World) : bool :=
  forallb (fun b : bool => b) (w_ptr w)
  && forallb (fun r => negb (fatal_submit_status r)) (w_send w)
  && forallb (fun r => 0 <=? r) (w_ret w)
  && drained_downstream w.

(** The container is still open and [stream_index] is one of its streams:
    what [open_decoder] relies on. *)
Definition has_stream (format_ctx : option AVFormatContext) (stream_index : Z) : bool :=
  match format_ctx with
  | Some fc =>
      (0 <=? stream_index)
      && (Z.to_nat stream_index <? List.length (streams fc))%nat
  | None => false
  end.


(** A codec that, before the point of interest, only ever answers OK or
    NEED_INPUT, and the number of its NEED_INPUT answers. *)
Definition ok_or_again {A} (s : script A) : bool :=
  forallb (fun x => (fst x =? 0) || (fst x =? AVERROR EAGAIN)) s.

Definition need_input {A} (s : script A) : nat :=
  List.length (filter (fun x => fst x =? AVERROR EAGAIN) s).

(** Demuxer answers that deliver a packet. *)
Definition delivers (s : script AVPacket) : bool :=
  forallb (fun x => 0 <=? fst x) s.

(** The reader's filter, and what it does with the packets of a script. *)
Definition is_video (r_ctx : Main.reader_context) (pkt : AVPacket) : bool :=
  negb (is_null (buf pkt) || negb (stream_index pkt =? Main.r_stream_index r_ctx)).

Definition reader_events (r_ctx : Main.reader_context) (s : script AVPacket)
  : list event :=
  map (fun x => if is_video r_ctx (snd x)
                then Enqueue packet_queue (Some (PPacket (snd x)))
                else PacketFree (Some (snd x))) s.

(** ** The reader's four cases, in the words of the design document *)

Inductive read_kind : Type :=
| EndOfStream                     (* the read reported end-of-stream *)
| ReadFailure                     (* any other read failure *)
| Dropped                         (* no buffer, or not the video stream *)
| Kept.                           (* a video packet *)

Definition classify (r_ctx : Main.reader_context) (r : Z) (pkt : AVPacket) : read_kind :=
  if r =? AVERROR_EOF then EndOfStream
  else if r <? 0 then ReadFailure
  else if is_null (buf pkt) then Dropped
  else if negb (stream_index pkt =? Main.r_stream_index r_ctx) then Dropped
  else Kept.

(** A run with the event [e] put in front of its trace. *)
Definition after {A} (e : event) (r : result A * World * list event)
  : result A * World * list event :=
  (outcome r, final r, e :: trace r).

(** ** Stream selection *)

(** Every stream but the selected one carries [AVDISCARD_ALL]. *)
Definition others_discarded (r : Main.reader_context) : bool :=
  let ss := streams (Main.format_ctx r) in
  forallb (fun x => (Z.of_nat (fst x) =? Main.r_stream_index r)
                    || (discard (snd x) =? AVDISCARD_ALL))
          (combine (seq 0 (List.length ss)) ss).

(** The discard flag of stream [i] after [reader_init] selected [idx], given
    the flag [d] the demuxer left. *)
Definition discard_after (idx : Z) (i : nat) (d : Z) : Z :=
  if Z.of_nat i =? idx then AVDISCARD_DEFAULT else d.

(** A container with a video and an audio stream, as the demuxer opens it. *)
Definition two_streams : AVFormatContext :=
  mkFormat [mkStream 0 AVDISCARD_DEFAULT; mkStream 1 AVDISCARD_DEFAULT].

Definition quiet_world : World := mkWorld [] [] [] [] [] [] [] [] [].

(** ** The playlist *)

(** The files a trace opened, and the workers it started. *)
Definition opened (t : list event) : list string :=
  flat_map (fun e => match e with OpenInput f => [f] | _ => [] end) t.

Definition started (t : list event) : nat :=
  List.length (filter (fun e => match e with CreateThread _ => true | _ => false end) t).

(** ** Relating two runs *)

(** The world in which the codec answers submission [i] with [h r] where it
    answered [r]. *)
Definition resend (h : Z -> Z) (w : World) : World :=
  set_send (map h (w_send w)) w.

(** [m1] in a world and [m2] in the re-answered world end alike and leave
    traces that [f] cannot tell apart. *)
Definition related (h : Z -> Z) (f : list event -> list event) {A}
  (m1 m2 : M A) : Prop :=
  forall w,
    outcome (m1 w) = outcome (m2 (resend h w)) /\
    resend h (final (m1 w)) = final (m2 (resend h w)) /\
    f (trace (m1 w)) = f (trace (m2 (resend h w))).

(** Every submit status the program does not name, replaced by 0. *)
Definition accept_status (r : Z) : Z := if known_submit_status r then r else 0.

(** A worker that behaves, up to the statuses recorded in its trace, as if
    every unnamed submit status had been 0. *)
Definition blind_to_unknown_status {A} (m : M A) : Prop :=
  related accept_status (map forget_status) m m.

(** A trace without the events that release a packet or the codec context. *)
Definition is_release (e : event) : bool :=
  match e with PacketFree _ | CodecFree => true | _ => false end.

Definition without_release (t : list event) : list event :=
  filter (fun e => negb (is_release e)) t.

(** The two decoder loops are compared in one and the same world. *)
Definition same_answers (r : Z) : Z := r.

(** ** Sample inputs *)

Definition video_reader : Main.reader_context :=
  Main.mkReader "clip.mkv" 0 two_streams.

Definition video_packet (n : Z) : AVPacket := mkPacket (Some n) 0 n.
Definition audio_packet (n : Z) : AVPacket := mkPacket (Some n) 1 n.
Definition blank_packet : AVPacket := mkPacket None 0 0.
Definition picture (n : Z) : AVFrame := mkFrame n 1 [].

(** A demuxed file: video, audio, video, then end-of-stream. *)
Definition sample_reads : script AVPacket :=
  [(0, video_packet 1); (0, audio_packet 2); (0, video_packet 3);
   (AVERROR_EOF, blank_packet)].

(** A decoder codec that asks for input twice, yields two frames, asks for
    the drain request and ends. *)
Definition sample_decoding : script AVFrame :=
  [(AVERROR EAGAIN, picture 0); (AVERROR EAGAIN, picture 0);
   (0, picture 1); (0, picture 3); (AVERROR EAGAIN, picture 0);
   (AVERROR_EOF, picture 0)].

(** An encoder codec that takes a frame, yields its packet, and so on. *)
Definition sample_encoding : script AVPacket :=
  [(AVERROR EAGAIN, blank_packet); (0, video_packet 10);
   (AVERROR EAGAIN, blank_packet); (0, video_packet 30);
   (AVERROR EAGAIN, blank_packet)].

(** [EIO], a status the [supply_*] functions do not name. *)
Definition EIO : Z := 5.

(** A file of 33 video packets, and the reader [main] starts on it: the
    packet queue has capacity 32 and no worker takes from it. *)
Definition long_clip : script AVPacket :=
  map (fun n => (0, video_packet (Z.of_nat n))) (seq 1 33)
  ++ [(AVERROR_EOF, blank_packet)].

Definition stalled_reader : result Z * World * list event :=
  Main.reader_thread video_reader long_clip (set_room (undrained 32) quiet_world).

(** A reader whose second read fails. *)
Definition failed_reader : result Z * World * list event :=
  Main.reader_thread video_reader
    [(0, video_packet 1); (AVERROR EIO, blank_packet); (AVERROR_EOF, blank_packet)]
    quiet_world.



(** ** Single-precision facts *)

Definition INT_MAX : Z := 2147483647.

(** A positive single-precision number in normal form, with the exponent
    range of converted [int]s. *)
Definition normal32 (m : positive) (e : Z) : Prop :=
  8388608 <= Zpos m < 16777216 /\ -23 <= e <= 8.

(** [n / 2^(j+1)] rounded to nearest, ties to even. *)
Definition rne_int (j n : Z) : Z :=
  let u := n / 2 ^ j in
  let q := u / 2 in
  if Z.odd u && (negb (n mod 2 ^ j =? 0) || Z.odd q) then q + 1 else q.

(** [f] is a positive normal single-precision number within half a unit in
    the last place of [num / den]. *)
Definition nearest32 (f : float) (num den : Z) : bool :=
  match f with
  | S754_finite false m e =>
      (8388608 <=? Zpos m) && (Zpos m <? 16777216) && (e <=? 0)
      && (Z.abs (2 * Zpos m * den - num * 2 ^ (1 - e)) <=? den)
  | _ => false
  end.

(** The pointer is inside the window, in [int] coordinates. *)
Definition pointer_inside (s : sdl_sample) : Prop :=
  0 <= ptr_x s <= win_w s /\ 0 <= ptr_y s <= win_h s /\
  0 < win_w s <= INT_MAX /\ 0 < win_h s <= INT_MAX.

(** A float between 0 and 1, both included. *)
Definition in_unit_interval (f : float) : bool :=
  float_le float_zero f && float_le f float_one.

(* ================================================================== *)
(** * The data path and the error paths of the workers *)

(** ** What a stage forwards *)

(** The containers a codec filled: the answers with status 0, in order. *)
Definition yielded {A} (s : script A) : list A :=
  map snd (filter (fun x => fst x =? 0) s).

(** A stage read the part [used] of its codec's answers and put on its
    output queue [q] exactly the containers of that part, in order, followed
    by [closing]; when it returned ([ret]), the last answer it read is one
    [last_ok] accepts and no earlier answer was end-of-stream. *)
Definition forwards {A} (wrap : A -> payload) (q : queue_field)
  (last_ok : Z -> list event -> Prop) (closing : list (option payload))
  (recv : script A) (ret : bool) (t : list event) : Prop :=
  exists used rest,
    recv = used ++ rest /\
    enqueued q t = map (fun x => Some (wrap x)) (yielded used) ++ closing /\
    (ret = true ->
     exists pre s x, used = pre ++ [(s, x)] /\ answers_eof pre = false /\
                     last_ok s t).

(** The null sentinel, once the producer has returned. *)
Definition closing (ret : bool) : list (option payload) :=
  if ret then [None] else [].

Definition at_eof (s : Z) (t : list event) : Prop := s = AVERROR_EOF.

Definition at_eof_or_sentinel (s : Z) (t : list event) : Prop :=
  s = AVERROR_EOF \/ (s = AVERROR EAGAIN /\ sentinel_taken t = true).

(** A decoder forwards the decoded frames and returns at the first
    end-of-stream answer. *)
Definition forwards_frames (recv : script AVFrame)
  (r : result Z * World * list event) : Prop :=
  forwards PFrame frame_queue at_eof (closing (returned (outcome r)))
           recv (returned (outcome r)) (trace r).

(** The encoder forwards the encoded packets and returns at the first
    end-of-stream answer, or at the NEED_INPUT answer at which it took the
    sentinel. *)
Definition forwards_packets (recv : script AVPacket)
  (r : result Z * World * list event) : Prop :=
  forwards PPacket packet_queue at_eof_or_sentinel (closing (returned (outcome r)))
           recv (returned (outcome r)) (trace r).

(** ** Ownership of packets and frames *)

(** Packets handed to the decoder codec, packets released, frames released,
    in order of occurrence. *)
Definition sent_packets (t : list event) : list (option AVPacket) :=
  flat_map (fun e => match e with SendPacket p _ => [p] | _ => [] end) t.

Definition released_packets (t : list event) : list (option AVPacket) :=
  flat_map (fun e => match e with PacketFree p => [p] | _ => [] end) t.

Definition released_frames (t : list event) : list AVFrame :=
  flat_map (fun e => match e with FrameFree f => [f] | _ => [] end) t.

(** What the worker still holds: nothing, unless the process was ended
    between a submission and the release. *)
Definition held_back {A B} (r : result A) (pend : list B) : Prop :=
  match r with
  | Halt (Exit _) => (List.length pend <= 1)%nat
  | _ => pend = []
  end.

(** ** Error paths *)

Definition ends_with_report (t : list event) : Prop :=
  exists t0 msg, t = t0 ++ [Perror msg].

(** ** Receive statuses *)

(** The receive statuses the worker loops test for. *)
Definition named_receive_status (r : Z) : bool :=
  (r =? 0) || (r =? AVERROR EAGAIN) || (r =? AVERROR_EOF) || (r =? AVERROR EINVAL).

Definition unnamed_answers {A} (s : script A) : bool :=
  forallb (fun x => negb (named_receive_status (fst x))) s.

(** ** The lag side channel *)

(** The first [n] readings of a clock script; a script that is used up
    reads 0. *)
Fixpoint readings (n : nat) (clock : list Z) : list Z :=
  match n with
  | O => []
  | S n' => fst (next_of 0 clock) :: readings n' (snd (next_of 0 clock))
  end.

(** ** The reader's packet containers *)

(** Packets passed downstream. *)
Definition kept_packets (t : list event) : list payload :=
  flat_map (fun e => match e with
                     | Enqueue packet_queue (Some d) => [d]
                     | _ => []
                     end) t.

(** Objects allocated between two worlds: the pointer-returning calls
    that did not return NULL, as long as the script of their answers has not
    run out. *)
Definition successes (l : list bool) : nat :=
  List.length (filter (fun b : bool => b) l).

Definition allocated (w w' : World) : nat :=
  (successes (w_ptr w) - successes (w_ptr w'))%nat.

(** The run reported a failed [malloc]. *)
Definition out_of_memory (t : list event) : bool :=
  existsb (String.eqb "malloc failed") (reported t).

(** ** Stages in a row *)

(** What a trace put on the packet queue, as the consumer sees it. *)
Definition packets_out (t : list event) : list (option AVPacket) :=
  flat_map (fun e => match e with
                     | Enqueue packet_queue (Some (PPacket p)) => [Some p]
                     | Enqueue packet_queue None => [None]
                     | _ => []
                     end) t.

(** The world of a consumer whose packet queue is fed by the trace [t]. *)
Definition fed_by (t : list event) (w : World) : World :=
  set_packets (packets_out t) w.

(** Only packets the reader's filter accepts, or the null packet. *)
Definition video_or_drain (r_ctx : Main.reader_context) (p : option AVPacket) : bool :=
  match p with
  | Some pkt => is_video r_ctx pkt
  | None => true
  end.

(** What a trace put on the frame queue, as the consumer sees it, and the
    world of a consumer whose frame queue is fed by it. *)
Definition frames_out (t : list event) : list (option AVFrame) :=
  flat_map (fun e => match e with
                     | Enqueue frame_queue (Some (PFrame f)) => [Some f]
                     | Enqueue frame_queue None => [None]
                     | _ => []
                     end) t.

Definition fed_frames (t : list event) (w : World) : World :=
  set_frames (frames_out t) w.

(** The video packets of a demuxed file, in file order. *)
Definition video_packets (r_ctx : Main.reader_context) (s : script AVPacket)
  : list AVPacket :=
  filter (is_video r_ctx) (map snd s).

(** ** The gaze provider at the borders *)

(** The values of an [int]. *)
Definition in_int_range (n : Z) : Prop := - INT_MAX - 1 <= n <= INT_MAX.

(** [(float) x / (float) 0] in IEEE arithmetic: not a number for 0 / 0,
    an infinity with the sign of [x] otherwise. *)
Definition over_zero (x : Z) : float :=
  match x with
  | Z0 => S754_nan
  | Zpos _ => S754_infinity false
  | Zneg _ => S754_infinity true
  end.

(** What [foveation_descriptor] does in a world whose next SDL reading is
    [s] and whose [malloc] succeeds: its result and the world it leaves. *)
Definition gaze_run (w : World) (s : sdl_sample) (d : descriptor) : Prop :=
  exists sdl ptrs,
    next_of (mkSdl 0 0 0 0) (w_sdl w) = (s, sdl) /\
    next_of true (w_ptr w) = (true, ptrs) /\
    Codec.foveation_descriptor w = (Ok d, set_ptr ptrs (set_sdl sdl w), []).

(* ================================================================== *)
(** * Set-up and tear-down: contexts, handles and the heap *)

(** The set-up functions of codec.c and main.c allocate queues, codec
    contexts and the context structs, and the free functions release them.
    Each such object has a handle (its address, a natural number); the
    heap records which handles are allocated.  Option dictionaries are kept
    as values. *)

Inductive object : Type :=
| OQueue (capacity : Z)
| OCodecContext
| OStruct (name : string).

Record Heap : Type := mkHeap {
  h_next : nat;                       (* the next address handed out *)
  h_live : list (nat * object)        (* what is allocated, oldest first *)
}.

(** A worker-monad computation that also threads the heap. *)
Definition MH (A : Type) : Type := Heap -> M (A * Heap).

Definition hret {A} (a : A) : MH A := fun h => ret (a, h).

Definition hbind {A B} (m : MH A) (k : A -> MH B) : MH B :=
  fun h => bind (m h) (fun ah => k (fst ah) (snd ah)).

Definition lift {A} (m : M A) : MH A := fun h => bind m (fun a => ret (a, h)).

Declare Scope setup_scope.
Delimit Scope setup_scope with setup.
Notation "x <- m ;; k" := (hbind m (fun x => k))
  (at level 61, m at next level, right associativity) : setup_scope.
Notation "m ;; k" := (hbind m (fun _ => k))
  (at level 61, right associativity) : setup_scope.

Definition is_live (x : nat) (h : Heap) : bool :=
  existsb (fun e => Nat.eqb (fst e) x) (h_live h).

(** A successful allocation: a fresh handle. *)
Definition new (o : object) : MH nat :=
  fun h => ret (h_next h, mkHeap (S (h_next h)) (h_live h ++ [(h_next h, o)])).

(** Releasing an object; releasing what is not allocated is undefined. *)
Definition dispose (x : nat) : MH unit :=
  fun h =>
    if is_live x h then
      ret (tt, mkHeap (h_next h)
                 (filter (fun e => negb (Nat.eqb (fst e) x)) (h_live h)))
    else stop (Undefined "release of an object that is not allocated").

(** [malloc(sizeof(struct name))]: [None] is NULL. *)
Definition malloc (name : string) : MH (option nat) :=
  hbind (lift alloc) (fun ok =>
  if negb ok then hret None
  else hbind (new (OStruct name)) (fun x => hret (Some x))).

(** [free(p)] for a pointer that is not NULL. *)
Definition free (x : nat) : MH unit := dispose x.

(** [Queue *] *)
Record Queue : Type := mkQueue {
  q_handle : nat;
  q_capacity : Z
}.

(** Modelled from the spec: [queue_init] / [create_queue] and [queue_free] /
    [free_queue], documented in helpers.h: the first allocates a queue of
    the given capacity or calls [pexit], the second releases it. *)
Definition queue_init (capacity : Z) : MH Queue :=
  hbind (lift (create_queue capacity)) (fun _ =>
  hbind (new (OQueue capacity)) (fun x => hret (mkQueue x capacity))).

Definition queue_free (q : Queue) : MH unit := dispose (q_handle q).

(** [AVCodec]: what the program reads of a codec description.  [pix_fmts]
    may be the null pointer; an array ends with [AV_PIX_FMT_NONE]. *)
Definition AV_PIX_FMT_NONE : Z := -1.

Record AVCodec : Type := mkCodec {
  cd_name : string;
  cd_id : Z;
  cd_pix_fmts : option (list Z)
}.

(** [AVRational] *)
Record AVRational : Type := mkRational { num : Z; den : Z }.

(** [AVCodecContext]: its address and the fields the program touches. *)
Record AVCodecContext : Type := mkCtx {
  cx_handle : nat;
  cx_codec : option AVCodec;
  cx_codec_id : Z;
  cx_time_base : AVRational;
  cx_pix_fmt : Z;
  cx_width : Z;
  cx_height : Z
}.

(** [AVCodecParameters] of a stream, as far as [avcodec_parameters_to_context]
    copies fields the program reads later. *)
Record AVCodecParameters : Type := mkPar {
  par_codec_id : Z;
  par_width : Z;
  par_height : Z
}.

(** [avcodec_alloc_context3(codec)]: a context with libav's defaults, bound
    to [codec] when one is given; [None] is NULL. *)
Definition avcodec_alloc_context3 (codec : option AVCodec) : MH (option AVCodecContext) :=
  hbind (lift alloc) (fun ok =>
  if negb ok then hret None
  else hbind (new OCodecContext) (fun x =>
       hret (Some (mkCtx x codec
                         (match codec with Some c => cd_id c | None => 0 end)
                         (mkRational 0 1) AV_PIX_FMT_NONE 0 0)))).

(** [avcodec_free_context(&ctx)]: releases the context and nulls the
    pointer; does nothing for a null pointer.  The result is the new value
    of the pointer. *)
Definition avcodec_free_context (ctx : option AVCodecContext)
  : MH (option AVCodecContext) :=
  match ctx with
  | None => hret None
  | Some c => hbind (dispose (cx_handle c)) (fun _ => hret None)
  end.

(** [AVDictionary *]: the entries in insertion order; NULL is the empty
    dictionary. *)
Definition AVDictionary : Type := list (string * string).

(** [av_toupper] and the key comparison of [av_dict_get] without
    [AV_DICT_MATCH_CASE]. *)
Definition av_toupper (c : Ascii.ascii) : Ascii.ascii :=
  let n := Ascii.nat_of_ascii c in
  if ((97 <=? n) && (n <=? 122))%nat then Ascii.ascii_of_nat (n - 32) else c.

Fixpoint upper (s : string) : string :=
  match s with
  | EmptyString => EmptyString
  | String c s' => String (av_toupper c) (upper s')
  end.

Definition key_eqb (a b : string) : bool := String.eqb (upper a) (upper b).

Fixpoint av_dict_get (d : AVDictionary) (key : string) : option string :=
  match d with
  | [] => None
  | (k, v) :: d' => if key_eqb k key then Some v else av_dict_get d' key
  end.

(** [av_dict_set(&d, key, value, 0)]: an entry with the key is replaced. *)
Definition av_dict_set (d : AVDictionary) (key value : string) : AVDictionary :=
  filter (fun e => negb (key_eqb (fst e) key)) d ++ [(key, value)].

(** [enc_id] of codec.h; a C enum also holds the other [int]s. *)
Definition LIBX264 : Z := 0.
Definition LIBX265 : Z := 1.

(** ** main.c *)

Module MainSetup.

(** [struct reader_context] and [struct decoder_context] of main.c, with
    the queue fields. *)
Record reader_context : Type := mkReader {
  r_filename : string;
  r_stream_index : Z;
  r_packet_queue : Queue;
  r_format_ctx : AVFormatContext
}.

Record decoder_context : Type := mkDecoder {
  d_block : nat;
  d_stream_index : Z;
  d_packet_queue : Queue;
  d_frame_queue : Queue;
  d_format_ctx : AVFormatContext
}.

(** [decoder_init].  [queue_capacity] is an [int]; [create_queue] takes a
    [size_t], so the argument is converted at the call. *)
Definition decoder_init (r_ctx : reader_context) (queue_capacity : Z)
  : MH decoder_context :=
  (d <- malloc "decoder_context" ;;
   match d with
   | None => lift (pexit "malloc failed")
   | Some d =>
       frame_queue <- queue_init (size_t_of_int queue_capacity) ;;
       hret (mkDecoder d (r_stream_index r_ctx) (r_packet_queue r_ctx)
                       frame_queue (r_format_ctx r_ctx))
   end)%setup.

End MainSetup.

(** ** codec.c *)

Module CodecSetup.

(** [struct reader_context] as codec.c reads it. *)
Record reader_context : Type := mkReader {
  rc_stream_index : Z;
  rc_format_ctx : AVFormatContext;
  rc_packet_queue : Queue
}.

(** [struct decoder_context] and [struct encoder_context] of codec.h, with
    the address of the struct; [ec_id] is the field codec.c assigns. *)
Record decoder_context : Type := mkDecoder {
  dc_block : nat;
  dc_packet_queue : Queue;
  dc_frame_queue : Queue;
  dc_avctx : option AVCodecContext
}.

Record encoder_context : Type := mkEncoder {
  ec_block : nat;
  ec_frame_queue : Queue;
  ec_packet_queue : Queue;
  ec_lag_queue : Queue;
  ec_avctx : option AVCodecContext;
  ec_options : AVDictionary;
  ec_w_ctx : Z;
  ec_id : Z
}.

(** [set_codec_options] *)
Definition set_codec_options (opt : AVDictionary) (id : Z) : M AVDictionary :=
  if id =? LIBX264 then
    let opt := av_dict_set opt "preset" "ultrafast" in
    let opt := av_dict_set opt "tune" "zerolatency" in
    let opt := av_dict_set opt "aq-mode" "autovariance" in
    let opt := av_dict_set opt "gop-size" "3" in
    ret opt
  else if id =? LIBX265 then
    let opt := av_dict_set opt "preset" "ultrafast" in
    let opt := av_dict_set opt "tune" "zerolatency" in
    let opt := av_dict_set opt "x265-params" "aq-mode=2" in
    let opt := av_dict_set opt "gop-size" "3" in
    ret opt
  else pexit "trying to set options for unsupported codec".

Section WithLibrary.

(** The codec registry of the libav build, the parameters and time base
    the demuxer found for a stream, and what [avcodec_open2] leaves in the
    dictionary it is given: the entries the codec did not take. *)
Variable avcodec_find_encoder_by_name : string -> option AVCodec.
Variable avcodec_find_decoder : Z -> option AVCodec.
Variable codecpar : AVStream -> AVCodecParameters.
Variable stream_time_base : AVStream -> AVRational.
Variable options_left : AVCodec -> AVDictionary -> AVDictionary.

(** The [switch] of [encoder_init]: the options and the codec. *)
Definition select_encoder (id : Z) : M (AVDictionary * option AVCodec) :=
  if id =? LIBX264 then
    options <- set_codec_options [] LIBX264 ;;
    ret (options, avcodec_find_encoder_by_name "libx264")
  else if id =? LIBX265 then
    options <- set_codec_options [] LIBX265 ;;
    ret (options, avcodec_find_encoder_by_name "libx265")
  else ret ([], None).

(** [encoder_init] *)
Definition encoder_init (id : Z) (dc : decoder_context) (wc : Z)
  : MH encoder_context :=
  (ec <- malloc "encoder_context" ;;
   match ec with
   | None => lift (pexit "malloc failed")
   | Some ec =>
   sel <- lift (select_encoder id) ;;
   let options := fst sel in
   match snd sel with
   | None => lift (pexit "encoder not found")
   | Some codec =>
   avctx <- avcodec_alloc_context3 (Some codec) ;;
   match avctx with
   | None => lift (pexit "avcodec_alloc_context3 failed")
   | Some avctx =>
   match dc_avctx dc with
   | None => lift (stop (Undefined "dc->avctx->time_base"))
   | Some dctx =>
   match cd_pix_fmts codec with
   | None => lift (stop (Undefined "codec->pix_fmts[0]"))
   | Some fmts =>
   let avctx := mkCtx (cx_handle avctx) (cx_codec avctx) (cx_codec_id avctx)
                      (cx_time_base dctx)
                      (hd AV_PIX_FMT_NONE fmts)   (* first supported pixel format *)
                      (cx_width dctx) (cx_height dctx) in
   r <- lift status ;;                            (* avcodec_open2 *)
   let options := options_left codec options in
   if r <? 0 then lift (pexit "avcodec_open2 failed") else
   (* output queues have length 1 to enforce RT processing *)
   packet_queue <- queue_init 1 ;;
   lag_queue <- queue_init 1 ;;
   hret (mkEncoder ec (dc_frame_queue dc) packet_queue lag_queue
                   (Some avctx) options wc id)
   end end end end end)%setup.

(** [encoder_free]; the result is the new value of [*ec]. *)
Definition encoder_free (ec : option encoder_context) : MH (option encoder_context) :=
  match ec with
  | None => lift (stop (Undefined "e->packet_queue"))
  | Some e =>
      (queue_free (ec_packet_queue e) ;;
       queue_free (ec_lag_queue e) ;;
       _ <- avcodec_free_context (ec_avctx e) ;;
       (* av_dict_free(&e->options) *)
       free (ec_block e) ;;
       hret None)%setup
  end.

(** [source_decoder_init] *)
Definition source_decoder_init (rc : reader_context) (queue_capacity : Z)
  : MH decoder_context :=
  let index := rc_stream_index rc in
  if index <? 0 then lift (stop (Undefined "streams[index]")) else
  match nth_error (streams (rc_format_ctx rc)) (Z.to_nat index) with
  | None => lift (stop (Undefined "streams[index]"))
  | Some stream =>
  (avctx <- avcodec_alloc_context3 None ;;
   match avctx with
   | None => lift (pexit "avcodec_alloc_context3 failed")
   | Some avctx =>
   r <- lift status ;;                  (* avcodec_parameters_to_context *)
   if r <? 0 then lift (pexit "avcodec_parameters_to_context failed") else
   let par := codecpar stream in
   let avctx := mkCtx (cx_handle avctx) (cx_codec avctx) (par_codec_id par)
                      (stream_time_base stream) (cx_pix_fmt avctx)
                      (par_width par) (par_height par) in
   match avcodec_find_decoder (cx_codec_id avctx) with
   | None => lift (pexit "avcodec_find_decoder failed")
   | Some codec =>
   let avctx := mkCtx (cx_handle avctx) (cx_codec avctx) (cd_id codec)
                      (cx_time_base avctx) (cx_pix_fmt avctx)
                      (cx_width avctx) (cx_height avctx) in
   r <- lift status ;;                  (* avcodec_open2 *)
   if r <? 0 then lift (pexit "avcodec_open2 failed") else
   let avctx := mkCtx (cx_handle avctx) (Some codec) (cx_codec_id avctx)
                      (cx_time_base avctx) (cx_pix_fmt avctx)
                      (cx_width avctx) (cx_height avctx) in
   dc <- malloc "decoder_context" ;;
   match dc with
   | None => lift (pexit "malloc failed")
   | Some dc =>
   frame_queue <- queue_init queue_capacity ;;
   hret (mkDecoder dc (rc_packet_queue rc) frame_queue (Some avctx))
   end end end)%setup
  end.

(** [fov_decoder_init] *)
Definition fov_decoder_init (ec : encoder_context) : MH decoder_context :=
  match ec_avctx ec with
  | None => lift (stop (Undefined "ec->avctx->codec"))
  | Some ectx =>
  match cx_codec ectx with
  | None => lift (stop (Undefined "ec->avctx->codec->id"))
  | Some ecodec =>
  match avcodec_find_decoder (cd_id ecodec) with
  | None => lift (pexit "avcodec_find_decoder_by_name failed")
  | Some codec =>
  (avctx <- avcodec_alloc_context3 (Some codec) ;;
   match avctx with
   | None => lift (pexit "avcodec_alloc_context3 failed")
   | Some avctx =>
   r <- lift status ;;                  (* avcodec_open2 *)
   if r <? 0 then lift (pexit "avcodec_open2 failed") else
   dc <- malloc "decoder_context" ;;
   match dc with
   | None => lift (pexit "malloc failed")
   | Some dc =>
   frame_queue <- queue_init 1 ;;
   hret (mkDecoder dc (ec_packet_queue ec) frame_queue (Some avctx))
   end end)%setup
  end end end.

End WithLibrary.

(** [decoder_free]; the result is the new value of [*dc]. *)
Definition decoder_free (dc : option decoder_context) : MH (option decoder_context) :=
  match dc with
  | None => lift (stop (Undefined "d->avctx"))
  | Some d =>
      (_ <- avcodec_free_context (dc_avctx d) ;;
       queue_free (dc_frame_queue d) ;;
       (* packet_queue is freed by reader_free! *)
       free (dc_block d) ;;
       hret None)%setup
  end.

End CodecSetup.

(** ** Vocabulary for set-up and tear-down *)

(** Every allocated handle lies below the next one to be handed out. *)
Definition wf_heap (h : Heap) : Prop :=
  Forall (fun e => (fst e < h_next h)%nat) (h_live h).

(** The heap after the objects [objs] were allocated one after the other. *)
Fixpoint grow (h : Heap) (objs : list object) : Heap :=
  match objs with
  | [] => h
  | o :: objs' => grow (mkHeap (S (h_next h)) (h_live h ++ [(h_next h, o)])) objs'
  end.

(** The libav build and the demuxed file, as the set-up functions see them. *)
Record Library : Type := mkLibrary {
  find_encoder_by_name : string -> option AVCodec;
  find_decoder : Z -> option AVCodec;
  stream_codecpar : AVStream -> AVCodecParameters;
  stream_time_base : AVStream -> AVRational;
  options_left : AVCodec -> AVDictionary -> AVDictionary
}.

Definition source_decoder_init (lib : Library) :=
  CodecSetup.source_decoder_init (find_decoder lib) (stream_codecpar lib)
                                 (stream_time_base lib).

Definition encoder_init (lib : Library) :=
  CodecSetup.encoder_init (find_encoder_by_name lib) (options_left lib).

Definition fov_decoder_init (lib : Library) :=
  CodecSetup.fov_decoder_init (find_decoder lib).

(** The three codec stages set up behind a reader, in pipeline order. *)
Definition pipeline_init (lib : Library) (rc : CodecSetup.reader_context)
  (queue_capacity id wc : Z)
  : MH (CodecSetup.decoder_context * CodecSetup.encoder_context
        * CodecSetup.decoder_context) :=
  (dc <- source_decoder_init lib rc queue_capacity ;;
   ec <- encoder_init lib id dc wc ;;
   fd <- fov_decoder_init lib ec ;;
   hret (dc, ec, fd))%setup.

(** The context pointers of the three stages. *)
Definition contexts : Type :=
  (option CodecSetup.decoder_context * option CodecSetup.encoder_context
   * option CodecSetup.decoder_context)%type.

Inductive stage : Type := SourceDecoder | Encoder | FovDecoder.

Definition free_stage (s : stage) (c : contexts) : MH contexts :=
  match c with
  | (dc, ec, fd) =>
      match s with
      | SourceDecoder =>
          hbind (CodecSetup.decoder_free dc) (fun dc' => hret (dc', ec, fd))
      | Encoder =>
          hbind (CodecSetup.encoder_free ec) (fun ec' => hret (dc, ec', fd))
      | FovDecoder =>
          hbind (CodecSetup.decoder_free fd) (fun fd' => hret (dc, ec, fd'))
      end
  end.

Fixpoint tear_down (order : list stage) (c : contexts) : MH contexts :=
  match order with
  | [] => hret c
  | s :: order' => hbind (free_stage s c) (fun c' => tear_down order' c')
  end.

(** The last statement of [encoder_thread],
    [avcodec_free_context(&ec->avctx)], on the context struct. *)
Definition encoder_thread_exit (ec : CodecSetup.encoder_context)
  : MH CodecSetup.encoder_context :=
  hbind (avcodec_free_context (CodecSetup.ec_avctx ec)) (fun ctx =>
  hret (CodecSetup.mkEncoder
          (CodecSetup.ec_block ec) (CodecSetup.ec_frame_queue ec)
          (CodecSetup.ec_packet_queue ec) (CodecSetup.ec_lag_queue ec)
          ctx (CodecSetup.ec_options ec) (CodecSetup.ec_w_ctx ec)
          (CodecSetup.ec_id ec))).


(** A queue that did not exist in [h] and is allocated, with its capacity,
    in [h']. *)
Definition created_between (h h' : Heap) (q : Queue) : Prop :=
  is_live (q_handle q) h = false /\
  In (q_handle q, OQueue (q_capacity q)) (h_live h').

(** The options [encoder_init] hands to [avcodec_open2] for a supported
    encoder. *)
Definition low_latency_profile (id : Z) : AVDictionary :=
  if id =? LIBX264 then
    [("preset", "ultrafast"); ("tune", "zerolatency");
     ("aq-mode", "autovariance"); ("gop-size", "3")]
  else
    [("preset", "ultrafast"); ("tune", "zerolatency");
     ("x265-params", "aq-mode=2"); ("gop-size", "3")].

Definition encoder_name (id : Z) : string :=
  if id =? LIBX264 then "libx264" else "libx265".

(** The orders in which the three stages can be freed. *)
Definition free_orders : list (list stage) :=
  [[SourceDecoder; Encoder; FovDecoder]; [SourceDecoder; FovDecoder; Encoder];
   [Encoder; SourceDecoder; FovDecoder]; [Encoder; FovDecoder; SourceDecoder];
   [FovDecoder; SourceDecoder; Encoder]; [FovDecoder; Encoder; SourceDecoder]].

(** Tear-down after the encoder worker has ([ran]) or has not run to its
    end. *)
Definition shut_down (ran : bool) (order : list stage)
  (dc : CodecSetup.decoder_context) (ec : CodecSetup.encoder_context)
  (fd : CodecSetup.decoder_context) : MH contexts :=
  hbind (if ran then encoder_thread_exit ec else hret ec) (fun ec' =>
  tear_down order (Some dc, Some ec', Some fd)).

(** ** Sample set-up *)

Definition x264 : AVCodec := mkCodec "libx264" 27 (Some [0; 12; AV_PIX_FMT_NONE]).
Definition h264 : AVCodec := mkCodec "h264" 27 (Some [0; AV_PIX_FMT_NONE]).

Definition sample_library : Library :=
  mkLibrary (fun name => if String.eqb name "libx264" then Some x264 else None)
            (fun id => if id =? 27 then Some h264 else None)
            (fun _ => mkPar 27 640 480)
            (fun _ => mkRational 1 25)
            (fun _ _ => []).

(** A reader whose packet queue is the one object allocated so far. *)
Definition sample_heap : Heap := mkHeap 1%nat [(0%nat, OQueue 32)].

Definition sample_rc : CodecSetup.reader_context :=
  CodecSetup.mkReader 0 two_streams (mkQueue 0%nat 32).

(** What the set-up of the sample leaves: the three contexts and the heap. *)
Definition sample_dc : CodecSetup.decoder_context :=
  CodecSetup.mkDecoder 2 (mkQueue 0 32) (mkQueue 3 32)
    (Some (mkCtx 1 (Some h264) 27 (mkRational 1 25) AV_PIX_FMT_NONE 640 480)).

Definition sample_ec : CodecSetup.encoder_context :=
  CodecSetup.mkEncoder 4 (mkQueue 3 32) (mkQueue 6 1) (mkQueue 7 1)
    (Some (mkCtx 5 (Some x264) 27 (mkRational 1 25) 0 640 480)) [] 7 LIBX264.

Definition sample_fd : CodecSetup.decoder_context :=
  CodecSetup.mkDecoder 9 (mkQueue 6 1) (mkQueue 10 1)
    (Some (mkCtx 8 (Some h264) 27 (mkRational 0 1) AV_PIX_FMT_NONE 0 0)).

Definition sample_heap_set_up : Heap :=
  grow sample_heap
    [OCodecContext; OStruct "decoder_context"; OQueue 32;
     OStruct "encoder_context"; OCodecContext; OQueue 1; OQueue 1;
     OCodecContext; OStruct "decoder_context"; OQueue 1].
(* ================================================================== *)
(** * Running workers: general facts *)

Lemma bind_ok {A B} (m : M A) (k : A -> M B) w a w1 t1 :
  m w = (Ok a, w1, t1) ->
  bind m k w = (outcome (k a w1), final (k a w1), t1 ++ trace (k a w1)).
Proof.
  intros E. unfold bind. rewrite E.
  destruct (k a w1) as [[r w2] t2]. reflexivity.
Qed.

Lemma bind_halt {A B} (m : M A) (k : A -> M B) w h w1 t1 :
  m w = (Halt h, w1, t1) -> bind m k w = (Halt h, w1, t1).
Proof. intros E. unfold bind. rewrite E. reflexivity. Qed.

Lemma bind_assoc {A B C} (m : M A) (k : A -> M B) (k' : B -> M C) w :
  bind (bind m k) k' w = bind m (fun a => bind (k a) k') w.
Proof.
  unfold bind. destruct (m w) as [[[a | h] w1] t1]; [| reflexivity].
  destruct (k a w1) as [[[b | h] w2] t2]; [| reflexivity].
  destruct (k' b w2) as [[r w3] t3]. rewrite app_assoc. reflexivity.
Qed.

Lemma bind_ret {A B} (a : A) (k : A -> M B) w : bind (ret a) k w = k a w.
Proof. unfold bind, ret. destruct (k a w) as [[r w2] t2]. reflexivity. Qed.

Lemma bind_emit {B} (e : event) (k : unit -> M B) w :
  bind (emit e) k w = (outcome (k tt w), final (k tt w), e :: trace (k tt w)).
Proof. unfold bind, emit. destruct (k tt w) as [[r w2] t2]. reflexivity. Qed.

Lemma enqueued_app q t1 t2 : enqueued q (t1 ++ t2) = enqueued q t1 ++ enqueued q t2.
Proof. unfold enqueued. apply flat_map_app. Qed.

Lemma dequeued_app t1 t2 : dequeued (t1 ++ t2) = dequeued t1 ++ dequeued t2.
Proof. unfold dequeued. apply flat_map_app. Qed.

(** ** Weakest-precondition rules, one per primitive *)

Lemma wp_bind {A B} (m : M A) (k : A -> M B) w Q :
  wp m w (fun r w1 t1 =>
            match r with
            | Ok a => wp (k a) w1 (fun r' w2 t2 => Q r' w2 (t1 ++ t2))
            | Halt h => Q (Halt h) w1 t1
            end) ->
  wp (bind m k) w Q.
Proof.
  unfold wp, bind, outcome, final, trace.
  destruct (m w) as [[[a | h] w1] t1]; simpl; [| auto].
  destruct (k a w1) as [[r w2] t2]; simpl. auto.
Qed.

Lemma wp_ret {A} (a : A) w Q : Q (Ok a) w [] -> wp (ret a) w Q.
Proof. auto. Qed.

Lemma wp_emit e w Q : Q (Ok tt) w [e] -> wp (emit e) w Q.
Proof. auto. Qed.

Lemma wp_stop {A} h w (Q : result A -> _) : Q (Halt h) w [] -> wp (stop h) w Q.
Proof. auto. Qed.

Lemma wp_pexit {A} msg w (Q : result A -> _) :
  Q (Halt (Exit EXIT_FAILURE)) w [Perror msg] -> wp (pexit msg) w Q.
Proof. auto. Qed.

Lemma world_eta w :
  w = mkWorld (w_ptr w) (w_ret w) (w_send w) (w_packets w) (w_frames w)
              (w_clock w) (w_sdl w) (w_join w) (w_room w).
Proof. destruct w. reflexivity. Qed.

Lemma wp_alloc w Q :
  (forall b l, next_of true (w_ptr w) = (b, l) -> Q (Ok b) (set_ptr l w) []) ->
  wp alloc w Q.
Proof.
  intros H. unfold wp, alloc. destruct (w_ptr w) as [| b l] eqn:E; simpl.
  - specialize (H true [] eq_refl). unfold set_ptr in H.
    rewrite <- E, <- world_eta in H. exact H.
  - apply H. reflexivity.
Qed.

Lemma wp_status w Q :
  (forall r l, next_of 0 (w_ret w) = (r, l) -> Q (Ok r) (set_ret l w) []) ->
  wp status w Q.
Proof.
  intros H. unfold wp, status. destruct (w_ret w) as [| b l] eqn:E; simpl.
  - specialize (H 0 [] eq_refl). unfold set_ret in H.
    rewrite <- E, <- world_eta in H. exact H.
  - apply H. reflexivity.
Qed.

Lemma wp_send_result w Q :
  (forall r l, next_of 0 (w_send w) = (r, l) -> Q (Ok r) (set_send l w) []) ->
  wp send_result w Q.
Proof.
  intros H. unfold wp, send_result. destruct (w_send w) as [| b l] eqn:E; simpl.
  - specialize (H 0 [] eq_refl). unfold set_send in H.
    rewrite <- E, <- world_eta in H. exact H.
  - apply H. reflexivity.
Qed.

Lemma wp_clock w Q :
  (forall r l, next_of 0 (w_clock w) = (r, l) -> Q (Ok r) (set_clock l w) []) ->
  wp av_gettime_relative w Q.
Proof.
  intros H. unfold wp, av_gettime_relative.
  destruct (w_clock w) as [| b l] eqn:E; simpl.
  - specialize (H 0 [] eq_refl). unfold set_clock in H.
    rewrite <- E, <- world_eta in H. exact H.
  - apply H. reflexivity.
Qed.

Lemma wp_sdl_query w Q :
  (forall s l, next_of (mkSdl 0 0 0 0) (w_sdl w) = (s, l) ->
     Q (Ok s) (set_sdl l w) []) ->
  wp Codec.sdl_query w Q.
Proof.
  intros H. unfold wp, Codec.sdl_query. destruct (w_sdl w) as [| b l] eqn:E; simpl.
  - specialize (H (mkSdl 0 0 0 0) [] eq_refl). unfold set_sdl in H.
    rewrite <- E, <- world_eta in H. exact H.
  - apply H. reflexivity.
Qed.

Lemma wp_wait w Q :
  (forall l, Q (Ok tt) (set_join l w) [WaitThread]) ->
  (forall l, Q (Halt Blocked) (set_join l w) [WaitThread]) ->
  wp SDL_WaitThread w Q.
Proof.
  intros H1 H2. unfold wp, SDL_WaitThread.
  destruct (w_join w) as [| [|] l] eqn:E; simpl.
  - specialize (H1 []). unfold set_join in H1. rewrite <- E, <- world_eta in H1. exact H1.
  - apply H1.
  - apply H2.
Qed.

Lemma wp_enqueue q d w Q :
  (forall l, next_of true (w_room w) = (true, l) ->
     Q (Ok tt) (set_room l w) [Enqueue q d]) ->
  (forall l, next_of true (w_room w) = (false, l) ->
     Q (Halt Stalled) (set_room l w) []) ->
  wp (enqueue q d) w Q.
Proof.
  intros H1 H2. unfold wp, enqueue.
  destruct (w_room w) as [| [|] l] eqn:E; simpl.
  - specialize (H1 [] eq_refl). unfold set_room in H1.
    rewrite <- E, <- world_eta in H1. exact H1.
  - apply H1. reflexivity.
  - apply H2. reflexivity.
Qed.

Lemma wp_dequeue_frame w Q :
  (w_frames w = [] -> Q (Halt Blocked) w []) ->
  (forall f l, w_frames w = f :: l ->
     Q (Ok f) (set_frames l w) [Dequeue frame_queue (option_map PFrame f)]) ->
  wp dequeue_frame w Q.
Proof.
  intros H1 H2. unfold wp, dequeue_frame.
  destruct (w_frames w) as [| f l]; simpl; [apply H1 | apply H2]; reflexivity.
Qed.

Lemma wp_dequeue_packet w Q :
  (w_packets w = [] -> Q (Halt Blocked) w []) ->
  (forall p l, w_packets w = p :: l ->
     Q (Ok p) (set_packets l w) [Dequeue packet_queue (option_map PPacket p)]) ->
  wp dequeue_packet w Q.
Proof.
  intros H1 H2. unfold wp, dequeue_packet.
  destruct (w_packets w) as [| f l]; simpl; [apply H1 | apply H2]; reflexivity.
Qed.

Lemma wp_weaken {A} (m : M A) w (Q Q' : result A -> World -> list event -> Prop) :
  wp m w Q' -> (forall r w' t, Q' r w' t -> Q r w' t) -> wp m w Q.
Proof. unfold wp. auto. Qed.

(** One step of symbolic execution of a worker. *)
Ltac wp_step :=
  lazymatch goal with
  | |- wp (bind _ _) _ _ => apply wp_bind
  | |- wp (ret _) _ _ => apply wp_ret
  | |- wp (emit _) _ _ => apply wp_emit
  | |- wp (enqueue _ _) _ _ =>
      let H := fresh "Hroom" in
      apply wp_enqueue; intros ? H
  | |- wp (perror _) _ _ => apply wp_emit
  | |- wp (stop _) _ _ => apply wp_stop
  | |- wp (pexit _) _ _ => apply wp_pexit
  | |- wp alloc _ _ => apply wp_alloc; intros ? ? ?
  | |- wp status _ _ => apply wp_status; intros ? ? ?
  | |- wp send_result _ _ => apply wp_send_result; intros ? ? ?
  | |- wp av_gettime_relative _ _ => apply wp_clock; intros ? ? ?
  | |- wp Codec.sdl_query _ _ => apply wp_sdl_query; intros ? ? ?
  | |- wp dequeue_frame _ _ =>
      let H := fresh "Hdeq" in
      apply wp_dequeue_frame; [intros H | intros ? ? H]
  | |- wp dequeue_packet _ _ =>
      let H := fresh "Hdeq" in
      apply wp_dequeue_packet; [intros H | intros ? ? H]
  | |- wp SDL_WaitThread _ _ => apply wp_wait; intros ?
  | |- wp (if ?b then _ else _) _ _ => destruct b eqn:?
  | |- wp (match ?x with Some _ => _ | None => _ end) _ _ => destruct x eqn:?
  end; cbv beta iota.

Ltac wp_steps := repeat wp_step.

(* ================================================================== *)
(** * Submit status handling (supply_packet, supply_frame) *)

Lemma unknown_status_tests r :
  known_submit_status r = false ->
  (r =? 0) = false /\ (r =? AVERROR EAGAIN) = false /\ (r =? AVERROR_EOF) = false
  /\ (r =? AVERROR EINVAL) = false /\ (r =? AVERROR ENOMEM) = false.
Proof.
  unfold known_submit_status. intros H.
  repeat (apply orb_false_iff in H; destruct H as [H ?]). auto.
Qed.

Lemma main_supply_packet_unknown r p w rest :
  w_send w = r :: rest -> known_submit_status r = false ->
  Main.supply_packet p w = (Ok tt, set_send rest w, [SendPacket p r]).
Proof.
  intros Hw Hr. destruct (unknown_status_tests r Hr) as (_ & E1 & E2 & E3 & E4).
  unfold Main.supply_packet, avcodec_send_packet, send_result, bind, emit, ret.
  rewrite Hw, E1, E2, E3, E4. reflexivity.
Qed.

Lemma codec_supply_packet_unknown r p w rest :
  w_send w = r :: rest -> known_submit_status r = false ->
  Codec.supply_packet p w = (Ok tt, set_send rest w, [SendPacket p r]).
Proof.
  intros Hw Hr. destruct (unknown_status_tests r Hr) as (_ & E1 & E2 & E3 & E4).
  unfold Codec.supply_packet, avcodec_send_packet, send_result, bind, emit, ret.
  rewrite Hw, E1, E2, E3, E4. reflexivity.
Qed.

Lemma supply_frame_unknown r f w rest :
  w_send w = r :: rest -> known_submit_status r = false ->
  Codec.supply_frame f w = (Ok tt, set_send rest w, [SendFrame f r]).
Proof.
  intros Hw Hr. destruct (unknown_status_tests r Hr) as (_ & E1 & E2 & E3 & E4).
  unfold Codec.supply_frame, avcodec_send_frame, send_result, bind, emit, ret.
  rewrite Hw, E1, E2, E3, E4. reflexivity.
Qed.

Lemma supply_frame_accepted f w rest :
  w_send w = 0 :: rest ->
  Codec.supply_frame f w = (Ok tt, set_send rest w, [SendFrame f 0]).
Proof.
  intros Hw.
  unfold Codec.supply_frame, avcodec_send_frame, send_result, bind, emit, ret.
  rewrite Hw. reflexivity.
Qed.

Lemma codec_supply_packet_accepted p w rest :
  w_send w = 0 :: rest ->
  Codec.supply_packet p w = (Ok tt, set_send rest w, [SendPacket p 0]).
Proof.
  intros Hw.
  unfold Codec.supply_packet, avcodec_send_packet, send_result, bind, emit, ret.
  rewrite Hw. reflexivity.
Qed.

Lemma main_supply_packet_accepted p w rest :
  w_send w = 0 :: rest ->
  Main.supply_packet p w = (Ok tt, set_send rest w, [SendPacket p 0]).
Proof.
  intros Hw.
  unfold Main.supply_packet, avcodec_send_packet, send_result, bind, emit, ret.
  rewrite Hw. reflexivity.
Qed.

(* ================================================================== *)
(** * The encoder loop follows its per-frame protocol *)

Lemma enc_run_app s t1 s1 t2 s2 :
  enc_run s t1 s1 -> enc_run s1 t2 s2 -> enc_run s (t1 ++ t2) s2.
Proof.
  induction 1; intros H2; simpl; [assumption |].
  econstructor; eauto.
Qed.

Lemma descr_entry_is_foveation d :
  is_foveation_entry
    (Codec.set_sd_data
       (Codec.new_side_data AV_FRAME_DATA_FOVEATION_DESCRIPTOR Codec.descr_size)
       (Some (SdDescr (4 * sizeof_float) d))) = true.
Proof. reflexivity. Qed.

Ltac wp_open :=
  lazymatch goal with
  | |- wp (Codec.supply_frame _) _ _ => unfold Codec.supply_frame
  | |- wp (Codec.supply_packet _) _ _ => unfold Codec.supply_packet
  | |- wp (Main.supply_packet _) _ _ => unfold Main.supply_packet
  | |- wp Codec.foveation_descriptor _ _ => unfold Codec.foveation_descriptor
  | |- wp (avcodec_send_frame _) _ _ => unfold avcodec_send_frame
  | |- wp (avcodec_send_packet _) _ _ => unfold avcodec_send_packet
  | |- wp (create_queue _) _ _ => unfold create_queue
  | |- wp (Main.open_decoder _ _) _ _ => unfold Main.open_decoder
  end.

Ltac wp_go := repeat (first [wp_step | wp_open]).

Lemma encode_frame_protocol f w :
  wp (Codec.encode_frame f) w
     (fun r _ t =>
        exists s, enc_run (Taken f) t s /\
                  match r with
                  | Ok _ => s = Idle
                  | Halt (Exit _) | Halt (Undefined _) | Halt Stalled => True
                  | Halt _ => False
                  end).
Proof.
  unfold Codec.encode_frame. wp_go; simpl;
    try (eexists; split; [repeat first
           [ apply run_nil
           | eapply run_cons; [first [ apply step_silent; reflexivity
                                     | apply step_submit; apply descr_entry_is_foveation
                                     | apply step_stamp ] |] ] | trivial ]; fail).
Qed.

Ltac silent_prefix :=
  repeat (eapply run_cons; [apply step_silent; reflexivity |]).

Lemma encoder_loop_protocol recv :
  forall packet w,
    wp (Codec.encoder_loop recv packet) w
       (fun r _ t => exists s, enc_run Idle t s /\ settled r s).
Proof.
  induction recv as [| [r pkt] recv IH]; intros packet w; simpl Codec.encoder_loop.
  - wp_go; simpl; (eexists; split; [silent_prefix; apply run_nil | reflexivity]).
  - wp_go; simpl;
      try (eexists; split; [silent_prefix; apply run_nil | reflexivity]; fail);
      try (eapply wp_weaken; [apply IH |];
           intros r' w' t' (s & Hrun & Hs); exists s; split;
           [simpl; silent_prefix; exact Hrun | exact Hs]; fail).
    + eapply wp_weaken; [apply encode_frame_protocol |].
      intros [[] | h] w1 t1 (s1 & Hrun1 & Hs1).
      * subst s1. eapply wp_weaken; [apply IH |].
        intros r' w' t' (s & Hrun & Hs). exists s. split; [| exact Hs].
        simpl. eapply run_cons; [apply step_take |].
        eapply enc_run_app; eassumption.
      * exists s1. split.
        -- simpl. eapply run_cons; [apply step_take | exact Hrun1].
        -- destruct h; simpl; trivial; contradiction.
    + eexists; split; [| reflexivity].
      eapply run_cons; [apply step_sentinel | apply run_nil].
Qed.

Lemma encoder_thread_protocol recv w :
  wp (Codec.encoder_thread recv) w
     (fun r _ t => exists s, enc_run Idle t s /\ settled r s).
Proof.
  unfold Codec.encoder_thread. wp_step. wp_step.
  wp_step. eapply wp_weaken; [apply encoder_loop_protocol |].
  intros [[] | h] w1 t1 (s1 & Hrun1 & Hs1).
  - simpl in Hs1. subst s1.
    wp_go; exists Idle; (split; [| first [reflexivity | exact I]]);
      simpl; (eapply enc_run_app; [exact Hrun1 |]); silent_prefix; apply run_nil.
  - exists s1. split; [exact Hrun1 | exact Hs1].
Qed.

Lemma silent_submitted e t : silent e = true -> submitted (e :: t) = submitted t.
Proof. destruct e; simpl; try reflexivity; discriminate. Qed.

Lemma silent_taken e t : silent e = true -> taken (e :: t) = taken t.
Proof.
  destruct e as [| q d | | | | | | | | | | | |]; simpl; try reflexivity.
  destruct q; simpl; try reflexivity; discriminate.
Qed.

Lemma silent_alternation e b t :
  silent e = true -> alternation b (e :: t) = alternation b t.
Proof.
  destruct e as [q d | | | | | | | | | | | | |]; simpl; try reflexivity; try discriminate.
  destruct q; simpl; try reflexivity; discriminate.
Qed.

Lemma carries_descriptor_annotate f sd :
  is_foveation_entry sd = true -> carries_descriptor (Codec.annotate f sd) = true.
Proof.
  intros H. unfold carries_descriptor, Codec.annotate. simpl.
  rewrite existsb_app. simpl. rewrite H. apply orb_true_iff. right. reflexivity.
Qed.

(** The frames submitted are, in order, the frames taken from the queue,
    each with a foveation entry appended. *)
Lemma enc_run_submitted s t s' :
  enc_run s t s' ->
  exists sds,
    Forall (fun sd => is_foveation_entry sd = true) sds /\
    submitted t = map annotate_pair (combine (in_hand s ++ taken t) sds) /\
    (length sds + length (in_hand s') = length (in_hand s ++ taken t))%nat.
Proof.
  induction 1 as [s | s e s1 t s2 Hstep Hrun (sds & Hall & Hsub & Hlen)].
  - exists []. split; [constructor |]. split.
    + simpl. destruct (in_hand s); reflexivity.
    + simpl. rewrite app_nil_r. reflexivity.
  - destruct Hstep as [f | | f sd r Hsd | f ts | s e He].
    + exists sds. simpl in *. auto.
    + exists sds. simpl in *. auto.
    + exists (sd :: sds). simpl in *. split; [constructor; assumption |].
      split; [rewrite Hsub; reflexivity | lia].
    + exists sds. simpl in *. auto.
    + exists sds. rewrite silent_submitted, silent_taken by assumption. auto.
Qed.

Lemma enc_run_alternation s t s' :
  enc_run s t s' -> alternation (awaits_stamp s) t = Some (awaits_stamp s').
Proof.
  induction 1 as [s | s e s1 t s2 Hstep Hrun IH]; [reflexivity |].
  destruct Hstep as [f | | f sd r Hsd | f ts | s e He];
    [simpl in *; assumption .. |].
  rewrite silent_alternation by assumption. assumption.
Qed.


Lemma alternation_no_sentinel t :
  forall b b', alternation b t = Some b' ->
    Forall (fun d => d <> None) (lag_entries t).
Proof.
  unfold lag_entries.
  induction t as [| e t IH]; intros b b' H; simpl in H; [constructor |].
  destruct e as [q d | | | | | | | | | | | | |];
    try (specialize (IH _ _ H); simpl; exact IH).
  - destruct q; try (specialize (IH _ _ H); simpl; exact IH).
    destruct b; [| discriminate].
    destruct d as [[| | ts] |]; try discriminate.
    simpl. constructor; [discriminate | eapply IH; eassumption].
  - destruct b; [discriminate |]. eapply IH; eassumption.
Qed.

(** C1. Every frame [encoder_thread] hands to the encoder codec is a frame
    it took from its frame queue (never the sentinel) to which a side-data
    entry tagged [AV_FRAME_DATA_FOVEATION_DESCRIPTOR], with a non-null
    payload of exactly 16 bytes, has been attached before the call of
    [supply_frame]; a taken frame stays unsubmitted only in a run that was
    killed before the submission. *)
Theorem encoder_submits_with_descriptor (recv : script AVPacket) (w : World) :
  let r := Codec.encoder_thread recv w in
  Forall (fun f => carries_descriptor f = true) (submitted (trace r)) /\
  exists sds,
    Forall (fun sd => is_foveation_entry sd = true) sds /\
    submitted (trace r) = map annotate_pair (combine (taken (trace r)) sds) /\
    match outcome r with
    | Ok _ | Halt Running | Halt Blocked => length sds = length (taken (trace r))
    | Halt _ => (length sds <= length (taken (trace r)))%nat
    end.
Proof.
  intros r. subst r.
  destruct (encoder_thread_protocol recv w) as (s & Hrun & Hs).
  destruct (enc_run_submitted _ _ _ Hrun) as (sds & Hall & Hsub & Hlen).
  simpl in Hsub, Hlen. split.
  - rewrite Hsub. apply Forall_forall. intros f Hin.
    apply in_map_iff in Hin. destruct Hin as ([f0 sd] & <- & Hin).
    apply carries_descriptor_annotate.
    apply in_combine_r in Hin.
    rewrite Forall_forall in Hall. apply Hall. exact Hin.
  - exists sds. split; [exact Hall |]. split; [exact Hsub |].
    destruct (outcome (Codec.encoder_thread recv w)) as [c | h]; simpl in Hs.
    + subst s. simpl in Hlen. lia.
    + destruct h; try lia; subst s; simpl in Hlen; lia.
Qed.


(* ================================================================== *)
(** * Sentinel discipline of the four workers *)

Lemma enqueued_cons q e t : enqueued q (e :: t) = enq_one q e ++ enqueued q t.
Proof. reflexivity. Qed.

Lemma dequeued_cons e t : dequeued (e :: t) = deq_one e ++ dequeued t.
Proof. reflexivity. Qed.

Lemma items_nil : exists items : list payload, @nil (option payload) = map Some items.
Proof. exists []. reflexivity. Qed.

Lemma items_cons x l :
  (exists items : list payload, l = map Some items) ->
  exists items : list payload, Some x :: l = map Some items.
Proof. intros (items & ->). exists (x :: items). reflexivity. Qed.

(** Bring the payload list of a trace with a known prefix into the shape
    prefix-items followed by the list of the unknown rest. *)
Ltac norm_enqueued :=
  cbn [app]; repeat rewrite enqueued_cons; cbn [enq_one queue_eqb app];
  repeat rewrite ?app_nil_r.

Ltac solve_items :=
  solve [ norm_enqueued;
          repeat first [ apply items_nil | assumption | apply items_cons ] ].

Ltac by_loop IH := eapply wp_weaken; [apply IH |]; cbv beta; intros ? ? ?.

Lemma reader_loop_items r_ctx reads :
  forall w, wp (Main.reader_loop r_ctx reads) w
               (fun _ _ t => exists items, enqueued packet_queue t = map Some items).
Proof.
  induction reads as [| [r pkt] reads IH]; intros w; simpl Main.reader_loop.
  - wp_go; solve_items.
  - wp_go; first [ by_loop IH; intros; solve_items | solve_items ].
Qed.

Lemma main_decoder_loop_items recv :
  forall w, wp (Main.decoder_loop recv) w
               (fun _ _ t => exists items, enqueued frame_queue t = map Some items).
Proof.
  induction recv as [| [r f] recv IH]; intros w; simpl Main.decoder_loop.
  - wp_go; solve_items.
  - wp_go; first [ by_loop IH; intros; solve_items | solve_items ].
Qed.

Lemma codec_decoder_loop_items recv :
  forall frame w, wp (Codec.decoder_loop recv frame) w
               (fun _ _ t => exists items, enqueued frame_queue t = map Some items).
Proof.
  induction recv as [| [r f] recv IH]; intros frame w; simpl Codec.decoder_loop.
  - wp_go; solve_items.
  - wp_go; first [ by_loop IH; intros; solve_items | solve_items ].
Qed.

Lemma encode_frame_items f w :
  wp (Codec.encode_frame f) w
     (fun _ _ t => enqueued packet_queue t = []).
Proof. unfold Codec.encode_frame. wp_go; reflexivity. Qed.

Lemma encoder_loop_items recv :
  forall packet w, wp (Codec.encoder_loop recv packet) w
               (fun _ _ t => exists items, enqueued packet_queue t = map Some items).
Proof.
  induction recv as [| [r f] recv IH]; intros packet w; simpl Codec.encoder_loop.
  - wp_go; solve_items.
  - wp_go; try first [ by_loop IH; intros; solve_items | solve_items ].
    eapply wp_weaken; [apply encode_frame_items |]. cbv beta.
    intros [[] | h] w1 t1 Ht1.
    + by_loop IH. intros. norm_enqueued. rewrite enqueued_app, Ht1. assumption.
    + norm_enqueued. rewrite Ht1. apply items_nil.
Qed.

Lemma terminated_open l :
  (exists items, l = map Some items) -> terminated_once false l.
Proof. intros (items & ->). exists items. now rewrite app_nil_r. Qed.

Lemma reader_thread_sentinel r_ctx reads w :
  sentinel_discipline packet_queue (Main.reader_thread r_ctx reads w).
Proof.
  change (wp (Main.reader_thread r_ctx reads) w
            (fun r _ t => terminated_once (returned r) (enqueued packet_queue t))).
  unfold Main.reader_thread. wp_step.
  eapply wp_weaken; [apply reader_loop_items |]. cbv beta.
  intros [[] | h] w1 t1 (items & Ht1).
  - wp_go; cbn [returned]; rewrite enqueued_app, Ht1; norm_enqueued;
      exists items; rewrite ?app_nil_r; reflexivity.
  - apply terminated_open. eauto.
Qed.

Lemma main_decoder_thread_sentinel fc idx recv w :
  sentinel_discipline frame_queue (Main.decoder_thread fc idx recv w).
Proof.
  change (wp (Main.decoder_thread fc idx recv) w
            (fun r _ t => terminated_once (returned r) (enqueued frame_queue t))).
  unfold Main.decoder_thread.
  wp_go; try (apply terminated_open; solve_items).
  eapply wp_weaken; [apply main_decoder_loop_items |]. cbv beta.
  intros [[] | h] w1 t1 (items & Ht1).
  - wp_go; cbn [returned]; norm_enqueued; rewrite ?enqueued_app, Ht1; norm_enqueued;
      exists items; rewrite ?app_nil_r; reflexivity.
  - norm_enqueued. apply terminated_open. eauto.
Qed.

Lemma codec_decoder_thread_sentinel recv w :
  sentinel_discipline frame_queue (Codec.decoder_thread recv w).
Proof.
  change (wp (Codec.decoder_thread recv) w
            (fun r _ t => terminated_once (returned r) (enqueued frame_queue t))).
  unfold Codec.decoder_thread. wp_step. wp_step. wp_step.
  eapply wp_weaken; [apply codec_decoder_loop_items |]. cbv beta.
  intros [[] | h] w1 t1 (items & Ht1).
  - wp_go; cbn [returned]; norm_enqueued; rewrite ?enqueued_app, Ht1; norm_enqueued;
      exists items; rewrite ?app_nil_r; reflexivity.
  - norm_enqueued. apply terminated_open. eauto.
Qed.

Lemma encoder_thread_sentinel recv w :
  sentinel_discipline packet_queue (Codec.encoder_thread recv w).
Proof.
  change (wp (Codec.encoder_thread recv) w
            (fun r _ t => terminated_once (returned r) (enqueued packet_queue t))).
  unfold Codec.encoder_thread. wp_step. wp_step. wp_step.
  eapply wp_weaken; [apply encoder_loop_items |]. cbv beta.
  intros [[] | h] w1 t1 (items & Ht1).
  - wp_go; cbn [returned]; norm_enqueued; rewrite ?enqueued_app, Ht1; norm_enqueued;
      exists items; rewrite ?app_nil_r; reflexivity.
  - norm_enqueued. apply terminated_open. eauto.
Qed.

(** ** The input queue is consumed in order *)

Ltac world_simpl :=
  cbn [w_ptr w_ret w_send w_packets w_frames w_clock w_sdl w_join w_room
       set_ptr set_ret set_send set_packets set_frames set_clock set_sdl set_join
       set_room] in *.

Ltac norm_dequeued :=
  cbn [app]; repeat rewrite dequeued_cons; cbn [deq_one app].

Ltac solve_fifo :=
  solve [ world_simpl; norm_dequeued;
          repeat match goal with
                 | H : w_packets _ = _ :: _ |- _ => rewrite H; clear H
                 | H : w_frames _ = _ :: _ |- _ => rewrite H; clear H
                 end;
          cbn [map];
          first [ reflexivity | assumption | f_equal; assumption ] ].

Lemma main_decoder_loop_fifo recv :
  forall w, wp (Main.decoder_loop recv) w
     (fun _ w' t => map (option_map PPacket) (w_packets w)
                    = dequeued t ++ map (option_map PPacket) (w_packets w')).
Proof.
  induction recv as [| [r f] recv IH]; intros w; simpl Main.decoder_loop.
  - wp_go; solve_fifo.
  - wp_go; first [ by_loop IH; intros; solve_fifo | solve_fifo ].
Qed.

Lemma codec_decoder_loop_fifo recv :
  forall frame w, wp (Codec.decoder_loop recv frame) w
     (fun _ w' t => map (option_map PPacket) (w_packets w)
                    = dequeued t ++ map (option_map PPacket) (w_packets w')).
Proof.
  induction recv as [| [r f] recv IH]; intros frame w; simpl Codec.decoder_loop.
  - wp_go; solve_fifo.
  - wp_go; first [ by_loop IH; intros; solve_fifo | solve_fifo ].
Qed.

Lemma encode_frame_fifo f w :
  wp (Codec.encode_frame f) w
     (fun _ w' t => dequeued t = [] /\ w_frames w' = w_frames w).
Proof. unfold Codec.encode_frame. wp_go; split; reflexivity. Qed.

Lemma encoder_loop_fifo recv :
  forall packet w, wp (Codec.encoder_loop recv packet) w
     (fun _ w' t => map (option_map PFrame) (w_frames w)
                    = dequeued t ++ map (option_map PFrame) (w_frames w')).
Proof.
  induction recv as [| [r f] recv IH]; intros packet w; simpl Codec.encoder_loop.
  - wp_go; solve_fifo.
  - wp_go; try first [ by_loop IH; intros; solve_fifo | solve_fifo ].
    eapply wp_weaken; [apply encode_frame_fifo |]. cbv beta.
    intros [[] | h] w1 t1 (Ht1 & Hw1).
    + by_loop IH. intros Hrec. world_simpl. norm_dequeued.
      rewrite dequeued_app, Ht1, Hdeq. cbn [map app]. f_equal.
      rewrite <- Hrec, Hw1. reflexivity.
    + world_simpl. norm_dequeued. rewrite Ht1, Hdeq, Hw1. reflexivity.
Qed.

Lemma main_decoder_thread_fifo fc idx recv w : fifo_packets w (Main.decoder_thread fc idx recv w).
Proof.
  change (wp (Main.decoder_thread fc idx recv) w
            (fun _ w' t => map (option_map PPacket) (w_packets w)
                           = dequeued t ++ map (option_map PPacket) (w_packets w'))).
  unfold Main.decoder_thread. wp_go; try solve_fifo.
  eapply wp_weaken; [apply main_decoder_loop_fifo |]. cbv beta.
  intros [[] | h] w1 t1 Ht1; world_simpl.
  - wp_go; world_simpl; norm_dequeued; rewrite ?dequeued_app; norm_dequeued;
      change (dequeued []) with (@nil (option payload)); rewrite ?app_nil_r; exact Ht1.
  - exact Ht1.
Qed.

Lemma codec_decoder_thread_fifo recv w : fifo_packets w (Codec.decoder_thread recv w).
Proof.
  change (wp (Codec.decoder_thread recv) w
            (fun _ w' t => map (option_map PPacket) (w_packets w)
                           = dequeued t ++ map (option_map PPacket) (w_packets w'))).
  unfold Codec.decoder_thread. wp_step. wp_step. wp_step.
  eapply wp_weaken; [apply codec_decoder_loop_fifo |]. cbv beta.
  intros [[] | h] w1 t1 Ht1; world_simpl.
  - wp_go; world_simpl; norm_dequeued; rewrite ?dequeued_app; norm_dequeued;
      change (dequeued []) with (@nil (option payload)); rewrite ?app_nil_r; exact Ht1.
  - exact Ht1.
Qed.

Lemma encoder_thread_fifo recv w : fifo_frames w (Codec.encoder_thread recv w).
Proof.
  change (wp (Codec.encoder_thread recv) w
            (fun _ w' t => map (option_map PFrame) (w_frames w)
                           = dequeued t ++ map (option_map PFrame) (w_frames w'))).
  unfold Codec.encoder_thread. wp_step. wp_step. wp_step.
  eapply wp_weaken; [apply encoder_loop_fifo |]. cbv beta.
  intros [[] | h] w1 t1 Ht1; world_simpl.
  - wp_go; world_simpl; norm_dequeued; rewrite ?dequeued_app; norm_dequeued;
      change (dequeued []) with (@nil (option payload)); rewrite ?app_nil_r; exact Ht1.
  - exact Ht1.
Qed.

(** ** How the sentinel travels *)

Lemma sentinel_taken_cons e t :
  sentinel_taken (e :: t) = existsb (fun d => is_null d) (deq_one e) || sentinel_taken t.
Proof. unfold sentinel_taken. rewrite dequeued_cons. apply existsb_app. Qed.

Lemma sentinel_taken_app t1 t2 :
  sentinel_taken (t1 ++ t2) = sentinel_taken t1 || sentinel_taken t2.
Proof. unfold sentinel_taken. rewrite dequeued_app. apply existsb_app. Qed.

Lemma drain_requested_app t1 t2 :
  drain_requested (t1 ++ t2) = drain_requested t1 || drain_requested t2.
Proof. unfold drain_requested. apply existsb_app. Qed.

Lemma sentinel_taken_nil : sentinel_taken [] = false.
Proof. reflexivity. Qed.

Lemma drain_requested_cons e t :
  drain_requested (e :: t) = is_drain e || drain_requested t.
Proof. reflexivity. Qed.

Ltac norm_taken :=
  cbn [app]; repeat rewrite sentinel_taken_cons; repeat rewrite drain_requested_cons;
  repeat rewrite sentinel_taken_nil;
  cbn [deq_one existsb is_null option_map orb is_drain].

Lemma answers_eof_cons {A} r (x : A) s :
  answers_eof ((r, x) :: s) = (r =? AVERROR_EOF) || answers_eof s.
Proof. reflexivity. Qed.

(** The reader returns only after the demuxer answered end-of-stream. *)
Lemma reader_loop_eof r_ctx reads :
  forall w, wp (Main.reader_loop r_ctx reads) w
               (fun r _ _ => returned r = true -> answers_eof reads = true).
Proof.
  induction reads as [| [r pkt] reads IH]; intros w; simpl Main.reader_loop.
  - wp_go; cbn [returned]; intros; discriminate.
  - wp_go; cbn [returned];
      try (intros; discriminate);
      try (by_loop IH; intros Hrec Hret;
           rewrite answers_eof_cons, (Hrec Hret); apply orb_true_r).
    intros _. rewrite answers_eof_cons, Heqb1. reflexivity.
Qed.

(** A decoder returns only after its codec answered end-of-stream, and it
    hands the null packet it takes to the codec. *)
Lemma main_decoder_loop_eof recv :
  forall w, wp (Main.decoder_loop recv) w
               (fun r _ t => (returned r = true -> answers_eof recv = true) /\
                             (sentinel_taken t = true -> drain_requested t = true)).
Proof.
  induction recv as [| [r f] recv IH]; intros w; simpl Main.decoder_loop.
  - wp_go; cbn [returned]; split; intros; discriminate.
  - wp_go; cbn [returned];
      first
        [ by_loop IH; intros (Hrec1 & Hrec2); split;
          [ intros Hret; rewrite answers_eof_cons, (Hrec1 Hret); apply orb_true_r
          | norm_taken; try destruct p; cbn [is_null option_map orb]; auto ]
        | split;
          [ intros; first [ discriminate
                          | rewrite answers_eof_cons, Heqb1; reflexivity ]
          | norm_taken; try destruct p; cbn [is_null option_map orb];
            intros; first [ discriminate | reflexivity ] ] ].
Qed.

Lemma codec_decoder_loop_eof recv :
  forall frame w, wp (Codec.decoder_loop recv frame) w
               (fun r _ t => (returned r = true -> answers_eof recv = true) /\
                             (sentinel_taken t = true -> drain_requested t = true)).
Proof.
  induction recv as [| [r f] recv IH]; intros frame w; simpl Codec.decoder_loop.
  - wp_go; cbn [returned]; split; intros; discriminate.
  - wp_go; cbn [returned];
      first
        [ by_loop IH; intros (Hrec1 & Hrec2); split;
          [ intros Hret; rewrite answers_eof_cons, (Hrec1 Hret); apply orb_true_r
          | norm_taken; try destruct p; cbn [is_null option_map orb]; auto ]
        | split;
          [ intros; first [ discriminate
                          | rewrite answers_eof_cons, Heqb2; reflexivity ]
          | norm_taken; try destruct p; cbn [is_null option_map orb];
            intros; first [ discriminate | reflexivity ] ] ].
Qed.

(** The encoder returns exactly when it has taken the sentinel or its codec
    answered end-of-stream; once the sentinel is taken it returns. *)
Lemma encoder_loop_eof recv :
  forall packet w, wp (Codec.encoder_loop recv packet) w
     (fun r _ t =>
        (returned r = true -> sentinel_taken t || answers_eof recv = true) /\
        (returned r = false -> sentinel_taken t = false)).
Proof.
  induction recv as [| [r f] recv IH]; intros packet w; simpl Codec.encoder_loop.
  - wp_go; cbn [returned]; split; intros; first [discriminate | reflexivity].
  - wp_go; cbn [returned];
      try first
        [ by_loop IH; intros (Hrec1 & Hrec2); split;
          [ intros Hret; rewrite answers_eof_cons; norm_taken;
            specialize (Hrec1 Hret); apply orb_true_iff in Hrec1;
            destruct Hrec1 as [-> | ->]; rewrite ?orb_true_r; reflexivity
          | norm_taken; exact Hrec2 ]
        | split;
          [ intros; first [ discriminate
                          | rewrite answers_eof_cons, Heqb2; norm_taken;
                            rewrite ?orb_true_r; reflexivity
                          | norm_taken; reflexivity ]
          | norm_taken; intros; first [ discriminate | reflexivity ] ] ].
    eapply wp_weaken; [apply encode_frame_fifo |]. cbv beta.
    intros [[] | h] w1 t1 (Ht1 & _).
    + by_loop IH. intros (Hrec1 & Hrec2).
      assert (Hpre : forall t2, sentinel_taken
                (Dequeue frame_queue (Some (PFrame a)) :: t1 ++ t2) = sentinel_taken t2).
      { intros t2. norm_taken. rewrite sentinel_taken_app.
        unfold sentinel_taken at 1. rewrite Ht1. reflexivity. }
      cbn [app]. rewrite Hpre. split; [| exact Hrec2].
      intros Hret. rewrite answers_eof_cons. specialize (Hrec1 Hret).
      apply orb_true_iff in Hrec1. destruct Hrec1 as [-> | ->];
        rewrite ?orb_true_r; reflexivity.
    + cbn [returned app]. split; [intros; discriminate |].
      intros _. norm_taken. unfold sentinel_taken. rewrite Ht1. reflexivity.
Qed.

Lemma reader_thread_eof r_ctx reads w :
  returned (outcome (Main.reader_thread r_ctx reads w)) = true ->
  answers_eof reads = true.
Proof.
  change (wp (Main.reader_thread r_ctx reads) w
            (fun r _ _ => returned r = true -> answers_eof reads = true)).
  unfold Main.reader_thread. wp_step.
  eapply wp_weaken; [apply reader_loop_eof |]. cbv beta.
  intros [[] | h] w1 t1 Ht1.
  - wp_go; cbn [returned]; intros Hr;
      first [discriminate | apply Ht1; reflexivity].
  - intros; discriminate.
Qed.

Lemma main_decoder_thread_eof fc idx recv w :
  let r := Main.decoder_thread fc idx recv w in
  (returned (outcome r) = true -> answers_eof recv = true) /\
  (sentinel_taken (trace r) = true -> drain_requested (trace r) = true).
Proof.
  change (wp (Main.decoder_thread fc idx recv) w
            (fun r _ t => (returned r = true -> answers_eof recv = true) /\
                          (sentinel_taken t = true -> drain_requested t = true))).
  unfold Main.decoder_thread.
  wp_go; try (cbn [returned]; norm_taken; split; intros; discriminate).
  eapply wp_weaken; [apply main_decoder_loop_eof |]. cbv beta.
  intros [[] | h] w1 t1 (E1 & E2).
  - wp_go; cbn [returned];
      (split; [intros Hr; first [discriminate | apply E1; reflexivity] |]);
      cbn [app]; rewrite sentinel_taken_app, drain_requested_app; norm_taken;
      cbn [sentinel_taken drain_requested dequeued flat_map existsb];
      rewrite !orb_false_r; exact E2.
  - split; [intros; discriminate | exact E2].
Qed.

Lemma codec_decoder_thread_eof recv w :
  let r := Codec.decoder_thread recv w in
  (returned (outcome r) = true -> answers_eof recv = true) /\
  (sentinel_taken (trace r) = true -> drain_requested (trace r) = true).
Proof.
  change (wp (Codec.decoder_thread recv) w
            (fun r _ t => (returned r = true -> answers_eof recv = true) /\
                          (sentinel_taken t = true -> drain_requested t = true))).
  unfold Codec.decoder_thread. wp_step. wp_step. wp_step.
  eapply wp_weaken; [apply codec_decoder_loop_eof |]. cbv beta.
  intros [[] | h] w1 t1 (E1 & E2).
  - wp_go; cbn [returned];
      (split; [intros Hr; first [discriminate | apply E1; reflexivity] |]);
      cbn [app]; rewrite sentinel_taken_app, drain_requested_app; norm_taken;
      cbn [sentinel_taken drain_requested dequeued flat_map existsb];
      rewrite !orb_false_r; exact E2.
  - split; [intros; discriminate | exact E2].
Qed.

(** Having taken the sentinel the encoder is out of its loop: it has
    returned, or it waits for room to pass the sentinel on. *)
Lemma encoder_thread_eof recv w :
  let r := Codec.encoder_thread recv w in
  (returned (outcome r) = true ->
   sentinel_taken (trace r) || answers_eof recv = true) /\
  (sentinel_taken (trace r) = true ->
   outcome r = Ok 0 \/ outcome r = Halt Stalled).
Proof.
  change (wp (Codec.encoder_thread recv) w
            (fun r _ t => (returned r = true -> sentinel_taken t || answers_eof recv = true) /\
                          (sentinel_taken t = true -> r = Ok 0 \/ r = Halt Stalled))).
  unfold Codec.encoder_thread. wp_step. wp_step. wp_step.
  eapply wp_weaken; [apply encoder_loop_eof |]. cbv beta.
  intros [[] | h] w1 t1 (E1 & E2).
  - wp_go; cbn [returned app]; (split; [| auto]);
      intros Hr; try discriminate;
      rewrite sentinel_taken_app; norm_taken; rewrite !orb_false_r;
      apply E1; reflexivity.
  - cbn [returned app] in *. split; [intros; discriminate |].
    intros Ht. rewrite E2 in Ht by reflexivity. discriminate.
Qed.

Lemma sentinel_is_last l d rest :
  terminated_once true l -> l = d ++ rest ->
  existsb (fun x : option payload => is_null x) d = true -> rest = [].
Proof.
  intros (items & ->). revert d.
  induction items as [| x items IH]; intros d Heq Hd.
  - destruct d as [| y d]; [discriminate |].
    simpl in Heq. inversion Heq as [[Hy Hrest]].
    symmetry in Hrest. apply app_eq_nil in Hrest. tauto.
  - destruct d as [| y d]; [discriminate |].
    simpl in Heq. inversion Heq as [[Hy Hrest]]. subst y.
    simpl in Hd. eapply IH; eassumption.
Qed.

(** The lag queue, the encoder's side channel, only ever receives time
    stamps: it is never closed by a sentinel. *)
Lemma lag_queue_never_closed recv w :
  Forall (fun d => d <> None) (lag_entries (trace (Codec.encoder_thread recv w))).
Proof.
  destruct (encoder_thread_protocol recv w) as (s & Hrun & _).
  eapply alternation_no_sentinel. eapply enc_run_alternation. exact Hrun.
Qed.

(* ================================================================== *)
(** * Progress in a healthy environment *)

Lemma healthy_parts w :
  healthy w = true ->
  forallb (fun b : bool => b) (w_ptr w) = true /\
  forallb (fun r => negb (fatal_submit_status r)) (w_send w) = true /\
  forallb (fun r => 0 <=? r) (w_ret w) = true /\
  forallb (fun b : bool => b) (w_room w) = true.
Proof.
  unfold healthy, drained_downstream. intros H.
  apply andb_true_iff in H. destruct H as [H H4].
  apply andb_true_iff in H. destruct H as [H H3].
  apply andb_true_iff in H. destruct H as [H1 H2]. auto.
Qed.

Lemma healthy_intro w :
  forallb (fun b : bool => b) (w_ptr w) = true ->
  forallb (fun r => negb (fatal_submit_status r)) (w_send w) = true ->
  forallb (fun r => 0 <=? r) (w_ret w) = true ->
  forallb (fun b : bool => b) (w_room w) = true ->
  healthy w = true.
Proof. unfold healthy, drained_downstream. intros -> -> -> ->. reflexivity. Qed.

Lemma wp_alloc_healthy w Q :
  healthy w = true ->
  (forall l, healthy (set_ptr l w) = true -> Q (Ok true) (set_ptr l w) []) ->
  wp alloc w Q.
Proof.
  intros Hh H. apply wp_alloc. intros b l Hn.
  destruct (healthy_parts w Hh) as (H1 & H2 & H3 & H4).
  destruct (w_ptr w) as [| b' l'] eqn:E; simpl in Hn; inversion Hn; subst.
  - apply H. apply healthy_intro; assumption.
  - simpl in H1. apply andb_true_iff in H1. destruct H1 as [-> H1].
    apply H. apply healthy_intro; assumption.
Qed.

Lemma wp_send_healthy w Q :
  healthy w = true ->
  (forall r l, fatal_submit_status r = false -> healthy (set_send l w) = true ->
     Q (Ok r) (set_send l w) []) ->
  wp send_result w Q.
Proof.
  intros Hh H. apply wp_send_result. intros r l Hn.
  destruct (healthy_parts w Hh) as (H1 & H2 & H3 & H4).
  destruct (w_send w) as [| r' l'] eqn:E; simpl in Hn; inversion Hn; subst.
  - apply H; [reflexivity | apply healthy_intro; assumption].
  - simpl in H2. apply andb_true_iff in H2. destruct H2 as [Hr H2].
    apply negb_true_iff in Hr.
    apply H; [exact Hr | apply healthy_intro; assumption].
Qed.

Lemma wp_status_healthy w Q :
  healthy w = true ->
  (forall r l, (r <? 0) = false -> healthy (set_ret l w) = true ->
     Q (Ok r) (set_ret l w) []) ->
  wp status w Q.
Proof.
  intros Hh H. apply wp_status. intros r l Hn.
  destruct (healthy_parts w Hh) as (H1 & H2 & H3 & H4).
  destruct (w_ret w) as [| r' l'] eqn:E; simpl in Hn; inversion Hn; subst.
  - apply H; [reflexivity | apply healthy_intro; assumption].
  - simpl in H3. apply andb_true_iff in H3. destruct H3 as [Hr H3].
    apply H; [| apply healthy_intro; assumption].
    apply Z.ltb_ge. apply Z.leb_le. exact Hr.
Qed.

Lemma wp_enqueue_healthy q d w Q :
  healthy w = true ->
  (forall l, healthy (set_room l w) = true -> Q (Ok tt) (set_room l w) [Enqueue q d]) ->
  wp (enqueue q d) w Q.
Proof.
  intros Hh H. destruct (healthy_parts w Hh) as (H1 & H2 & H3 & H4).
  apply wp_enqueue; intros l Hn;
    destruct (w_room w) as [| b' l'] eqn:E; simpl in Hn; inversion Hn; subst.
  - apply H. apply healthy_intro; assumption.
  - simpl in H4. apply H. apply healthy_intro; assumption.
  - simpl in H4. discriminate.
Qed.

Ltac use_healthy :=
  match goal with H : healthy _ = true |- healthy _ = true => exact H end.

Ltac wp_live_step :=
  lazymatch goal with
  | |- wp alloc _ _ =>
      let Hh := fresh "Hh" in
      apply wp_alloc_healthy; [use_healthy | intros ? Hh]
  | |- wp send_result _ _ =>
      let Hh := fresh "Hh" in let Hf := fresh "Hfatal" in
      apply wp_send_healthy; [use_healthy | intros ? ? Hf Hh]
  | |- wp status _ _ =>
      let Hh := fresh "Hh" in let Hs := fresh "Hstatus" in
      apply wp_status_healthy; [use_healthy | intros ? ? Hs Hh]
  | |- wp (enqueue _ _) _ _ =>
      let Hh := fresh "Hh" in
      apply wp_enqueue_healthy; [use_healthy | intros ? Hh]
  end; cbv beta iota; cbn [negb].

(** A test that contradicts what is known about a status. *)
Ltac status_contra :=
  match goal with
  | Hf : fatal_submit_status ?r = false, He : (?r =? _) = true |- _ =>
      exfalso; unfold fatal_submit_status in Hf; rewrite He in Hf;
      cbn [orb] in Hf; rewrite ?orb_true_r in Hf; discriminate
  | Hs : (?r <? 0) = false, He : (?r <? 0) = true |- _ =>
      exfalso; rewrite He in Hs; discriminate
  | Hs : true = false |- _ => discriminate Hs
  end.

Ltac wp_live := repeat first [ wp_live_step | wp_step | wp_open ]; try status_contra.

Lemma eof_negative : AVERROR_EOF < 0.
Proof. reflexivity. Qed.

Lemma reader_loop_live r_ctx pkt rest pre :
  forall w, healthy w = true -> delivers pre = true ->
    wp (Main.reader_loop r_ctx (pre ++ (AVERROR_EOF, pkt) :: rest)) w
       (fun r w' t => r = Ok tt /\ healthy w' = true /\ t = reader_events r_ctx pre).
Proof.
  induction pre as [| [r p] pre IH]; intros w Hh Hpre; cbn [app Main.reader_loop].
  - rewrite Z.eqb_refl. wp_live. split; [reflexivity |]. split; [use_healthy | reflexivity].
  - simpl in Hpre. apply andb_true_iff in Hpre. destruct Hpre as [Hr Hpre].
    apply Z.leb_le in Hr.
    assert (E1 : (r =? AVERROR_EOF) = false)
      by (apply Z.eqb_neq; pose proof eof_negative; lia).
    assert (E2 : (r <? 0) = false) by (apply Z.ltb_ge; exact Hr).
    rewrite E1, E2. wp_live.
    + eapply wp_weaken; [apply IH; [use_healthy | exact Hpre] |]. cbv beta.
      intros r' w' t' (-> & Hh' & ->). split; [reflexivity |]. split; [exact Hh' |].
      cbn [app reader_events map snd]. unfold is_video. rewrite Heqb. reflexivity.
    + eapply wp_weaken; [apply IH; [use_healthy | exact Hpre] |]. cbv beta.
      intros r' w' t' (-> & Hh' & ->). split; [reflexivity |]. split; [exact Hh' |].
      cbn [app reader_events map snd]. unfold is_video. rewrite Heqb. reflexivity.
Qed.

(* ================================================================== *)
(** * The reader loop, case by case *)

Lemma alloc_next w b l :
  next_of true (w_ptr w) = (b, l) -> alloc w = (Ok b, set_ptr l w, []).
Proof.
  unfold alloc. destruct (w_ptr w) as [| b' l'] eqn:E; simpl; intros Hn;
    inversion Hn; subst; [| reflexivity].
  unfold set_ptr. rewrite <- E, <- world_eta. reflexivity.
Qed.

Lemma enqueued_reader_events r_ctx s :
  enqueued packet_queue (reader_events r_ctx s)
  = map (fun p => Some (PPacket p)) (filter (is_video r_ctx) (map snd s)).
Proof.
  induction s as [| [r p] s IH]; [reflexivity |].
  cbn [reader_events map snd filter]. rewrite enqueued_cons.
  fold (reader_events r_ctx s). rewrite IH.
  destruct (is_video r_ctx p); reflexivity.
Qed.

Lemma reader_thread_live r_ctx pkt rest pre w :
  healthy w = true -> delivers pre = true ->
  let r := Main.reader_thread r_ctx (pre ++ (AVERROR_EOF, pkt) :: rest) w in
  outcome r = Ok 0 /\
  trace r = reader_events r_ctx pre ++ [Enqueue packet_queue None; CloseInput].
Proof.
  intros Hh Hpre.
  change (wp (Main.reader_thread r_ctx (pre ++ (AVERROR_EOF, pkt) :: rest)) w
            (fun r _ t => r = Ok 0 /\
               t = reader_events r_ctx pre ++ [Enqueue packet_queue None; CloseInput])).
  unfold Main.reader_thread. wp_step.
  eapply wp_weaken; [apply reader_loop_live; assumption |]. cbv beta.
  intros r' w' t' (-> & Hh' & ->). wp_live. split; reflexivity.
Qed.

Lemma enqueue_next q d w b l :
  next_of true (w_room w) = (b, l) ->
  enqueue q d w
  = if b then (Ok tt, set_room l w, [Enqueue q d]) else (Halt Stalled, set_room l w, []).
Proof.
  unfold enqueue. destruct (w_room w) as [| [|] l0] eqn:E; simpl; intros Hn;
    inversion Hn; subst; try reflexivity.
  unfold set_room. rewrite <- E, <- world_eta. reflexivity.
Qed.

(** C4. One iteration of the reader loop, for a packet container that was
    allocated: on end-of-stream the sentinel is enqueued and the worker
    returns 0; on any other negative status the process ends with
    EXIT_FAILURE; a packet without buffer or of another stream is released,
    not enqueued, and the loop goes on; any other packet is enqueued and
    the loop goes on.  Where the reader enqueues, it does so once the packet
    queue has room; on a queue that stays full it waits and nothing is
    enqueued.  Hence, on a file whose reads all succeed and with a consumer
    that drains the packet queue, the queue receives the video packets in
    file order, then the sentinel. *)
Theorem reader_loop_cases
  (r_ctx : Main.reader_context) (r : Z) (pkt : AVPacket)
  (reads pre rest : script AVPacket) (w : World) (l : list bool)
  (room : bool) (l' : list bool) :
  next_of true (w_ptr w) = (true, l) ->
  next_of true (w_room w) = (room, l') ->
  Main.reader_thread r_ctx ((r, pkt) :: reads) w
  = match classify r_ctx r pkt with
    | EndOfStream =>
        if room then
          (Ok 0, set_room l' (set_ptr l w), [Enqueue packet_queue None; CloseInput])
        else (Halt Stalled, set_room l' (set_ptr l w), [])
    | ReadFailure =>
        (Halt (Exit EXIT_FAILURE), set_ptr l w, [Perror "av_read_frame failed"])
    | Dropped =>
        after (PacketFree (Some pkt)) (Main.reader_thread r_ctx reads (set_ptr l w))
    | Kept =>
        if room then
          after (Enqueue packet_queue (Some (PPacket pkt)))
                (Main.reader_thread r_ctx reads (set_room l' (set_ptr l w)))
        else (Halt Stalled, set_room l' (set_ptr l w), [])
    end
  /\ (healthy w = true -> delivers pre = true ->
      let run := Main.reader_thread r_ctx (pre ++ (AVERROR_EOF, pkt) :: rest) w in
      outcome run = Ok 0 /\
      enqueued packet_queue (trace run)
      = map (fun p => Some (PPacket p)) (filter (is_video r_ctx) (map snd pre))
        ++ [None]).
Proof.
  intros Hn Hroom. split.
  - apply alloc_next in Hn.
    assert (He : forall d, enqueue packet_queue d (set_ptr l w)
                   = if room then (Ok tt, set_room l' (set_ptr l w),
                                   [Enqueue packet_queue d])
                     else (Halt Stalled, set_room l' (set_ptr l w), []))
      by (intros d; apply enqueue_next; exact Hroom).
    unfold Main.reader_thread, classify, after. cbn [Main.reader_loop].
    rewrite bind_assoc, (bind_ok _ _ _ _ _ _ Hn). cbn [negb app].
    destruct (r =? AVERROR_EOF).
    { rewrite bind_ret. destruct room.
      - rewrite (bind_ok _ _ _ _ _ _ (He None)). reflexivity.
      - rewrite (bind_halt _ _ _ _ _ _ (He None)). reflexivity. }
    destruct (r <? 0); [reflexivity |].
    destruct (is_null (buf pkt)); cbn [orb];
      [rewrite bind_assoc, bind_emit; reflexivity |].
    destruct (negb (stream_index pkt =? Main.r_stream_index r_ctx));
      [rewrite bind_assoc, bind_emit; reflexivity |].
    rewrite bind_assoc. destruct room.
    + rewrite (bind_ok _ _ _ _ _ _ (He _)). reflexivity.
    + rewrite (bind_halt _ _ _ _ _ _ (He _)). reflexivity.
  - intros Hh Hpre run. subst run.
    destruct (reader_thread_live r_ctx pkt rest pre w Hh Hpre) as (Ho & Ht).
    split; [exact Ho |].
    rewrite Ht, enqueued_app, enqueued_reader_events. reflexivity.
Qed.

(* ================================================================== *)
(** * Stream selection in reader_init *)

Lemma set_discard_spec d :
  forall ss i ss',
    Main.set_discard ss i d = Some ss' ->
    length ss' = length ss /\
    (i < length ss)%nat /\
    forall j s0, nth_error ss j = Some s0 ->
      exists s, nth_error ss' j = Some s /\ st_index s = st_index s0 /\
                discard s = if (j =? i)%nat then d else discard s0.
Proof.
  induction ss as [| s ss IH]; intros i ss' H; [discriminate |].
  destruct i as [| i]; simpl in H.
  - inversion H; subst. split; [reflexivity |]. split; [simpl; lia |].
    intros [| j] s0 Hj; simpl in Hj.
    + inversion Hj; subst. eexists. split; [reflexivity |]. split; reflexivity.
    + exists s0. simpl. auto.
  - destruct (Main.set_discard ss i d) as [r |] eqn:E; [| discriminate].
    inversion H; subst. destruct (IH _ _ E) as (Hlen & Hi & Hnth).
    split; [simpl; congruence |]. split; [simpl; lia |].
    intros [| j] s0 Hj; simpl in Hj.
    + inversion Hj; subst. exists s0. simpl. auto.
    + simpl. apply Hnth. exact Hj.
Qed.

Lemma reader_init_post probe best file cap w :
  wp (Main.reader_init probe best file cap) w
     (fun res _ _ =>
        match res with
        | Ok r =>
            Main.filename r = file /\
            Main.r_stream_index r = best (probe file) /\
            0 <= best (probe file) /\
            Main.set_discard (streams (probe file)) (Z.to_nat (best (probe file)))
                             AVDISCARD_DEFAULT
            = Some (streams (Main.format_ctx r))
        | Halt _ => True
        end).
Proof.
  unfold Main.reader_init. wp_go; trivial.
  cbn [Main.filename Main.r_stream_index Main.format_ctx streams].
  repeat split; first [ assumption | apply Z.ltb_ge; assumption ].
Qed.

(** C5, as the code has it.  When [reader_init] returns, the selected
    stream is a stream of the container and its discard flag is
    [AVDISCARD_DEFAULT]; the discard flag of every other stream is the one
    the demuxer left: no stream is marked as discarded. *)
Theorem reader_init_discard_flags
  (probe : string -> AVFormatContext) (best : AVFormatContext -> Z)
  (file : string) (cap : Z) (w w' : World) (r : Main.reader_context)
  (t : list event) :
  Main.reader_init probe best file cap w = (Ok r, w', t) ->
  let before := streams (probe file) in
  let now := streams (Main.format_ctx r) in
  Main.r_stream_index r = best (probe file) /\
  0 <= Main.r_stream_index r < Z.of_nat (length before) /\
  length now = length before /\
  forall i s0, nth_error before i = Some s0 ->
    exists s, nth_error now i = Some s /\ st_index s = st_index s0 /\
              discard s = discard_after (Main.r_stream_index r) i (discard s0).
Proof.
  intros Hrun before now. subst before now.
  pose proof (reader_init_post probe best file cap w) as H.
  unfold wp in H. rewrite Hrun in H. cbn [outcome fst] in H.
  destruct H as (_ & Hidx & Hpos & Hset).
  destruct (set_discard_spec _ _ _ _ Hset) as (Hlen & Hi & Hnth).
  rewrite Hidx. split; [reflexivity |]. split; [lia |]. split; [exact Hlen |].
  intros i s0 Hi0. destruct (Hnth i s0 Hi0) as (s & Hs & Hst & Hd).
  exists s. split; [exact Hs |]. split; [exact Hst |].
  unfold discard_after. rewrite Hd.
  destruct (Nat.eqb_spec i (Z.to_nat (best (probe file)))) as [-> | Hne].
  - rewrite Z2Nat.id by exact Hpos. rewrite Z.eqb_refl. reflexivity.
  - destruct (Z.eqb_spec (Z.of_nat i) (best (probe file))) as [E | _]; [| reflexivity].
    exfalso. apply Hne. rewrite <- E. rewrite Nat2Z.id. reflexivity.
Qed.

(** C5 as stated fails: on a container with a video and an audio stream
    [reader_init] returns with the audio stream not marked as discarded. *)
Lemma reader_init_keeps_audio_stream :
  Main.reader_init (fun _ => two_streams) (fun _ => 0) "clip.mkv" 32 quiet_world
  = (Ok video_reader, quiet_world, [OpenInput "clip.mkv"]) /\
  map discard (streams (Main.format_ctx video_reader))
  = [AVDISCARD_DEFAULT; AVDISCARD_DEFAULT] /\
  others_discarded video_reader = false.
Proof. repeat split. Qed.

Lemma reader_init_discard_flags_witness :
  exists s,
    nth_error (streams (Main.format_ctx
                 (Main.mkReader "clip.mkv" 0 two_streams))) 1 = Some s /\
    st_index s = 1 /\ discard s = discard_after 0 1 AVDISCARD_DEFAULT.
Proof.
  destruct (reader_init_discard_flags (fun _ => two_streams) (fun _ => 0)
              "clip.mkv" 32 quiet_world quiet_world
              (Main.mkReader "clip.mkv" 0 two_streams)
              [OpenInput "clip.mkv"] eq_refl)
    as (_ & _ & _ & H).
  exact (H 1%nat (mkStream 1 AVDISCARD_DEFAULT) eq_refl).
Defined.

(* ================================================================== *)
(** * The playlist loop of main *)







(* ================================================================== *)
(** * Relating two runs *)

Section Relating.

Variable h : Z -> Z.
Variable f : list event -> list event.
Hypothesis f_app : forall a b, f (a ++ b) = f a ++ f b.

Lemma related_ret {A} (a : A) : related h f (ret a) (ret a).
Proof. intros w. repeat split. Qed.

Lemma related_stop {A} (x : halt) : related h f (@stop A x) (stop x).
Proof. intros w. repeat split. Qed.

Lemma related_emit e : related h f (emit e) (emit e).
Proof. intros w. repeat split. Qed.

Lemma related_bind {A B} (m1 m2 : M A) (k1 k2 : A -> M B) :
  related h f m1 m2 -> (forall a, related h f (k1 a) (k2 a)) ->
  related h f (bind m1 k1) (bind m2 k2).
Proof.
  intros Hm Hk w. destruct (Hm w) as (Ho & Hw & Ht).
  unfold bind.
  destruct (m1 w) as [[[a | x] w1] t1]; destruct (m2 (resend h w)) as [[[a' | x'] w1'] t1'];
    cbn [outcome final trace fst snd] in *; try discriminate.
  - inversion Ho; subst a'. subst w1'.
    destruct (Hk a w1) as (Ho2 & Hw2 & Ht2).
    destruct (k1 a w1) as [[r2 w2] t2]; destruct (k2 a (resend h w1)) as [[r2' w2'] t2'];
      cbn [outcome final trace fst snd] in *.
    rewrite !f_app, Ht, Ht2. auto.
  - inversion Ho; subst. repeat split; assumption.
Qed.

Lemma related_pexit {A} msg : related h f (@pexit A msg) (pexit msg).
Proof. intros w. repeat split. Qed.

Lemma related_alloc : related h f alloc alloc.
Proof.
  intros w. unfold alloc. cbn [resend set_send w_ptr].
  destruct (w_ptr w); repeat split.
Qed.

Lemma related_status : related h f status status.
Proof.
  intros w. unfold status. cbn [resend set_send w_ret].
  destruct (w_ret w); repeat split.
Qed.

Lemma related_clock : related h f av_gettime_relative av_gettime_relative.
Proof.
  intros w. unfold av_gettime_relative. cbn [resend set_send w_clock].
  destruct (w_clock w); repeat split.
Qed.

Lemma related_sdl_query : related h f Codec.sdl_query Codec.sdl_query.
Proof.
  intros w. unfold Codec.sdl_query. cbn [resend set_send w_sdl].
  destruct (w_sdl w); repeat split.
Qed.

Lemma related_dequeue_packet : related h f dequeue_packet dequeue_packet.
Proof.
  intros w. unfold dequeue_packet. cbn [resend set_send w_packets].
  destruct (w_packets w); repeat split.
Qed.

Lemma related_enqueue q d : related h f (enqueue q d) (enqueue q d).
Proof.
  intros w. unfold enqueue. cbn [resend set_send w_room].
  destruct (w_room w) as [| [|] l]; repeat split.
Qed.

Lemma related_dequeue_frame : related h f dequeue_frame dequeue_frame.
Proof.
  intros w. unfold dequeue_frame. cbn [resend set_send w_frames].
  destruct (w_frames w); repeat split.
Qed.

End Relating.

(** ** Unnamed submit statuses are taken for success *)

Ltac split_tests :=
  repeat match goal with
         | |- context [if ?c then _ else _] => destruct c
         end.

Lemma blind_supply_frame fr : blind_to_unknown_status (Codec.supply_frame fr).
Proof.
  intros w.
  unfold Codec.supply_frame, avcodec_send_frame, send_result, bind, emit, ret, pexit, stop.
  cbn [resend set_send w_send]. destruct (w_send w) as [| r l]; cbn [map].
  - repeat split.
  - destruct (known_submit_status r) eqn:K.
    + assert (Hacc : accept_status r = r)
        by (unfold accept_status; rewrite K; reflexivity).
      rewrite Hacc. split_tests; repeat split.
    + assert (Hacc : accept_status r = 0)
        by (unfold accept_status; rewrite K; reflexivity).
      destruct (unknown_status_tests r K) as (_ & E1 & E2 & E3 & E4).
      rewrite Hacc, E1, E2, E3, E4. repeat split.
Qed.

Lemma blind_codec_supply_packet p : blind_to_unknown_status (Codec.supply_packet p).
Proof.
  intros w.
  unfold Codec.supply_packet, avcodec_send_packet, send_result, bind, emit, ret, pexit, stop.
  cbn [resend set_send w_send]. destruct (w_send w) as [| r l]; cbn [map].
  - repeat split.
  - destruct (known_submit_status r) eqn:K.
    + assert (Hacc : accept_status r = r)
        by (unfold accept_status; rewrite K; reflexivity).
      rewrite Hacc. split_tests; repeat split.
    + assert (Hacc : accept_status r = 0)
        by (unfold accept_status; rewrite K; reflexivity).
      destruct (unknown_status_tests r K) as (_ & E1 & E2 & E3 & E4).
      rewrite Hacc, E1, E2, E3, E4. repeat split.
Qed.

Lemma blind_main_supply_packet p : blind_to_unknown_status (Main.supply_packet p).
Proof. exact (blind_codec_supply_packet p). Qed.

Lemma forget_app a b :
  map forget_status (a ++ b) = map forget_status a ++ map forget_status b.
Proof. apply map_app. Qed.

(** One relational step for a worker compared with itself. *)
Ltac blind_step :=
  lazymatch goal with
  | |- blind_to_unknown_status _ => unfold blind_to_unknown_status
  | |- related _ _ (bind _ _) (bind _ _) =>
      apply related_bind; [exact forget_app | | intros ?]
  | |- related _ _ (ret _) _ => apply related_ret
  | |- related _ _ (stop _) _ => apply related_stop
  | |- related _ _ (pexit _) _ => apply related_pexit
  | |- related _ _ (emit _) _ => apply related_emit
  | |- related _ _ (enqueue _ _) _ => apply related_enqueue
  | |- related _ _ (perror _) _ => apply related_emit
  | |- related _ _ alloc _ => apply related_alloc
  | |- related _ _ status _ => apply related_status
  | |- related _ _ av_gettime_relative _ => apply related_clock
  | |- related _ _ Codec.sdl_query _ => apply related_sdl_query
  | |- related _ _ dequeue_packet _ => apply related_dequeue_packet
  | |- related _ _ dequeue_frame _ => apply related_dequeue_frame
  | |- related _ _ (Codec.supply_frame _) _ => apply blind_supply_frame
  | |- related _ _ (Codec.supply_packet _) _ => apply blind_codec_supply_packet
  | |- related _ _ (Main.supply_packet _) _ => apply blind_main_supply_packet
  | |- related _ _ Codec.foveation_descriptor _ => unfold Codec.foveation_descriptor
  | |- related _ _ (Codec.encode_frame _) _ => unfold Codec.encode_frame
  | |- related _ _ (Main.open_decoder _ _) _ => unfold Main.open_decoder
  | |- related _ _ (if ?c then _ else _) _ => destruct c
  | |- related _ _ (match ?x with Some _ => _ | None => _ end) _ => destruct x
  end.

Lemma blind_encoder_loop recv :
  forall packet, blind_to_unknown_status (Codec.encoder_loop recv packet).
Proof.
  induction recv as [| [r pkt] recv IH]; intros packet; cbn [Codec.encoder_loop];
    repeat first [ apply IH | blind_step ].
Qed.

Lemma blind_codec_decoder_loop recv :
  forall frame, blind_to_unknown_status (Codec.decoder_loop recv frame).
Proof.
  induction recv as [| [r fr] recv IH]; intros frame; cbn [Codec.decoder_loop];
    repeat first [ apply IH | blind_step ].
Qed.

Lemma blind_main_decoder_loop recv :
  blind_to_unknown_status (Main.decoder_loop recv).
Proof.
  induction recv as [| [r fr] recv IH]; cbn [Main.decoder_loop];
    repeat first [ apply IH | blind_step ].
Qed.

Lemma blind_encoder_thread recv : blind_to_unknown_status (Codec.encoder_thread recv).
Proof.
  unfold Codec.encoder_thread.
  repeat first [ apply blind_encoder_loop | blind_step ].
Qed.

Lemma blind_codec_decoder_thread recv :
  blind_to_unknown_status (Codec.decoder_thread recv).
Proof.
  unfold Codec.decoder_thread.
  repeat first [ apply blind_codec_decoder_loop | blind_step ].
Qed.

Lemma blind_main_decoder_thread fc idx recv :
  blind_to_unknown_status (Main.decoder_thread fc idx recv).
Proof.
  unfold Main.decoder_thread.
  repeat first [ apply blind_main_decoder_loop | blind_step ].
Qed.

(** C9. A submit status other than 0, EAGAIN, EOF, EINVAL and ENOMEM makes
    [supply_packet] (both copies) and [supply_frame] return without report
    and without ending the process, exactly as status 0 does; and every
    worker that calls them behaves, up to the status recorded in its trace,
    as if each such status had been 0. *)
Theorem unknown_submit_status_is_success
  (r : Z) (rest : list Z) (p : option AVPacket) (fr : AVFrame) (w : World) :
  known_submit_status r = false ->
  w_send w = r :: rest ->
  (Main.supply_packet p w = (Ok tt, set_send rest w, [SendPacket p r]) /\
   Codec.supply_packet p w = (Ok tt, set_send rest w, [SendPacket p r]) /\
   Codec.supply_frame fr w = (Ok tt, set_send rest w, [SendFrame fr r])) /\
  (Main.supply_packet p (set_send (0 :: rest) w)
   = (Ok tt, set_send rest w, [SendPacket p 0]) /\
   Codec.supply_packet p (set_send (0 :: rest) w)
   = (Ok tt, set_send rest w, [SendPacket p 0]) /\
   Codec.supply_frame fr (set_send (0 :: rest) w)
   = (Ok tt, set_send rest w, [SendFrame fr 0])) /\
  (forall fc idx recv, blind_to_unknown_status (Main.decoder_thread fc idx recv)) /\
  (forall recv, blind_to_unknown_status (Codec.decoder_thread recv)) /\
  (forall recv, blind_to_unknown_status (Codec.encoder_thread recv)).
Proof.
  intros Hr Hw. split; [| split].
  - split; [| split].
    + apply main_supply_packet_unknown; assumption.
    + apply codec_supply_packet_unknown; assumption.
    + apply supply_frame_unknown; assumption.
  - split; [| split].
    + rewrite (main_supply_packet_accepted p _ rest) by reflexivity. reflexivity.
    + rewrite (codec_supply_packet_accepted p _ rest) by reflexivity. reflexivity.
    + rewrite (supply_frame_accepted fr _ rest) by reflexivity. reflexivity.
  - split; [| split].
    + apply blind_main_decoder_thread.
    + apply blind_codec_decoder_thread.
    + apply blind_encoder_thread.
Qed.

(* ================================================================== *)
(** * The two decoder workers *)

Lemma resend_same w : resend same_answers w = w.
Proof.
  unfold resend, same_answers, set_send. rewrite map_id. symmetry. apply world_eta.
Qed.

Lemma without_release_app a b :
  without_release (a ++ b) = without_release a ++ without_release b.
Proof. apply filter_app. Qed.

Lemma agree_supply_packet p :
  related same_answers without_release (Main.supply_packet p) (Codec.supply_packet p).
Proof.
  intros w. rewrite resend_same. repeat split.
  rewrite resend_same. reflexivity.
Qed.

Lemma related_skip_free {A} (m1 m2 : M A) p :
  related same_answers without_release m1 m2 ->
  related same_answers without_release m1 (emit (PacketFree p) ;; m2).
Proof.
  intros H w. destruct (H w) as (Ho & Hw & Ht).
  rewrite bind_emit. cbn [outcome final trace fst snd].
  repeat split; assumption.
Qed.

Lemma codec_decoder_loop_null recv :
  Codec.decoder_loop recv false = pexit "av_frame_alloc failed".
Proof. destruct recv; reflexivity. Qed.

Ltac agree_step :=
  lazymatch goal with
  | |- related _ _ _ (bind (emit (PacketFree _)) _) => apply related_skip_free
  | |- related _ _ (bind _ _) (bind _ _) =>
      apply related_bind; [exact without_release_app | | intros ?]
  | |- related _ _ (ret _) _ => apply related_ret
  | |- related _ _ (stop _) _ => apply related_stop
  | |- related _ _ (pexit _) _ => apply related_pexit
  | |- related _ _ (enqueue _ _) _ => apply related_enqueue
  | |- related _ _ (emit _) _ => apply related_emit
  | |- related _ _ alloc _ => apply related_alloc
  | |- related _ _ dequeue_packet _ => apply related_dequeue_packet
  | |- related _ _ (Main.supply_packet _) _ => apply agree_supply_packet
  | |- related _ _ (if ?c then _ else _) (if ?c then _ else _) => destruct c
  end.

Lemma decoder_loops_agree recv :
  related same_answers without_release
          (Main.decoder_loop recv) (Codec.decoder_loop recv true).
Proof.
  induction recv as [| [r fr] recv IH];
    cbn [Main.decoder_loop Codec.decoder_loop negb];
    repeat first [ apply IH | agree_step ].
  match goal with
  | |- related _ _ (if negb ?b then _ else _) _ => destruct b; cbn [negb]
  end.
  - apply IH.
  - rewrite codec_decoder_loop_null. apply related_pexit.
Qed.

(** The workers after [open_decoder]: what is left of main.c's
    [decoder_thread], and codec.c's. *)
Lemma decoder_bodies_agree recv :
  related same_answers without_release
    (ok <- alloc ;;
     if negb ok then pexit "av_frame_alloc failed" else
     Main.decoder_loop recv ;;
     enqueue frame_queue None ;; emit CodecClose ;; emit CodecFree ;; ret 0)
    (Codec.decoder_thread recv).
Proof.
  unfold Codec.decoder_thread.
  apply related_bind; [exact without_release_app | apply related_alloc |].
  intros [|]; cbn [negb].
  - apply related_bind; [exact without_release_app | apply decoder_loops_agree |].
    intros _.
    apply related_bind; [exact without_release_app | apply related_enqueue |]. intros _.
    apply related_bind; [exact without_release_app | apply related_emit |]. intros _.
    intros w. rewrite resend_same. repeat split. rewrite resend_same. reflexivity.
  - rewrite codec_decoder_loop_null. intros w. rewrite resend_same.
    repeat split. rewrite resend_same. reflexivity.
Qed.

Lemma open_decoder_quiet fc idx w :
  wp (Main.open_decoder fc idx) w
     (fun r _ t => match r with Ok _ => t = [] | Halt _ => True end).
Proof. unfold Main.open_decoder. wp_go; trivial. Qed.

Lemma enqueued_without_release q t :
  enqueued q (without_release t) = enqueued q t.
Proof.
  induction t as [| e t IH]; [reflexivity |].
  unfold without_release in *. cbn [filter].
  destruct (is_release e) eqn:E; cbn [negb].
  - rewrite IH. destruct e; try discriminate; reflexivity.
  - rewrite !enqueued_cons. f_equal. exact IH.
Qed.

Lemma dequeued_without_release t :
  dequeued (without_release t) = dequeued t.
Proof.
  induction t as [| e t IH]; [reflexivity |].
  unfold without_release in *. cbn [filter].
  destruct (is_release e) eqn:E; cbn [negb].
  - rewrite IH. destruct e; try discriminate; reflexivity.
  - rewrite !dequeued_cons. f_equal. exact IH.
Qed.

(** C10. Once main.c's [open_decoder] has succeeded, main.c's
    [decoder_thread] and codec.c's, given the same codec answers, packet
    queue and allocation results, end alike and put the same frames, then
    the same sentinel, on the frame queue, after taking the same packets:
    their traces differ in release events only ([av_packet_free] after each
    submission in codec.c, [avcodec_free_context] at the end in main.c). *)
Theorem decoder_threads_agree
  (fc : option AVFormatContext) (idx : Z)
  (recv : script AVFrame) (w w1 : World) (t0 : list event) :
  Main.open_decoder fc idx w = (Ok tt, w1, t0) ->
  let r0 := Main.decoder_thread fc idx recv w in
  let r1 := Codec.decoder_thread recv w1 in
  outcome r0 = outcome r1 /\
  final r0 = final r1 /\
  enqueued frame_queue (trace r0) = enqueued frame_queue (trace r1) /\
  dequeued (trace r0) = dequeued (trace r1) /\
  without_release (trace r0) = without_release (trace r1).
Proof.
  intros Hopen r0 r1. subst r0 r1.
  pose proof (open_decoder_quiet fc idx w) as Hq. unfold wp in Hq.
  rewrite Hopen in Hq. cbn [outcome trace fst snd] in Hq. subst t0.
  unfold Main.decoder_thread.
  rewrite (bind_ok _ _ _ _ _ _ Hopen). cbn [outcome final trace fst snd app].
  destruct (decoder_bodies_agree recv w1) as (Ho & Hw & Ht).
  rewrite resend_same in Ho, Hw, Ht. rewrite resend_same in Hw.
  split; [exact Ho |]. split; [exact Hw |].
  split; [| split; [| exact Ht]].
  - rewrite <- (enqueued_without_release frame_queue), Ht.
    apply enqueued_without_release.
  - rewrite <- dequeued_without_release, Ht. apply dequeued_without_release.
Qed.

(* ================================================================== *)
(** * Allocation failures in the encoder loop *)

Lemma nonfatal_status_tests r :
  fatal_submit_status r = false ->
  (r =? AVERROR EAGAIN) = false /\ (r =? AVERROR_EOF) = false
  /\ (r =? AVERROR EINVAL) = false /\ (r =? AVERROR ENOMEM) = false.
Proof.
  unfold fatal_submit_status. intros H.
  repeat (apply orb_false_iff in H; destruct H as [H ?]). auto.
Qed.

(** The two allocations before the submission are checked with [pexit]. *)
Lemma side_data_failure_fatal fr w rest :
  w_ptr w = false :: rest ->
  Codec.encode_frame fr w
  = (Halt (Exit EXIT_FAILURE), set_ptr rest w, [Perror "side data allocation failed"]).
Proof.
  intros Hp. unfold Codec.encode_frame, bind, alloc. rewrite Hp. reflexivity.
Qed.

Lemma descriptor_failure_fatal fr w rest :
  w_ptr w = true :: false :: rest ->
  outcome (Codec.encode_frame fr w) = Halt (Exit EXIT_FAILURE) /\
  trace (Codec.encode_frame fr w) = [Perror "malloc failed"].
Proof.
  intros Hp. destruct w as [ptr rt snd pk frs clk sdl jn rm]. cbn in Hp. subst ptr.
  destruct sdl; split; reflexivity.
Qed.

(** C7 at the lag time stamp.  When [malloc] fails for the time stamp of a
    submitted frame, [encoder_thread] reports through [perror], which
    returns, and then stores through the null pointer: the process is not
    ended with a failure status, and no lag entry follows the submission. *)
Theorem lag_timestamp_failure_not_fatal (fr : AVFrame) (w : World) (rest : list bool) :
  w_ptr w = true :: true :: false :: rest ->
  fatal_submit_status (fst (next_of 0 (w_send w))) = false ->
  let run := Codec.encode_frame fr w in
  outcome run = Halt (Undefined "*timestamp") /\
  reported (trace run) = ["malloc failed"] /\
  length (submitted (trace run)) = 1%nat /\
  lag_entries (trace run) = [].
Proof.
  intros Hp Hs run. subst run.
  destruct w as [ptr rt snd pk frs clk sdl jn rm]. cbn in Hp, Hs. subst ptr.
  unfold Codec.encode_frame, Codec.foveation_descriptor, Codec.supply_frame,
    avcodec_send_frame, send_result, Codec.sdl_query, av_gettime_relative,
    perror, enqueue, pexit, alloc, bind, emit, ret, stop.
  cbn [w_ptr w_send w_sdl w_clock set_ptr set_send set_sdl set_clock negb].
  destruct sdl as [| s sdl]; destruct snd as [| r snd]; cbn [next_of fst] in Hs;
    cbn [w_ptr w_send w_sdl w_clock set_ptr set_send set_sdl set_clock negb].
  all: try (destruct (nonfatal_status_tests _ Hs) as (E1 & E2 & E3 & E4);
            rewrite E1, E2, E3, E4).
  all: destruct clk; repeat split; reflexivity.
Qed.

(* ================================================================== *)
(** * The decoders and the encoder reach their sentinel *)

Lemma need_input_ok {A} (x : A) (s : script A) :
  need_input ((0, x) :: s) = need_input s.
Proof. reflexivity. Qed.

Lemma need_input_again {A} (x : A) (s : script A) :
  need_input ((AVERROR EAGAIN, x) :: s) = S (need_input s).
Proof. reflexivity. Qed.

Lemma ok_or_again_cons {A} r (x : A) (s : script A) :
  ok_or_again ((r, x) :: s) = true ->
  (r = 0 \/ r = AVERROR EAGAIN) /\ ok_or_again s = true.
Proof.
  unfold ok_or_again. cbn [forallb fst]. intros H.
  apply andb_true_iff in H. destruct H as [Hr Hs]. split; [| exact Hs].
  apply orb_true_iff in Hr. destruct Hr as [Hr | Hr]; apply Z.eqb_eq in Hr; auto.
Qed.

Lemma codec_decoder_loop_live fr rest pre :
  forall w, healthy w = true -> ok_or_again pre = true ->
    (need_input pre <= length (w_packets w))%nat ->
    wp (Codec.decoder_loop (pre ++ (AVERROR_EOF, fr) :: rest) true) w
       (fun r w' _ => r = Ok tt /\ healthy w' = true).
Proof.
  induction pre as [| [r x] pre IH]; intros w Hh Hok Hn;
    cbn [app Codec.decoder_loop negb].
  - change (AVERROR_EOF =? 0) with false.
    change (AVERROR_EOF =? AVERROR EAGAIN) with false.
    change (AVERROR_EOF =? AVERROR_EOF) with true. cbv iota.
    wp_live; split; [reflexivity | use_healthy].
  - destruct (ok_or_again_cons _ _ _ Hok) as ([-> | ->] & Hok').
    + rewrite need_input_ok in Hn. change (0 =? 0) with true. cbv iota.
      wp_live. apply IH; [use_healthy | exact Hok' | exact Hn].
    + rewrite need_input_again in Hn.
      change (AVERROR EAGAIN =? 0) with false.
      change (AVERROR EAGAIN =? AVERROR EAGAIN) with true. cbv iota.
      wp_live.
      * rewrite Hdeq in Hn. simpl in Hn. lia.
      * apply IH; [use_healthy | exact Hok' |].
        world_simpl. rewrite Hdeq in Hn. simpl in Hn. lia.
Qed.

Lemma main_decoder_loop_live fr rest pre :
  forall w, healthy w = true -> ok_or_again pre = true ->
    (need_input pre <= length (w_packets w))%nat ->
    wp (Main.decoder_loop (pre ++ (AVERROR_EOF, fr) :: rest)) w
       (fun r w' _ => r = Ok tt /\ healthy w' = true).
Proof.
  induction pre as [| [r x] pre IH]; intros w Hh Hok Hn;
    cbn [app Main.decoder_loop negb].
  - change (AVERROR_EOF =? 0) with false.
    change (AVERROR_EOF =? AVERROR EAGAIN) with false.
    change (AVERROR_EOF =? AVERROR_EOF) with true. cbv iota.
    wp_live; split; [reflexivity | use_healthy].
  - destruct (ok_or_again_cons _ _ _ Hok) as ([-> | ->] & Hok').
    + rewrite need_input_ok in Hn. change (0 =? 0) with true. cbv iota.
      wp_live. apply IH; [use_healthy | exact Hok' | exact Hn].
    + rewrite need_input_again in Hn.
      change (AVERROR EAGAIN =? 0) with false.
      change (AVERROR EAGAIN =? AVERROR EAGAIN) with true. cbv iota.
      wp_live.
      * rewrite Hdeq in Hn. simpl in Hn. lia.
      * apply IH; [use_healthy | exact Hok' |].
        world_simpl. rewrite Hdeq in Hn. simpl in Hn. lia.
Qed.

Lemma encode_frame_live fr w :
  healthy w = true ->
  wp (Codec.encode_frame fr) w
     (fun r w' _ => r = Ok tt /\ healthy w' = true /\ w_frames w' = w_frames w).
Proof.
  intros Hh. unfold Codec.encode_frame. wp_live.
  split; [reflexivity |]. split; [use_healthy | reflexivity].
Qed.

Lemma encoder_loop_live x rest more pre :
  forall fs w, healthy w = true ->
    w_frames w = map Some fs ++ None :: more ->
    ok_or_again pre = true -> need_input pre = length fs ->
    wp (Codec.encoder_loop (pre ++ (AVERROR EAGAIN, x) :: rest) true) w
       (fun r w' _ => r = Ok tt /\ healthy w' = true).
Proof.
  induction pre as [| [r y] pre IH]; intros fs w Hh Hfr Hok Hn;
    cbn [app Codec.encoder_loop negb].
  - change (AVERROR EAGAIN =? 0) with false.
    change (AVERROR EAGAIN =? AVERROR EAGAIN) with true. cbv iota.
    destruct fs as [| f0 fs]; [| discriminate]. cbn [map app] in Hfr.
    wp_live; try (split; [reflexivity | use_healthy]); rewrite Hfr in Hdeq; discriminate.
  - destruct (ok_or_again_cons _ _ _ Hok) as ([-> | ->] & Hok').
    + rewrite need_input_ok in Hn. change (0 =? 0) with true. cbv iota.
      wp_live. apply (IH fs); [use_healthy | exact Hfr | exact Hok' | exact Hn].
    + rewrite need_input_again in Hn.
      change (AVERROR EAGAIN =? 0) with false.
      change (AVERROR EAGAIN =? AVERROR EAGAIN) with true. cbv iota.
      destruct fs as [| f0 fs]; [discriminate |]. cbn [map app length] in Hfr, Hn.
      wp_live; try (rewrite Hfr in Hdeq; discriminate).
      rewrite Hfr in Hdeq. inversion Hdeq; subst.
      eapply wp_weaken; [apply encode_frame_live; use_healthy |]. cbv beta.
      intros r' w' t' (-> & Hh' & Hw').
      apply (IH fs); [exact Hh' | rewrite Hw'; reflexivity | exact Hok' | lia].
Qed.

Lemma codec_decoder_thread_live fr rest pre w :
  healthy w = true -> ok_or_again pre = true ->
  (need_input pre <= length (w_packets w))%nat ->
  outcome (Codec.decoder_thread (pre ++ (AVERROR_EOF, fr) :: rest) w) = Ok 0.
Proof.
  intros Hh Hok Hn.
  change (wp (Codec.decoder_thread (pre ++ (AVERROR_EOF, fr) :: rest)) w
            (fun r _ _ => r = Ok 0)).
  unfold Codec.decoder_thread. wp_live.
  eapply wp_weaken; [apply codec_decoder_loop_live; [use_healthy | exact Hok | exact Hn] |].
  cbv beta. intros r' w' t' (-> & Hh'). wp_live. reflexivity.
Qed.

Lemma has_stream_inv fc idx :
  has_stream fc idx = true ->
  exists c s, fc = Some c /\ (idx <? 0) = false /\
              nth_error (streams c) (Z.to_nat idx) = Some s.
Proof.
  destruct fc as [c |]; [| discriminate]. cbn [has_stream]. intros H.
  apply andb_true_iff in H. destruct H as [H1 H2].
  apply Z.leb_le in H1. apply Nat.ltb_lt in H2.
  destruct (nth_error (streams c) (Z.to_nat idx)) as [s |] eqn:E.
  - exists c, s. split; [reflexivity |]. split; [apply Z.ltb_ge; exact H1 | exact E].
  - apply nth_error_None in E. lia.
Qed.

Lemma main_decoder_thread_live fc idx fr rest pre w :
  has_stream fc idx = true ->
  healthy w = true -> ok_or_again pre = true ->
  (need_input pre <= length (w_packets w))%nat ->
  outcome (Main.decoder_thread fc idx (pre ++ (AVERROR_EOF, fr) :: rest) w) = Ok 0.
Proof.
  intros Hs Hh Hok Hn.
  destruct (has_stream_inv _ _ Hs) as (c & s & -> & E1 & E2).
  change (wp (Main.decoder_thread (Some c) idx (pre ++ (AVERROR_EOF, fr) :: rest)) w
            (fun r _ _ => r = Ok 0)).
  unfold Main.decoder_thread, Main.open_decoder. rewrite E1, E2. wp_live.
  eapply wp_weaken; [apply main_decoder_loop_live; [use_healthy | exact Hok | exact Hn] |].
  cbv beta. intros r' w' t' (-> & Hh'). wp_live. reflexivity.
Qed.

Lemma encoder_thread_live x rest more pre fs w :
  healthy w = true ->
  w_frames w = map Some fs ++ None :: more ->
  ok_or_again pre = true -> need_input pre = length fs ->
  outcome (Codec.encoder_thread (pre ++ (AVERROR EAGAIN, x) :: rest) w) = Ok 0.
Proof.
  intros Hh Hfr Hok Hn.
  change (wp (Codec.encoder_thread (pre ++ (AVERROR EAGAIN, x) :: rest)) w
            (fun r _ _ => r = Ok 0)).
  unfold Codec.encoder_thread. wp_live.
  eapply wp_weaken;
    [apply (encoder_loop_live x rest more pre fs);
     [use_healthy | exact Hfr | exact Hok | exact Hn] |].
  cbv beta. intros r' w' t' (-> & Hh'). wp_live. reflexivity.
Qed.

(** C3, as the code has it.  Each of the four workers puts payloads only
    on its downstream queue while its loop runs and closes the queue with
    one null sentinel, the last thing it enqueues, exactly when it returns:
    a worker that was ended, or that waits on a full queue, has enqueued no
    sentinel.  The reader returns only on end-of-stream; a decoder hands
    the sentinel it takes to its codec as the drain request and returns
    only on the codec's end-of-stream; the encoder, once it has taken the
    sentinel, is out of its loop: it has returned, or it waits for room to
    pass the sentinel on.  Input queues are consumed in order, so that on a
    queue its producer closed properly the sentinel is the last item taken.
    On a finite input, when no call fails and every downstream queue is
    drained ([healthy]), every worker does return: the reader once the
    demuxer answers end-of-stream, a decoder once its codec does (main.c's
    provided the container is still open and holds the selected stream),
    the encoder once the sentinel is the next item. *)
Theorem sentinel_once_and_last
  (r_ctx : Main.reader_context) (reads : script AVPacket)
  (fc : option AVFormatContext) (idx : Z)
  (recvf : script AVFrame) (recvp : script AVPacket) (w : World) :
  let reader := Main.reader_thread r_ctx reads w in
  let decoder0 := Main.decoder_thread fc idx recvf w in
  let decoder := Codec.decoder_thread recvf w in
  let encoder := Codec.encoder_thread recvp w in
  (sentinel_discipline packet_queue reader /\
   sentinel_discipline frame_queue decoder0 /\
   sentinel_discipline frame_queue decoder /\
   sentinel_discipline packet_queue encoder) /\
  (returned (outcome reader) = true -> answers_eof reads = true) /\
  ((returned (outcome decoder0) = true -> answers_eof recvf = true) /\
   (sentinel_taken (trace decoder0) = true -> drain_requested (trace decoder0) = true)) /\
  ((returned (outcome decoder) = true -> answers_eof recvf = true) /\
   (sentinel_taken (trace decoder) = true -> drain_requested (trace decoder) = true)) /\
  ((returned (outcome encoder) = true ->
    sentinel_taken (trace encoder) || answers_eof recvp = true) /\
   (sentinel_taken (trace encoder) = true ->
    outcome encoder = Ok 0 \/ outcome encoder = Halt Stalled)) /\
  (fifo_packets w decoder0 /\ fifo_packets w decoder /\ fifo_frames w encoder) /\
  (terminated_once true (map (option_map PPacket) (w_packets w)) ->
   (sentinel_taken (trace decoder0) = true -> drained_packets decoder0) /\
   (sentinel_taken (trace decoder) = true -> drained_packets decoder)) /\
  (terminated_once true (map (option_map PFrame) (w_frames w)) ->
   sentinel_taken (trace encoder) = true -> drained_frames encoder) /\
  (forall pre pkt rest,
     reads = pre ++ (AVERROR_EOF, pkt) :: rest ->
     healthy w = true -> delivers pre = true ->
     outcome reader = Ok 0) /\
  (forall pre fr rest,
     recvf = pre ++ (AVERROR_EOF, fr) :: rest ->
     healthy w = true -> ok_or_again pre = true ->
     (need_input pre <= length (w_packets w))%nat ->
     (has_stream fc idx = true -> outcome decoder0 = Ok 0) /\
     outcome decoder = Ok 0) /\
  (forall pre x rest fs more,
     recvp = pre ++ (AVERROR EAGAIN, x) :: rest ->
     healthy w = true -> w_frames w = map Some fs ++ None :: more ->
     ok_or_again pre = true -> need_input pre = length fs ->
     outcome encoder = Ok 0).
Proof.
  intros reader decoder0 decoder encoder.
  split; [repeat split |].
  { apply reader_thread_sentinel. }
  { apply main_decoder_thread_sentinel. }
  { apply codec_decoder_thread_sentinel. }
  { apply encoder_thread_sentinel. }
  split; [apply reader_thread_eof |].
  split; [apply main_decoder_thread_eof |].
  split; [apply codec_decoder_thread_eof |].
  split; [apply encoder_thread_eof |].
  pose proof (main_decoder_thread_fifo fc idx recvf w) as F0.
  pose proof (codec_decoder_thread_fifo recvf w) as F1.
  pose proof (encoder_thread_fifo recvp w) as F2.
  split; [auto |].
  split; [| split; [| split; [| split]]].
  - intros Hup. split; intros Ht.
    + pose proof (sentinel_is_last _ _ _ Hup F0 Ht) as E.
      apply map_eq_nil in E. exact E.
    + pose proof (sentinel_is_last _ _ _ Hup F1 Ht) as E.
      apply map_eq_nil in E. exact E.
  - intros Hup Ht.
    pose proof (sentinel_is_last _ _ _ Hup F2 Ht) as E.
    apply map_eq_nil in E. exact E.
  - intros pre pkt rest -> Hh Hpre.
    apply (reader_thread_live r_ctx pkt rest pre w Hh Hpre).
  - intros pre fr rest -> Hh Hok Hn. split.
    + intros Hs. apply main_decoder_thread_live; assumption.
    + apply codec_decoder_thread_live; assumption.
  - intros pre x rest fs more -> Hh Hfr Hok Hn.
    eapply encoder_thread_live; eassumption.
Qed.

(** C3 as stated fails.  A reader whose packet queue of capacity 32 has no
    consumer, which is how [main] starts it, stops for ever at the 33rd
    video packet of a finite file: it never returns and never enqueues a
    sentinel.  A reader whose second read fails ends the process with one
    packet on the queue and no sentinel. *)
Lemma sentinel_never_enqueued :
  (outcome stalled_reader = Halt Stalled /\
   length (enqueued packet_queue (trace stalled_reader)) = 32%nat /\
   existsb (fun d => is_null d) (enqueued packet_queue (trace stalled_reader)) = false) /\
  (outcome failed_reader = Halt (Exit EXIT_FAILURE) /\
   enqueued packet_queue (trace failed_reader) = [Some (PPacket (video_packet 1))]).
Proof. vm_compute. repeat split. Qed.


(* ================================================================== *)
(** * Concrete runs *)

Lemma reader_loop_cases_witness :
  Main.reader_thread video_reader sample_reads quiet_world
  = after (Enqueue packet_queue (Some (PPacket (video_packet 1))))
          (Main.reader_thread video_reader (tl sample_reads) quiet_world).
Proof.
  exact (proj1 (reader_loop_cases video_reader 0 (video_packet 1)
                  (tl sample_reads) [] [] quiet_world [] true [] eq_refl eq_refl)).
Defined.

Lemma sentinel_once_and_last_witness :
  outcome (Main.reader_thread video_reader sample_reads quiet_world) = Ok 0.
Proof.
  pose proof (sentinel_once_and_last video_reader sample_reads (Some two_streams) 0
                sample_decoding sample_encoding quiet_world) as H.
  cbv zeta in H.
  destruct H as (_ & _ & _ & _ & _ & _ & _ & _ & Hreader & _).
  exact (Hreader [(0, video_packet 1); (0, audio_packet 2); (0, video_packet 3)]
                 blank_packet [] eq_refl eq_refl eq_refl).
Defined.

Lemma unknown_submit_status_is_success_witness :
  Codec.supply_frame (picture 1) (set_send [AVERROR EIO] quiet_world)
  = (Ok tt, quiet_world, [SendFrame (picture 1) (AVERROR EIO)]).
Proof.
  exact (proj2 (proj2 (proj1
    (unknown_submit_status_is_success (AVERROR EIO) [] None (picture 1)
       (set_send [AVERROR EIO] quiet_world) eq_refl eq_refl)))).
Defined.

Lemma decoder_threads_agree_witness :
  enqueued frame_queue
    (trace (Main.decoder_thread (Some two_streams) 0 sample_decoding
              (set_packets [Some (video_packet 1); Some (video_packet 3); None]
                 quiet_world)))
  = enqueued frame_queue
      (trace (Codec.decoder_thread sample_decoding
                (set_packets [Some (video_packet 1); Some (video_packet 3); None]
                   quiet_world))).
Proof.
  exact (proj1 (proj2 (proj2
    (decoder_threads_agree (Some two_streams) 0 sample_decoding
       (set_packets [Some (video_packet 1); Some (video_packet 3); None] quiet_world)
       (set_packets [Some (video_packet 1); Some (video_packet 3); None] quiet_world)
       [] eq_refl)))).
Defined.

Lemma lag_timestamp_failure_not_fatal_witness :
  outcome (Codec.encode_frame (picture 1) (set_ptr [true; true; false] quiet_world))
  = Halt (Undefined "*timestamp").
Proof.
  exact (proj1 (lag_timestamp_failure_not_fatal (picture 1)
                  (set_ptr [true; true; false] quiet_world) [] eq_refl eq_refl)).
Defined.

(** The sample file through the reader, the source decoder and the encoder,
    each worker fed what the one before it enqueued. *)
Example sample_reader_run :
  enqueued packet_queue (trace (Main.reader_thread video_reader sample_reads quiet_world))
  = [Some (PPacket (video_packet 1)); Some (PPacket (video_packet 3)); None].
Proof. reflexivity. Qed.

Example sample_decoder_run :
  let run := Codec.decoder_thread sample_decoding
               (set_packets [Some (video_packet 1); Some (video_packet 3); None]
                  quiet_world) in
  outcome run = Ok 0 /\
  enqueued frame_queue (trace run)
  = [Some (PFrame (picture 1)); Some (PFrame (picture 3)); None] /\
  w_packets (final run) = [].
Proof. repeat split. Qed.

Example sample_encoder_run :
  let run := Codec.encoder_thread sample_encoding
               (set_clock [100; 200]
                  (set_frames [Some (picture 1); Some (picture 3); None] quiet_world)) in
  outcome run = Ok 0 /\
  map frame_id (submitted (trace run)) = [1; 3] /\
  forallb carries_descriptor (submitted (trace run)) = true /\
  lag_entries (trace run) = [Some (PTime 100); Some (PTime 200)] /\
  enqueued packet_queue (trace run)
  = [Some (PPacket (video_packet 10)); Some (PPacket (video_packet 30)); None].
Proof. repeat split. Qed.

(* ================================================================== *)
(** * The gaze provider: single-precision arithmetic *)

Lemma digits2_bounds p :
  2 ^ (Zpos (digits2_pos p) - 1) <= Zpos p < 2 ^ Zpos (digits2_pos p).
Proof.
  induction p as [p IH | p IH |]; cbn [digits2_pos].
  - rewrite Pos2Z.inj_succ.
    replace (Z.succ (Zpos (digits2_pos p)) - 1) with (Z.succ (Zpos (digits2_pos p) - 1)) by lia.
    rewrite !Z.pow_succ_r by lia. lia.
  - rewrite Pos2Z.inj_succ.
    replace (Z.succ (Zpos (digits2_pos p)) - 1) with (Z.succ (Zpos (digits2_pos p) - 1)) by lia.
    rewrite !Z.pow_succ_r by lia. lia.
  - cbn. lia.
Qed.

Lemma digits2_unique p n :
  2 ^ (n - 1) <= Zpos p < 2 ^ n -> Zpos (digits2_pos p) = n.
Proof.
  intros [Hlo Hhi]. pose proof (digits2_bounds p) as [Dlo Dhi].
  assert (0 < n).
  { destruct (Z_lt_le_dec 0 n); [assumption |].
    exfalso. destruct (Z.eq_dec n 0) as [-> | ?].
    - cbn in Hhi. lia.
    - rewrite Z.pow_neg_r in Hhi by lia. lia. }
  assert (n - 1 < Zpos (digits2_pos p)).
  { apply (Z.pow_lt_mono_r_iff 2); lia. }
  assert (Zpos (digits2_pos p) - 1 < n).
  { apply (Z.pow_lt_mono_r_iff 2); lia. }
  lia.
Qed.

Lemma shr_1_spec m r s :
  0 <= m -> shr_1 (Build_shr_record m r s) = Build_shr_record (m / 2) (Z.odd m) (r || s).
Proof.
  intros Hm. destruct m as [| p | p]; [reflexivity | | lia].
  destruct p as [p | p |]; cbn [shr_1].
  - f_equal. rewrite Pos2Z.inj_xI. apply Z.div_unique with 1; lia.
  - f_equal. rewrite Pos2Z.inj_xO. apply Z.div_unique with 0; lia.
  - reflexivity.
Qed.

Lemma bra_unfold sx mx ex lx :
  binary_round_aux prec32 emax32 sx mx ex lx =
  let r1 := shr_fexp prec32 emax32 mx ex lx in
  let r2 := shr_fexp prec32 emax32
              (round_nearest_even (shr_m (fst r1)) (loc_of_shr_record (fst r1)))
              (snd r1) loc_Exact in
  match shr_m (fst r2) with
  | Z0 => S754_zero sx
  | Zpos m => if snd r2 <=? emax32 - prec32 then S754_finite sx m (snd r2)
              else S754_infinity sx
  | Zneg _ => S754_nan
  end.
Proof.
  unfold binary_round_aux.
  destruct (shr_fexp prec32 emax32 mx ex lx) as [m1 e1]. cbn [fst snd].
  destruct (shr_fexp prec32 emax32 _ e1 loc_Exact) as [m2 e2]. reflexivity.
Qed.

(** With [d] digits in the mantissa and the exponent far from the subnormal
    range, [shr_fexp] shifts by [d - 24]. *)
Lemma shr_fexp_digits m e l d lo hi :
  lo = 2 ^ (d - 1) -> hi = 2 ^ d ->
  lo <= m < hi -> 0 < m -> -149 <= d + e - 24 ->
  shr_fexp prec32 emax32 m e l = shr (shr_record_of_loc m l) e (d - 24).
Proof.
  intros -> -> Hm Hpos He. unfold shr_fexp. f_equal.
  destruct m as [| p | p]; try lia. cbn [Zdigits2].
  rewrite (digits2_unique p d Hm).
  unfold fexp, emin, prec32, emax32. lia.
Qed.

Lemma loc_of_record_of_loc m l : loc_of_shr_record (shr_record_of_loc m l) = l.
Proof. destruct l as [| []]; reflexivity. Qed.

Lemma shr_m_record_of_loc m l : shr_m (shr_record_of_loc m l) = m.
Proof. destruct l as [| []]; reflexivity. Qed.

Lemma rne_bounds q l : q <= round_nearest_even q l <= q + 1.
Proof.
  destruct l as [| []]; cbn [round_nearest_even]; try lia.
  destruct (Z.even q); lia.
Qed.

(** The second rounding stage, on a mantissa that the first stage left
    with 24 digits or pushed to [2^24]. *)
Lemma second_stage m0 e :
  8388608 <= m0 <= 16777216 -> -149 <= e <= 103 ->
  exists m e',
    (let r2 := shr_fexp prec32 emax32 m0 e loc_Exact in
     match shr_m (fst r2) with
     | Z0 => S754_zero false
     | Zpos m => if snd r2 <=? emax32 - prec32 then S754_finite false m (snd r2)
                 else S754_infinity false
     | Zneg _ => S754_nan
     end) = S754_finite false m e' /\
    ((m0 < 16777216 /\ Zpos m = m0 /\ e' = e) \/
     (m0 = 16777216 /\ Zpos m = 8388608 /\ e' = e + 1)).
Proof.
  intros Hm He.
  destruct (Z_lt_le_dec m0 16777216) as [Hlt | Hge].
  - rewrite (shr_fexp_digits m0 e loc_Exact 24 8388608 16777216 eq_refl eq_refl) by lia.
    change (24 - 24) with 0.
    cbn [shr shr_record_of_loc fst snd shr_m].
    destruct m0 as [| p | p]; try lia.
    exists p, e. split; [| left; auto].
    unfold emax32, prec32.
    destruct (Z.leb_spec e (128 - 24)); [reflexivity | lia].
  - assert (m0 = 16777216) by lia. subst m0.
    rewrite (shr_fexp_digits 16777216 e loc_Exact 25 16777216 33554432 eq_refl eq_refl) by lia.
    exists 8388608%positive, (e + 1). split; [| right; auto].
    change (25 - 24) with 1.
    cbn [shr shr_record_of_loc fst snd shr_m iter_pos shr_1].
    unfold emax32, prec32.
    destruct (Z.leb_spec (e + 1) (128 - 24)); [reflexivity | lia].
Qed.

Lemma shr_1_loc q l :
  0 <= q ->
  exists r s, shr_1 (shr_record_of_loc q l) = Build_shr_record (q / 2) r s /\
              (l = loc_Exact -> Z.odd q = false -> r = false /\ s = false).
Proof.
  intros Hq. destruct l as [| []]; cbn [shr_record_of_loc]; rewrite shr_1_spec by exact Hq;
    eexists; eexists; (split; [reflexivity |]); intros Hl Ho; try discriminate.
  rewrite Ho. split; reflexivity.
Qed.

(** Rounding a quotient of 24 or 25 digits. *)
Lemma bra_div q ex lx :
  8388608 <= q < 33554432 -> -149 <= ex <= 100 ->
  exists m e,
    binary_round_aux prec32 emax32 false q ex lx = S754_finite false m e /\
    8388608 <= Zpos m < 16777216 /\
    ((q < 16777216 /\ (e = ex \/ (e = ex + 1 /\ Zpos m = 8388608))) \/
     (16777216 <= q /\ (e = ex + 1 \/ (e = ex + 2 /\ Zpos m = 8388608)))) /\
    (q = 16777216 -> lx = loc_Exact -> e = ex + 1 /\ Zpos m = 8388608).
Proof.
  intros Hq He. rewrite bra_unfold. cbv zeta.
  destruct (Z_lt_le_dec q 16777216) as [Hlt | Hge].
  - rewrite (shr_fexp_digits q ex lx 24 8388608 16777216 eq_refl eq_refl) by lia.
    change (24 - 24) with 0. cbn [shr fst snd].
    rewrite shr_m_record_of_loc, loc_of_record_of_loc.
    pose proof (rne_bounds q lx) as Hr.
    destruct (second_stage (round_nearest_even q lx) ex) as (m & e' & Heq & Hc);
      [lia | lia |].
    cbv zeta in Heq. exists m, e'. split; [exact Heq |].
    split; [lia |]. split; [left; lia | lia].
  - rewrite (shr_fexp_digits q ex lx 25 16777216 33554432 eq_refl eq_refl) by lia.
    change (25 - 24) with 1. cbn [shr fst snd iter_pos].
    destruct (shr_1_loc q lx) as (r & s & Hs & Hexact); [lia |].
    rewrite Hs. cbn [shr_m].
    set (l1 := loc_of_shr_record _).
    pose proof (rne_bounds (q / 2) l1) as Hr.
    assert (Hq2 : 8388608 <= q / 2 < 16777216).
    { split; [apply Z.div_le_lower_bound; lia | apply Z.div_lt_upper_bound; lia]. }
    destruct (second_stage (round_nearest_even (q / 2) l1) (ex + 1)) as (m & e' & Heq & Hc);
      [lia | lia |].
    cbv zeta in Heq. exists m, e'. split; [exact Heq |].
    split; [lia |]. split; [right; lia |].
    intros -> ->. destruct (Hexact eq_refl eq_refl) as [-> ->].
    subst l1. cbn in Hr, Hc. cbn in Heq. lia.
Qed.

Lemma div_normal_le_one m1 e1 m2 e2 :
  normal32 m1 e1 -> normal32 m2 e2 ->
  (e1 < e2 \/ (e1 = e2 /\ Zpos m1 <= Zpos m2)) ->
  exists m e,
    float_div (S754_finite false m1 e1) (S754_finite false m2 e2)
    = S754_finite false m e /\
    (e < -23 \/ (e = -23 /\ m = 8388608%positive)).
Proof.
  intros [Hm1 He1] [Hm2 He2] Hle.
  unfold float_div, SFdiv. cbn [xorb].
  unfold SFdiv_core_binary. cbn [Zdigits2].
  rewrite (digits2_unique m1 24) by (change (2 ^ (24 - 1)) with 8388608;
                                     change (2 ^ 24) with 16777216; lia).
  rewrite (digits2_unique m2 24) by (change (2 ^ (24 - 1)) with 8388608;
                                     change (2 ^ 24) with 16777216; lia).
  assert (Hfexp : Z.min (fexp prec32 emax32 (24 + e1 - (24 + e2))) (e1 - e2)
                  = e1 - e2 - 24).
  { unfold fexp, emin, prec32, emax32. lia. }
  rewrite Hfexp.
  replace (e1 - e2 - (e1 - e2 - 24)) with 24 by lia.
  rewrite Z.shiftl_mul_pow2 by lia. change (2 ^ 24) with 16777216.
  pose proof (Z.div_eucl_eq (Zpos m1 * 16777216) (Zpos m2) ltac:(lia)) as Hdiv.
  pose proof (Z.mod_pos_bound (Zpos m1 * 16777216) (Zpos m2) ltac:(lia)) as Hmod.
  unfold Z.modulo in Hmod.
  destruct (Z.div_eucl (Zpos m1 * 16777216) (Zpos m2)) as [q r].
  assert (Hq : 8388608 <= q < 33554432) by nia.
  destruct (bra_div q (e1 - e2 - 24) (new_location (Zpos m2) r) Hq) as
    (m & e & Heq & Hm & Hcase & Hexact); [lia |].
  exists m, e. split; [exact Heq |].
  destruct Hle as [Hlt | [-> Hmle]].
  - assert (e <= -23 /\ (e = -23 -> Zpos m = 8388608)) as [? ?] by lia.
    destruct (Z.eq_dec e (-23)); [right | left; lia].
    split; [assumption |]. apply Pos2Z.inj. auto.
  - destruct (Z.eq_dec (Zpos m1) (Zpos m2)) as [E | NE].
    + assert (q = 16777216) by nia. assert (r = 0) by nia. subst q r.
      assert (Hloc : new_location (Zpos m2) 0 = loc_Exact).
      { unfold new_location, new_location_even, new_location_odd.
        destruct (Z.even (Zpos m2)); reflexivity. }
      destruct (Hexact eq_refl Hloc) as [-> Hm']. right.
      split; [lia | apply Pos2Z.inj; exact Hm'].
    + assert (q < 16777216) by nia.
      assert (e = -24 \/ (e = -23 /\ Zpos m = 8388608)) as [-> | [-> Hm']] by lia.
      * left. lia.
      * right. split; [reflexivity | apply Pos2Z.inj; exact Hm'].
Qed.

Lemma iter_pos_nat {A} (f : A -> A) p :
  forall x, iter_pos f p x = Nat.iter (Pos.to_nat p) f x.
Proof.
  induction p as [p IH | p IH |]; intros x; cbn [iter_pos].
  - rewrite !IH, Pos2Nat.inj_xI.
    replace (S (2 * Pos.to_nat p)) with (Pos.to_nat p + Pos.to_nat p + 1)%nat by lia.
    rewrite !Nat.iter_add. reflexivity.
  - rewrite !IH, Pos2Nat.inj_xO.
    replace (2 * Pos.to_nat p)%nat with (Pos.to_nat p + Pos.to_nat p)%nat by lia.
    rewrite Nat.iter_add. reflexivity.
  - reflexivity.
Qed.

Lemma sticky_step m j :
  0 <= m -> 0 <= j ->
  negb (m mod 2 ^ (j + 1) =? 0) = Z.odd (m / 2 ^ j) || negb (m mod 2 ^ j =? 0).
Proof.
  intros Hm Hj.
  assert (Hp : 0 < 2 ^ j) by (apply Z.pow_pos_nonneg; lia).
  rewrite Z.pow_add_r by lia. change (2 ^ 1) with 2.
  rewrite Z.rem_mul_r by lia.
  pose proof (Z.mod_pos_bound m (2 ^ j) Hp) as Hl.
  rewrite (Zmod_odd (m / 2 ^ j)).
  destruct (Z.odd (m / 2 ^ j)); cbn [orb].
  - destruct (Z.eqb_spec (m mod 2 ^ j + 2 ^ j * 1) 0); [lia | reflexivity].
  - rewrite Z.mul_0_r, Z.add_0_r. reflexivity.
Qed.

Lemma shr_iter (j : nat) m :
  0 <= m ->
  Nat.iter (S j) shr_1 (Build_shr_record m false false)
  = Build_shr_record (m / 2 ^ Z.of_nat j / 2) (Z.odd (m / 2 ^ Z.of_nat j))
                     (negb (m mod 2 ^ Z.of_nat j =? 0)).
Proof.
  intros Hm. induction j as [| j IH].
  - cbn [Nat.iter]. rewrite shr_1_spec by exact Hm.
    change (2 ^ Z.of_nat 0) with 1. rewrite Z.div_1_r, Z.mod_1_r. reflexivity.
  - change (Nat.iter (S (S j)) shr_1 ?x) with (shr_1 (Nat.iter (S j) shr_1 x)).
    rewrite IH.
    assert (Hp : 0 < 2 ^ Z.of_nat j) by (apply Z.pow_pos_nonneg; lia).
    assert (Hu : 0 <= m / 2 ^ Z.of_nat j) by (apply Z.div_pos; lia).
    rewrite shr_1_spec by (apply Z.div_pos; lia).
    replace (Z.of_nat (S j)) with (Z.of_nat j + 1) by lia.
    assert (Hdd : m / 2 ^ Z.of_nat j / 2 = m / 2 ^ (Z.of_nat j + 1)).
    { rewrite Z.pow_add_r by lia. change (2 ^ 1) with 2.
      rewrite Z.div_div by lia. reflexivity. }
    rewrite sticky_step by lia. rewrite <- Hdd. reflexivity.
Qed.

Lemma rne_int_round m j :
  round_nearest_even (m / 2 ^ j / 2)
    (loc_of_shr_record
       (Build_shr_record (m / 2 ^ j / 2) (Z.odd (m / 2 ^ j)) (negb (m mod 2 ^ j =? 0))))
  = rne_int j m.
Proof.
  unfold rne_int. cbv zeta. cbn [loc_of_shr_record].
  destruct (Z.odd (m / 2 ^ j)); destruct (negb (m mod 2 ^ j =? 0));
    cbn [round_nearest_even andb orb]; try reflexivity.
  rewrite <- Z.negb_odd. destruct (Z.odd (m / 2 ^ j / 2)); reflexivity.
Qed.

Lemma rne_int_bounds j n : n / 2 ^ j / 2 <= rne_int j n <= n / 2 ^ j / 2 + 1.
Proof. unfold rne_int. cbv zeta. destruct (_ && _); lia. Qed.

Lemma rne_int_mono j a b :
  0 <= j -> 0 <= a <= b -> rne_int j a <= rne_int j b.
Proof.
  intros Hj Hab.
  assert (Hp : 0 < 2 ^ j) by (apply Z.pow_pos_nonneg; lia).
  pose proof (Z.div_le_mono a b (2 ^ j) Hp ltac:(lia)) as Hu.
  pose proof (Z.div_mod a (2 ^ j) ltac:(lia)) as Ea.
  pose proof (Z.div_mod b (2 ^ j) ltac:(lia)) as Eb.
  pose proof (Z.mod_pos_bound a (2 ^ j) Hp) as La.
  pose proof (Z.mod_pos_bound b (2 ^ j) Hp) as Lb.
  unfold rne_int. cbv zeta.
  set (u := a / 2 ^ j) in *. set (v := b / 2 ^ j) in *.
  set (la := a mod 2 ^ j) in *. set (lb := b mod 2 ^ j) in *.
  destruct (Z.eq_dec u v) as [E | NE].
  - rewrite <- E in *. assert (la <= lb) by lia.
    destruct (Z.odd u); cbn [andb]; [| lia].
    destruct (Z.odd (u / 2)); rewrite ?orb_true_r; [lia |].
    rewrite !orb_false_r.
    destruct (Z.eqb_spec la 0); destruct (Z.eqb_spec lb 0); cbn [negb]; lia.
  - assert (Hlt : u < v) by lia.
    pose proof (Zmod_odd u) as Ou.
    assert (Hq : u / 2 <= v / 2) by (apply Z.div_le_mono; lia).
    destruct (Z.odd u); cbn [andb].
    + assert (u / 2 + 1 <= v / 2) by (Z.div_mod_to_equations; lia).
      destruct (_ || _); destruct (_ && _); lia.
    + destruct (_ && _); lia.
Qed.

Lemma iter_xO_pow p k : Zpos (Pos.iter xO p k) = Zpos p * 2 ^ Zpos k.
Proof.
  change (Pos.iter xO p k) with (shift_pos k p).
  rewrite shift_pos_correct. change (Z.pow_pos 2 k) with (2 ^ Zpos k). lia.
Qed.

Lemma pow_split a b : 0 <= a -> 0 <= b -> 2 ^ (a + b) = 2 ^ a * 2 ^ b.
Proof. intros. apply Z.pow_add_r; assumption. Qed.

(** What the conversion of a positive [int] yields, by number of digits. *)
Lemma float_of_int_spec p :
  Zpos p < 2147483648 ->
  let n := Zpos p in
  let d := Zpos (digits2_pos p) in
  exists m e,
    float_of_int n = S754_finite false m e /\
    normal32 m e /\
    ((d <= 24 /\ e = d - 24 /\ Zpos m = n * 2 ^ (24 - d)) \/
     (24 < d /\ rne_int (d - 25) n < 16777216 /\ e = d - 24 /\
      Zpos m = rne_int (d - 25) n) \/
     (24 < d /\ rne_int (d - 25) n = 16777216 /\ e = d - 23 /\ Zpos m = 8388608)).
Proof.
  intros Hn n d.
  pose proof (digits2_bounds p) as Hd. fold d in Hd. fold n in Hd.
  assert (Hd1 : 1 <= d) by (subst d; lia).
  assert (Hd31 : d <= 31).
  { assert (d - 1 < 31); [| lia].
    apply (Z.pow_lt_mono_r_iff 2); [lia | lia |].
    change (2 ^ 31) with 2147483648. lia. }
  unfold float_of_int, binary_normalize. fold n. subst n.
  unfold binary_round. change (Zpos (digits2_pos p)) with d.
  assert (Hfexp : fexp prec32 emax32 (d + 0) = d - 24).
  { unfold fexp, emin, prec32, emax32. lia. }
  rewrite Hfexp. unfold shl_align. rewrite Z.sub_0_r.
  destruct (Z_le_gt_dec d 24) as [Hsmall | Hbig].
  - (* at most 24 digits: exact *)
    assert (Hmz : exists mz, (match d - 24 with
                              | Zneg k => (Pos.iter xO p k, d - 24)
                              | _ => (p, 0)
                              end) = (mz, d - 24) /\
                             Zpos mz = Zpos p * 2 ^ (24 - d)).
    { destruct (d - 24) as [| k | k] eqn:Ek; try lia.
      - exists p. split; [reflexivity |].
        replace (24 - d) with 0 by lia. lia.
      - exists (Pos.iter xO p k). split; [reflexivity |].
        rewrite iter_xO_pow. f_equal. f_equal. lia. }
    destruct Hmz as (mz & -> & Hmz).
    assert (Hmzb : 8388608 <= Zpos mz < 16777216).
    { rewrite Hmz.
      assert (E1 : 2 ^ (d - 1) * 2 ^ (24 - d) = 8388608).
      { rewrite <- pow_split by lia. replace (d - 1 + (24 - d)) with 23 by lia.
        reflexivity. }
      assert (E2 : 2 ^ d * 2 ^ (24 - d) = 16777216).
      { rewrite <- pow_split by lia. replace (d + (24 - d)) with 24 by lia.
        reflexivity. }
      assert (0 < 2 ^ (24 - d)) by (apply Z.pow_pos_nonneg; lia).
      nia. }
    rewrite bra_unfold. cbv zeta.
    rewrite (shr_fexp_digits (Zpos mz) (d - 24) loc_Exact 24 8388608 16777216
               eq_refl eq_refl) by lia.
    change (24 - 24) with 0. cbn [shr fst snd shr_record_of_loc shr_m loc_of_shr_record
                                  round_nearest_even].
    destruct (second_stage (Zpos mz) (d - 24)) as (m & e' & Heq & Hc); [lia | lia |].
    cbv zeta in Heq. exists m, e'. split; [exact Heq |].
    destruct Hc as [(_ & Hm & ->) | (? & _)]; [| lia].
    split; [split; lia |]. left. split; [lia |]. split; [reflexivity | lia].
  - (* more than 24 digits: rounded *)
    destruct (d - 24) as [| k | k] eqn:Ek; try lia.
    rewrite bra_unfold. cbv zeta.
    rewrite (shr_fexp_digits (Zpos p) 0 loc_Exact d (2 ^ (d - 1)) (2 ^ d)
               eq_refl eq_refl) by lia.
    rewrite Ek. cbn [shr fst snd shr_record_of_loc].
    rewrite iter_pos_nat.
    assert (Hk : Pos.to_nat k = S (Z.to_nat (d - 25))) by lia.
    rewrite Hk, shr_iter by lia.
    rewrite Z2Nat.id by lia. cbn [shr_m]. rewrite rne_int_round.
    pose proof (rne_int_bounds (d - 25) (Zpos p)) as Hr.
    assert (Hp25 : 0 < 2 ^ (d - 25)) by (apply Z.pow_pos_nonneg; lia).
    assert (Hq : 8388608 <= Zpos p / 2 ^ (d - 25) / 2 < 16777216).
    { rewrite Z.div_div by lia.
      assert (E1 : 2 ^ (d - 1) = 8388608 * (2 ^ (d - 25) * 2)).
      { replace (d - 1) with (23 + (d - 25) + 1) by lia.
        rewrite !pow_split by lia. change (2 ^ 23) with 8388608.
        change (2 ^ 1) with 2. lia. }
      assert (E2 : 2 ^ d = 16777216 * (2 ^ (d - 25) * 2)).
      { replace d with (24 + (d - 25) + 1) at 1 by lia.
        rewrite !pow_split by lia. change (2 ^ 24) with 16777216.
        change (2 ^ 1) with 2. lia. }
      split.
      - apply Z.div_le_lower_bound; lia.
      - apply Z.div_lt_upper_bound; lia. }
    destruct (second_stage (rne_int (d - 25) (Zpos p)) (0 + Zpos k))
      as (m & e' & Heq & Hc); [lia | lia |].
    cbv zeta in Heq. exists m, e'. split; [exact Heq |].
    destruct Hc as [(Hlt & Hm & ->) | (Heq24 & Hm & ->)].
    + split; [split; lia |]. right. left. repeat split; lia.
    + split; [split; lia |]. right. right. repeat split; lia.
Qed.

Lemma digits_mono p q :
  Zpos p <= Zpos q -> Zpos (digits2_pos p) <= Zpos (digits2_pos q).
Proof.
  intros H. pose proof (digits2_bounds p) as Hp. pose proof (digits2_bounds q) as Hq.
  assert (Zpos (digits2_pos p) - 1 < Zpos (digits2_pos q)); [| lia].
  apply (Z.pow_lt_mono_r_iff 2); lia.
Qed.

(** Conversion is monotone: exponents first, then mantissas. *)
Lemma float_of_int_mono p q :
  Zpos p <= Zpos q -> Zpos q < 2147483648 ->
  exists m1 e1 m2 e2,
    float_of_int (Zpos p) = S754_finite false m1 e1 /\
    float_of_int (Zpos q) = S754_finite false m2 e2 /\
    normal32 m1 e1 /\ normal32 m2 e2 /\
    (e1 < e2 \/ (e1 = e2 /\ Zpos m1 <= Zpos m2)).
Proof.
  intros Hpq Hq.
  destruct (float_of_int_spec p ltac:(lia)) as (m1 & e1 & F1 & N1 & C1).
  destruct (float_of_int_spec q Hq) as (m2 & e2 & F2 & N2 & C2).
  exists m1, e1, m2, e2. repeat (split; [assumption |]).
  pose proof (digits_mono p q Hpq) as Hd.
  set (d1 := Zpos (digits2_pos p)) in *. set (d2 := Zpos (digits2_pos q)) in *.
  destruct N1 as [Hm1 He1]. destruct N2 as [Hm2 He2].
  destruct (Z.eq_dec d1 d2) as [E | NE].
  - rewrite <- E in *.
    destruct C1 as [(? & -> & M1) | [(? & R1 & -> & M1) | (? & R1 & -> & M1)]];
      destruct C2 as [(? & -> & M2) | [(? & R2 & -> & M2) | (? & R2 & -> & M2)]];
      try lia.
    + right. split; [reflexivity |]. rewrite M1, M2.
      apply Z.mul_le_mono_nonneg_r; [apply Z.pow_nonneg; lia | exact Hpq].
    + right. split; [reflexivity |]. rewrite M1, M2.
      apply rne_int_mono; lia.
    + exfalso.
      pose proof (rne_int_mono (d1 - 25) (Zpos p) (Zpos q) ltac:(lia) ltac:(lia)). lia.
  - assert (d1 < d2) by lia.
    destruct C1 as [(? & -> & M1) | [(? & R1 & -> & M1) | (? & R1 & -> & M1)]];
      destruct C2 as [(? & -> & M2) | [(? & R2 & -> & M2) | (? & R2 & -> & M2)]];
      lia.
Qed.

Lemma float_one_eq : float_one = S754_finite false 8388608 (-23).
Proof. reflexivity. Qed.

(** The quotient of two converted [int]s [0 <= a <= b], [0 < b], lies
    between 0 and 1. *)
Theorem ratio_in_unit_interval a b :
  0 <= a <= b -> 0 < b < 2147483648 ->
  float_le float_zero (float_div (float_of_int a) (float_of_int b)) = true /\
  float_le (float_div (float_of_int a) (float_of_int b)) float_one = true.
Proof.
  intros Hab Hb.
  destruct b as [| q | q]; try lia.
  destruct a as [| p | p]; try lia.
  - destruct (float_of_int_spec q ltac:(lia)) as (m2 & e2 & F2 & _).
    rewrite F2. split; reflexivity.
  - destruct (float_of_int_mono p q ltac:(lia) ltac:(lia))
      as (m1 & e1 & m2 & e2 & F1 & F2 & N1 & N2 & Hle).
    rewrite F1, F2.
    destruct (div_normal_le_one m1 e1 m2 e2 N1 N2 Hle) as (m & e & Hdiv & Hres).
    rewrite Hdiv, float_one_eq. split; [reflexivity |].
    unfold float_le, SFleb, SFcompare.
    destruct Hres as [Hlt | [-> ->]].
    + rewrite (proj2 (Z.compare_lt_iff e (-23)) Hlt). reflexivity.
    + reflexivity.
Qed.

(** C6. Without eye tracking, a call of [foveation_descriptor] whose
    [malloc] succeeds returns the block
    [(mx / W, my / H, 0.3, 20)] computed in single precision from the
    pointer position and the window size SDL reports: the third component
    is the [float] nearest to 0.3 and the fourth is exactly 20.  When the
    pointer is inside the window, both quotients lie between 0 and 1. *)
Theorem fallback_gaze_descriptor
  (w : World) (s : sdl_sample) (sdl : list sdl_sample) (ptrs : list bool) :
  next_of (mkSdl 0 0 0 0) (w_sdl w) = (s, sdl) ->
  next_of true (w_ptr w) = (true, ptrs) ->
  exists d w',
    Codec.foveation_descriptor w = (Ok d, w', []) /\
    d_fx d = float_div (float_of_int (ptr_x s)) (float_of_int (win_w s)) /\
    d_fy d = float_div (float_of_int (ptr_y s)) (float_of_int (win_h s)) /\
    nearest32 (d_sigma d) 3 10 = true /\
    nearest32 (d_offset d) 20 1 = true /\
    (pointer_inside s ->
     in_unit_interval (d_fx d) = true /\ in_unit_interval (d_fy d) = true).
Proof.
  intros Hsdl Hptr.
  assert (Hq : Codec.sdl_query w = (Ok s, set_sdl sdl w, [])).
  { unfold Codec.sdl_query. destruct (w_sdl w) as [| s' l] eqn:E; simpl in Hsdl;
      inversion Hsdl; subst; [| reflexivity].
    unfold set_sdl. rewrite <- E, <- world_eta. reflexivity. }
  assert (Ha : alloc (set_sdl sdl w) = (Ok true, set_ptr ptrs (set_sdl sdl w), [])).
  { apply alloc_next. exact Hptr. }
  eexists. eexists. split.
  - unfold Codec.foveation_descriptor, bind. rewrite Hq, Ha. cbn [negb ret].
    reflexivity.
  - cbn [d_fx d_fy d_sigma d_offset]. repeat (split; [reflexivity |]).
    intros (Hx & Hy & Hw & Hh). unfold in_unit_interval, INT_MAX in *.
    destruct (ratio_in_unit_interval (ptr_x s) (win_w s)) as [-> ->]; [lia | lia |].
    destruct (ratio_in_unit_interval (ptr_y s) (win_h s)) as [-> ->]; [lia | lia |].
    split; reflexivity.
Qed.

Lemma fallback_gaze_descriptor_witness :
  exists d w',
    Codec.foveation_descriptor (set_sdl [mkSdl 640 480 320 120] quiet_world)
    = (Ok d, w', []) /\
    d_fx d = S754_finite false 8388608 (-24) /\
    d_fy d = S754_finite false 8388608 (-25) /\
    in_unit_interval (d_fx d) = true /\ in_unit_interval (d_fy d) = true.
Proof.
  destruct (fallback_gaze_descriptor (set_sdl [mkSdl 640 480 320 120] quiet_world)
              (mkSdl 640 480 320 120) [] [] eq_refl eq_refl)
    as (d & w' & Hrun & Hfx & Hfy & _ & _ & Hin).
  exists d, w'. split; [exact Hrun |].
  split; [rewrite Hfx; reflexivity |]. split; [rewrite Hfy; reflexivity |].
  apply Hin. unfold pointer_inside, INT_MAX. cbn. lia.
Defined.

(* ================================================================== *)
(** * What the stages forward *)

Lemma yielded_cons {A} r (x : A) s :
  yielded ((r, x) :: s) = (if r =? 0 then [x] else []) ++ yielded s.
Proof. unfold yielded. cbn [filter fst]. destruct (r =? 0); reflexivity. Qed.

Section Forwarding.

Context {A : Type}.
Variable wrap : A -> payload.
Variable q : queue_field.
Variable last_ok : Z -> list event -> Prop.

(** Nothing read, nothing forwarded. *)
Lemma forwards_stop (recv : script A) t :
  enqueued q t = [] -> forwards wrap q last_ok [] recv false t.
Proof.
  intros Ht. exists [], recv. rewrite Ht. repeat split. discriminate.
Qed.

(** The answer at which the stage leaves its loop. *)
Lemma forwards_last s x (recv : script A) t :
  last_ok s t -> (s =? 0) = false -> enqueued q t = [] ->
  forwards wrap q last_ok [] ((s, x) :: recv) true t.
Proof.
  intros Hl Hs Ht. exists [(s, x)], recv. split; [reflexivity |].
  rewrite yielded_cons, Hs, Ht. split; [reflexivity |].
  intros _. exists [], s, x. repeat split. exact Hl.
Qed.

(** One more answer read before the rest of the run. *)
Lemma forwards_cons s x (recv : script A) ret t t' :
  forwards wrap q last_ok [] recv ret t' ->
  (s =? AVERROR_EOF) = false ->
  enqueued q t = (if s =? 0 then [Some (wrap x)] else []) ++ enqueued q t' ->
  (forall s0, last_ok s0 t' -> last_ok s0 t) ->
  forwards wrap q last_ok [] ((s, x) :: recv) ret t.
Proof.
  intros (used & rest & -> & Ht' & Hret) Hs Ht Hmono.
  exists ((s, x) :: used), rest. split; [reflexivity |]. split.
  - rewrite Ht, Ht', yielded_cons, !app_nil_r, map_app.
    destruct (s =? 0); reflexivity.
  - intros Hr. destruct (Hret Hr) as (pre & s0 & x0 & -> & Hpre & Hl).
    exists ((s, x) :: pre), s0, x0. split; [reflexivity |]. split.
    + rewrite answers_eof_cons, Hs, Hpre. reflexivity.
    + apply Hmono. exact Hl.
Qed.

(** Closing the queue after the loop. *)
Lemma forwards_close (recv : script A) ret t t' c :
  forwards wrap q last_ok [] recv ret t' ->
  enqueued q t = enqueued q t' ++ c ->
  (forall s0, last_ok s0 t' -> last_ok s0 t) ->
  forwards wrap q last_ok c recv ret t.
Proof.
  intros (used & rest & -> & Ht' & Hret) Ht Hmono.
  exists used, rest. split; [reflexivity |]. split.
  - rewrite Ht, Ht', app_nil_r. reflexivity.
  - intros Hr. destruct (Hret Hr) as (pre & s0 & x0 & -> & Hpre & Hl).
    exists pre, s0, x0. auto.
Qed.

(** A stage that left its loop and waits for room to close the queue. *)
Lemma forwards_cut (recv : script A) ret t t' :
  forwards wrap q last_ok [] recv ret t' ->
  enqueued q t = enqueued q t' ->
  forwards wrap q last_ok [] recv false t.
Proof.
  intros (used & rest & -> & Ht' & Hret) Ht.
  exists used, rest. split; [reflexivity |]. split.
  - rewrite Ht, Ht'. reflexivity.
  - discriminate.
Qed.

(** One answer read, after which the run was cut short. *)
Lemma forwards_one s x (recv : script A) t :
  (s =? AVERROR_EOF) = false ->
  enqueued q t = (if s =? 0 then [Some (wrap x)] else []) ->
  forwards wrap q last_ok [] ((s, x) :: recv) false t.
Proof.
  intros Hs Ht. exists [(s, x)], recv. split; [reflexivity |]. split.
  - rewrite Ht, yielded_cons, app_nil_r. destruct (s =? 0); reflexivity.
  - discriminate.
Qed.

End Forwarding.

Lemma eof_not_ok s : (s =? AVERROR_EOF) = true -> (s =? 0) = false.
Proof. intros H. apply Z.eqb_eq in H. subst s. reflexivity. Qed.

Lemma again_not_ok s : (s =? AVERROR EAGAIN) = true -> (s =? 0) = false.
Proof. intros H. apply Z.eqb_eq in H. subst s. reflexivity. Qed.

Lemma ok_not_eof s : (s =? 0) = true -> (s =? AVERROR_EOF) = false.
Proof. intros H. apply Z.eqb_eq in H. subst s. reflexivity. Qed.

Lemma again_not_eof s : (s =? AVERROR EAGAIN) = true -> (s =? AVERROR_EOF) = false.
Proof. intros H. apply Z.eqb_eq in H. subst s. reflexivity. Qed.

Ltac not_eof :=
  first [ assumption | apply ok_not_eof; assumption | apply again_not_eof; assumption ].

Ltac solve_enq :=
  solve [ norm_enqueued; rewrite ?enqueued_app;
          repeat match goal with
                 | H : (_ =? 0) = _ |- _ => rewrite H
                 | H : enqueued _ _ = [] |- _ => rewrite H
                 end;
          cbn [app]; reflexivity ].

(** The cases of a loop body that do not depend on the stage. *)
Ltac forwards_base :=
  first
    [ apply forwards_stop; solve_enq
    | apply forwards_one; [not_eof | solve_enq]
    | apply forwards_last;
      [ apply Z.eqb_eq; assumption | apply eof_not_ok; assumption | solve_enq ] ].

Ltac forwards_rec IH :=
  by_loop IH; intros Hrec; eapply forwards_cons;
  [ exact Hrec | not_eof | solve_enq | unfold at_eof; auto ].

Lemma main_decoder_loop_forwards recv :
  forall w, wp (Main.decoder_loop recv) w
               (fun r _ t => forwards PFrame frame_queue at_eof [] recv (returned r) t).
Proof.
  induction recv as [| [s f] recv IH]; intros w; simpl Main.decoder_loop.
  - wp_go. forwards_base.
  - wp_go; cbn [returned]; first [ forwards_rec IH | forwards_base ].
Qed.

Lemma codec_decoder_loop_forwards recv :
  forall frame w, wp (Codec.decoder_loop recv frame) w
               (fun r _ t => forwards PFrame frame_queue at_eof [] recv (returned r) t).
Proof.
  induction recv as [| [s f] recv IH]; intros frame w; simpl Codec.decoder_loop.
  - wp_go; forwards_base.
  - wp_go; cbn [returned]; first [ forwards_rec IH | forwards_base ].
Qed.

Lemma at_sentinel_app s t t' :
  at_eof_or_sentinel s t' -> at_eof_or_sentinel s (t ++ t').
Proof.
  intros [H | [H1 H2]]; [left; exact H | right]. split; [exact H1 |].
  rewrite sentinel_taken_app, H2. apply orb_true_r.
Qed.

Lemma at_sentinel_app_l s t t' :
  at_eof_or_sentinel s t -> at_eof_or_sentinel s (t ++ t').
Proof.
  intros [H | [H1 H2]]; [left; exact H | right]. split; [exact H1 |].
  rewrite sentinel_taken_app, H2. reflexivity.
Qed.

Lemma encoder_loop_forwards recv :
  forall packet w, wp (Codec.encoder_loop recv packet) w
     (fun r _ t =>
        forwards PPacket packet_queue at_eof_or_sentinel [] recv (returned r) t).
Proof.
  induction recv as [| [s p] recv IH]; intros packet w; simpl Codec.encoder_loop.
  - wp_go; forwards_base.
  - wp_go; cbn [returned]; try forwards_base.
    + by_loop IH. intros Hrec. eapply forwards_cons;
        [ exact Hrec | not_eof | solve_enq |].
      intros s0. apply (at_sentinel_app s0 [_]).
    + eapply wp_weaken; [apply encode_frame_items |]. cbv beta.
      intros [[] | h] w1 t1 Ht1.
      * by_loop IH. intros Hrec. eapply forwards_cons;
          [ exact Hrec | not_eof | solve_enq |].
        intros s0 Hs0. apply (at_sentinel_app s0 (_ :: t1)). exact Hs0.
      * cbn [returned]. forwards_base.
    + apply forwards_last; [| apply again_not_ok; assumption | reflexivity].
      right. split; [apply Z.eqb_eq; assumption | reflexivity].
    + apply forwards_last; [| apply eof_not_ok; assumption | reflexivity].
      left. apply Z.eqb_eq. assumption.
    + by_loop IH. intros Hrec. eapply forwards_cons;
        [ exact Hrec | not_eof | solve_enq | auto ].
Qed.

(** X1. Each decoder worker ([decoder_thread] of codec.c and of main.c)
    puts on its frame queue exactly the frames its codec delivered with
    status 0, in the order of delivery and each once, among the answers it
    read; it adds the null sentinel exactly when it returns, and it returns
    at the first end-of-stream answer of the codec. *)
Theorem decoders_forward_decoded_frames
  (fc : option AVFormatContext) (idx : Z) (recv : script AVFrame) (w : World) :
  forwards_frames recv (Codec.decoder_thread recv w) /\
  forwards_frames recv (Main.decoder_thread fc idx recv w).
Proof.
  split.
  - change (wp (Codec.decoder_thread recv) w
              (fun r _ t => forwards PFrame frame_queue at_eof (closing (returned r))
                                     recv (returned r) t)).
    unfold Codec.decoder_thread. wp_step. wp_step. wp_step.
    eapply wp_weaken; [apply codec_decoder_loop_forwards |]. cbv beta.
    intros [[] | h] w1 t1 Ht1.
    + wp_go; cbn [returned closing] in *;
        first [ eapply forwards_close; [ exact Ht1 | solve_enq | auto ]
              | eapply forwards_cut; [ exact Ht1 | solve_enq ] ].
    + cbn [returned closing] in *. eapply forwards_close;
        [ exact Ht1 | solve_enq | auto ].
  - change (wp (Main.decoder_thread fc idx recv) w
              (fun r _ t => forwards PFrame frame_queue at_eof (closing (returned r))
                                     recv (returned r) t)).
    unfold Main.decoder_thread.
    wp_go; cbn [returned closing]; try forwards_base.
    eapply wp_weaken; [apply main_decoder_loop_forwards |]. cbv beta.
    intros [[] | h] w1 t1 Ht1.
    + wp_go; cbn [returned closing] in *;
        first [ eapply forwards_close; [ exact Ht1 | solve_enq | auto ]
              | eapply forwards_cut; [ exact Ht1 | solve_enq ] ].
    + cbn [returned closing] in *. eapply forwards_close;
        [ exact Ht1 | solve_enq | auto ].
Qed.

(** X2. The encoder worker puts on its packet queue exactly the packets its
    codec delivered with status 0, in the order of delivery and each once,
    among the answers it read; it adds the null sentinel exactly when it
    returns, and it returns at the first end-of-stream answer or at the
    NEED_INPUT answer at which it took the sentinel from its frame queue:
    answers the codec would give after that point are never read. *)
Theorem encoder_forwards_encoded_packets (recv : script AVPacket) (w : World) :
  forwards_packets recv (Codec.encoder_thread recv w).
Proof.
  change (wp (Codec.encoder_thread recv) w
            (fun r _ t => forwards PPacket packet_queue at_eof_or_sentinel
                                   (closing (returned r)) recv (returned r) t)).
  unfold Codec.encoder_thread. wp_step. wp_step. wp_step.
  eapply wp_weaken; [apply encoder_loop_forwards |]. cbv beta.
  intros [[] | h] w1 t1 Ht1.
  - wp_go; cbn [returned closing] in *;
      first [ eapply forwards_cut; [ exact Ht1 | solve_enq ]
            | eapply forwards_close; [ exact Ht1 | solve_enq |];
              intros s0 Hs0; cbn [app]; apply at_sentinel_app_l; exact Hs0 ].
  - cbn [returned closing] in *. eapply forwards_close;
      [ exact Ht1 | solve_enq | ].
    intros s0 Hs0. cbn [app]. exact Hs0.
Qed.

(* ================================================================== *)
(** * Ownership of packets and frames *)

Ltac norm_owned :=
  unfold dequeued, sent_packets, released_packets, released_frames, submitted in *;
  cbn [app flat_map deq_one map] in *.

Ltac held := solve [ cbn; first [reflexivity | lia] ].

Lemma codec_decoder_loop_owns recv :
  forall frame w, wp (Codec.decoder_loop recv frame) w
     (fun r _ t =>
        dequeued t = map (option_map PPacket) (sent_packets t) /\
        exists pend, sent_packets t = released_packets t ++ pend /\ held_back r pend).
Proof.
  induction recv as [| [s f] recv IH]; intros frame w; simpl Codec.decoder_loop.
  - wp_go; norm_owned; (split; [reflexivity | exists []; split; held]).
  - wp_go;
      first
        [ by_loop IH; intros (H1 & pend & H2 & H3); norm_owned;
          (split; [rewrite ?H1; reflexivity
                  | exists pend; split; [rewrite ?H2; reflexivity | exact H3]])
        | norm_owned;
          (split; [reflexivity
                  | first [ exists []; split; held
                          | eexists; split; [reflexivity | held] ] ]) ].
Qed.

(** Every packet the decoder worker of codec.c takes is handed to the
    codec. *)
Lemma codec_decoder_thread_submits recv w :
  let t := trace (Codec.decoder_thread recv w) in
  dequeued t = map (option_map PPacket) (sent_packets t).
Proof.
  change (wp (Codec.decoder_thread recv) w
     (fun _ _ t => dequeued t = map (option_map PPacket) (sent_packets t))).
  unfold Codec.decoder_thread. wp_step. wp_step. wp_step.
  eapply wp_weaken; [apply codec_decoder_loop_owns |]. cbv beta.
  intros [[] | h] w1 t1 (H1 & _).
  - wp_go; cbn [app]; unfold dequeued, sent_packets in *;
      rewrite !flat_map_app; cbn [flat_map app]; rewrite !app_nil_r; exact H1.
  - cbn [app]. exact H1.
Qed.

(** X3. The decoder worker of codec.c hands every packet it takes from its
    packet queue to the codec, the null sentinel included, in the order
    taken, and releases every packet it submitted, once and in the same
    order; only a run that the refusal of a packet ended holds one packet
    that was submitted and not released. *)
Theorem decoder_releases_what_it_submits (recv : script AVFrame) (w : World) :
  let t := trace (Codec.decoder_thread recv w) in
  dequeued t = map (option_map PPacket) (sent_packets t) /\
  exists pend,
    sent_packets t = released_packets t ++ pend /\
    held_back (outcome (Codec.decoder_thread recv w)) pend.
Proof.
  change (wp (Codec.decoder_thread recv) w
     (fun r _ t =>
        dequeued t = map (option_map PPacket) (sent_packets t) /\
        exists pend, sent_packets t = released_packets t ++ pend /\ held_back r pend)).
  unfold Codec.decoder_thread. wp_step. wp_step. wp_step.
  eapply wp_weaken; [apply codec_decoder_loop_owns |]. cbv beta.
  intros [[] | h] w1 t1 (H1 & pend & H2 & H3).
  - wp_go; cbn [app]; unfold dequeued, sent_packets, released_packets in *;
      rewrite !flat_map_app; cbn [flat_map app]; rewrite !app_nil_r;
      (split; [exact H1 |]); exists pend; (split; [exact H2 | exact H3]).
  - cbn [app]. split; [exact H1 |]. exists pend. split; [exact H2 | exact H3].
Qed.

Lemma encode_frame_owns f w :
  wp (Codec.encode_frame f) w
     (fun r _ t => exists pend,
        submitted t = released_frames t ++ pend /\ held_back r pend).
Proof.
  unfold Codec.encode_frame. wp_go; norm_owned;
    first [ exists []; split; held | eexists; split; [reflexivity | held] ].
Qed.

Lemma submitted_app t1 t2 : submitted (t1 ++ t2) = submitted t1 ++ submitted t2.
Proof. unfold submitted. apply flat_map_app. Qed.

Lemma released_frames_app t1 t2 :
  released_frames (t1 ++ t2) = released_frames t1 ++ released_frames t2.
Proof. unfold released_frames. apply flat_map_app. Qed.

Lemma encoder_loop_owns recv :
  forall packet w, wp (Codec.encoder_loop recv packet) w
     (fun r _ t => exists pend,
        submitted t = released_frames t ++ pend /\ held_back r pend).
Proof.
  induction recv as [| [s p] recv IH]; intros packet w; simpl Codec.encoder_loop.
  - wp_go; norm_owned; exists []; split; held.
  - wp_go;
      try first
        [ by_loop IH; intros (pend & H2 & H3); norm_owned;
          exists pend; split; [rewrite ?H2; reflexivity | exact H3]
        | norm_owned; exists []; split; held ].
    eapply wp_weaken; [apply encode_frame_owns |]. cbv beta.
    intros [[] | h] w1 t1 (pend1 & H1 & Hp1).
    + cbn in Hp1. subst pend1. rewrite app_nil_r in H1.
      by_loop IH. intros (pend & H2 & H3). exists pend. split; [| exact H3].
      cbn [app]. change (Dequeue frame_queue (option_map PFrame (Some a)) :: t1 ++ t)
        with ([Dequeue frame_queue (option_map PFrame (Some a))] ++ t1 ++ t).
      rewrite !submitted_app, !released_frames_app, H1, H2.
      cbn [submitted released_frames flat_map app]. rewrite app_assoc. reflexivity.
    + exists pend1. split; [| exact Hp1].
      change (submitted t1 = released_frames t1 ++ pend1). exact H1.
Qed.

(** X4. The encoder worker releases every frame it submitted to the codec,
    once and in the order of submission (the annotated frame itself); only
    a run that the refusal of a frame ended holds one frame that was
    submitted and not released. *)
Theorem encoder_releases_what_it_submits (recv : script AVPacket) (w : World) :
  let r := Codec.encoder_thread recv w in
  exists pend,
    submitted (trace r) = released_frames (trace r) ++ pend /\
    held_back (outcome r) pend.
Proof.
  change (wp (Codec.encoder_thread recv) w
     (fun r _ t => exists pend,
        submitted t = released_frames t ++ pend /\ held_back r pend)).
  unfold Codec.encoder_thread. wp_step. wp_step. wp_step.
  eapply wp_weaken; [apply encoder_loop_owns |]. cbv beta.
  intros [[] | h] w1 t1 (pend & H2 & H3).
  - wp_go; cbn [app]; rewrite !submitted_app, !released_frames_app;
      cbn [submitted released_frames flat_map app]; rewrite !app_nil_r;
      exists pend; (split; [exact H2 | exact H3]).
  - cbn [app]. exists pend. split; [exact H2 | exact H3].
Qed.

(* ================================================================== *)
(** * Receive statuses the loops do not name *)

Lemma unnamed_status_tests r :
  named_receive_status r = false ->
  (r =? 0) = false /\ (r =? AVERROR EAGAIN) = false /\
  (r =? AVERROR_EOF) = false /\ (r =? AVERROR EINVAL) = false.
Proof.
  unfold named_receive_status. intros H.
  repeat (apply orb_false_iff in H; destruct H as [H ?]). auto.
Qed.

Lemma unnamed_answers_cons {A} r (x : A) s :
  unnamed_answers ((r, x) :: s) = true ->
  named_receive_status r = false /\ unnamed_answers s = true.
Proof.
  unfold unnamed_answers. cbn [forallb fst]. intros H.
  apply andb_true_iff in H. destruct H as [H1 H2].
  apply negb_true_iff in H1. auto.
Qed.

Lemma main_decoder_loop_skips junk recv :
  unnamed_answers junk = true ->
  Main.decoder_loop (junk ++ recv) = Main.decoder_loop recv.
Proof.
  induction junk as [| [r f] junk IH]; intros H; [reflexivity |].
  apply unnamed_answers_cons in H. destruct H as [Hr H].
  destruct (unnamed_status_tests r Hr) as (E1 & E2 & E3 & E4).
  cbn [app Main.decoder_loop]. rewrite E1, E2, E3, E4. apply IH. exact H.
Qed.

Lemma codec_decoder_loop_skips junk recv frame :
  unnamed_answers junk = true ->
  Codec.decoder_loop (junk ++ recv) frame = Codec.decoder_loop recv frame.
Proof.
  induction junk as [| [r f] junk IH]; intros H; [reflexivity |].
  apply unnamed_answers_cons in H. destruct H as [Hr H].
  destruct (unnamed_status_tests r Hr) as (E1 & E2 & E3 & E4).
  cbn [app Codec.decoder_loop]. rewrite E1, E2, E3, E4.
  rewrite (IH H). destruct frame; cbn [negb]; [reflexivity |].
  destruct recv as [| [r' f'] recv]; reflexivity.
Qed.

Lemma encoder_loop_skips junk recv packet :
  unnamed_answers junk = true ->
  Codec.encoder_loop (junk ++ recv) packet = Codec.encoder_loop recv packet.
Proof.
  induction junk as [| [r f] junk IH]; intros H; [reflexivity |].
  apply unnamed_answers_cons in H. destruct H as [Hr H].
  destruct (unnamed_status_tests r Hr) as (E1 & E2 & E3 & E4).
  cbn [app Codec.encoder_loop]. rewrite E1, E2, E3, E4.
  rewrite (IH H). destruct packet; cbn [negb]; [reflexivity |].
  destruct recv as [| [r' f'] recv]; reflexivity.
Qed.

(** X6. A receive status that is none of 0, [AVERROR(EAGAIN)],
    [AVERROR_EOF] and [AVERROR(EINVAL)] (for instance [AVERROR(ENOMEM)]) is
    not an error for any of the three codec workers: the loop asks the codec
    again at once, and the run is in every respect (result, calls made,
    trace) the run without those answers. *)
Theorem unnamed_receive_status_is_skipped
  (fc : option AVFormatContext) (idx : Z)
  (junk recv : script AVFrame) (junk' recv' : script AVPacket) (w : World) :
  unnamed_answers junk = true -> unnamed_answers junk' = true ->
  Codec.decoder_thread (junk ++ recv) w = Codec.decoder_thread recv w /\
  Main.decoder_thread fc idx (junk ++ recv) w = Main.decoder_thread fc idx recv w /\
  Codec.encoder_thread (junk' ++ recv') w = Codec.encoder_thread recv' w.
Proof.
  intros H H'. split; [| split].
  - unfold Codec.decoder_thread, bind.
    destruct (alloc w) as [[[frame | h] w1] t1]; [| reflexivity].
    rewrite codec_decoder_loop_skips by exact H. reflexivity.
  - unfold Main.decoder_thread.
    rewrite main_decoder_loop_skips by exact H. reflexivity.
  - unfold Codec.encoder_thread, bind.
    destruct (alloc w) as [[[packet | h] w1] t1]; [| reflexivity].
    rewrite encoder_loop_skips by exact H'. reflexivity.
Qed.

Lemma unnamed_receive_status_is_skipped_witness :
  Codec.decoder_thread ((AVERROR ENOMEM, picture 0) :: sample_decoding) quiet_world
  = Codec.decoder_thread sample_decoding quiet_world /\
  Main.decoder_thread (Some two_streams) 0
    ((AVERROR ENOMEM, picture 0) :: sample_decoding) quiet_world
  = Main.decoder_thread (Some two_streams) 0 sample_decoding quiet_world /\
  Codec.encoder_thread ((AVERROR EIO, blank_packet) :: sample_encoding) quiet_world
  = Codec.encoder_thread sample_encoding quiet_world.
Proof.
  exact (unnamed_receive_status_is_skipped (Some two_streams) 0
           [(AVERROR ENOMEM, picture 0)] sample_decoding
           [(AVERROR EIO, blank_packet)] sample_encoding quiet_world
           eq_refl eq_refl).
Defined.

(* ================================================================== *)
(** * The lag side channel *)

Lemma readings_length n : forall clock, List.length (readings n clock) = n.
Proof. induction n as [| n IH]; intros clock; cbn; [| rewrite IH]; reflexivity. Qed.

Lemma lag_entries_app t1 t2 : lag_entries (t1 ++ t2) = lag_entries t1 ++ lag_entries t2.
Proof. apply enqueued_app. Qed.

Lemma encode_frame_stamp f w :
  wp (Codec.encode_frame f) w
     (fun r w' t =>
        match r with
        | Ok _ => lag_entries t = [Some (PTime (fst (next_of 0 (w_clock w))))] /\
                  w_clock w' = snd (next_of 0 (w_clock w))
        | Halt _ => lag_entries t = []
        end).
Proof.
  unfold Codec.encode_frame. wp_go; try reflexivity.
  world_simpl.
  match goal with H : next_of 0 (w_clock w) = _ |- _ => rewrite H end.
  split; reflexivity.
Qed.

Lemma encoder_loop_stamps recv :
  forall packet w, wp (Codec.encoder_loop recv packet) w
     (fun _ _ t => exists n,
        lag_entries t = map (fun x => Some (PTime x)) (readings n (w_clock w))).
Proof.
  induction recv as [| [s p] recv IH]; intros packet w; simpl Codec.encoder_loop.
  - wp_go; exists 0%nat; reflexivity.
  - wp_go;
      try first
        [ by_loop IH; intros (n & Hn); exists n; world_simpl; exact Hn
        | exists 0%nat; reflexivity ].
    eapply wp_weaken; [apply encode_frame_stamp |]. cbv beta.
    intros [[] | h] w1 t1 Ht1; world_simpl.
    + destruct Ht1 as (Ht1 & Hw1).
      by_loop IH. intros (n & Hn). exists (S n).
      cbn [app]. unfold lag_entries in *.
      rewrite enqueued_cons, enqueued_app, Ht1, Hn, Hw1. reflexivity.
    + exists 0%nat. cbn [app]. unfold lag_entries in *.
      rewrite enqueued_cons, Ht1. reflexivity.
Qed.

(** X7. The entries the encoder worker puts on its lag queue are, in order,
    the successive readings of [av_gettime_relative], one reading per entry
    and none skipped: the i-th entry is the i-th reading of the clock. *)
Theorem lag_entries_are_clock_readings (recv : script AVPacket) (w : World) :
  let t := trace (Codec.encoder_thread recv w) in
  lag_entries t
  = map (fun x => Some (PTime x))
        (readings (List.length (lag_entries t)) (w_clock w)).
Proof.
  assert (H : exists n, lag_entries (trace (Codec.encoder_thread recv w))
                        = map (fun x => Some (PTime x)) (readings n (w_clock w))).
  { change (wp (Codec.encoder_thread recv) w
       (fun _ _ t => exists n,
          lag_entries t = map (fun x => Some (PTime x)) (readings n (w_clock w)))).
    unfold Codec.encoder_thread. wp_step. wp_step. wp_step.
    eapply wp_weaken; [apply encoder_loop_stamps |]. cbv beta.
    intros [[] | h] w1 t1 (n & Hn); world_simpl.
    - wp_go; exists n; cbn [app]; rewrite lag_entries_app, Hn, app_nil_r; reflexivity.
    - exists n. exact Hn. }
  destruct H as (n & Hn). cbv zeta. rewrite Hn at 2.
  rewrite length_map, readings_length. exact Hn.
Qed.

(* ================================================================== *)
(** * The reader's packet containers *)

Lemma next_of_nonempty {A} (d b : A) l l' :
  (0 < List.length l)%nat -> next_of d l = (b, l') -> l = b :: l'.
Proof.
  destruct l as [| x l0]; cbn; intros Hl H; [lia |]. inversion H. reflexivity.
Qed.

Ltac norm_kept :=
  unfold kept_packets, released_packets;
  cbn [app flat_map List.length]; rewrite ?flat_map_app, ?length_app;
  cbn [app flat_map List.length].

Lemma out_of_memory_app t1 t2 :
  out_of_memory (t1 ++ t2) = out_of_memory t1 || out_of_memory t2.
Proof.
  unfold out_of_memory, reported. rewrite flat_map_app. apply existsb_app.
Qed.

Lemma out_of_memory_cons e t :
  out_of_memory (e :: t) = out_of_memory [e] || out_of_memory t.
Proof. apply (out_of_memory_app [e] t). Qed.

Ltac known_pointer :=
  repeat match goal with
         | H : negb ?b = _ |- _ => destruct b; try discriminate H; clear H
         end.

Lemma reader_loop_containers r_ctx reads :
  forall w, (List.length reads < List.length (w_ptr w))%nat ->
    wp (Main.reader_loop r_ctx reads) w
       (fun _ w' t =>
          (successes (w_ptr w)
           = successes (w_ptr w') + List.length (kept_packets t)
             + List.length (released_packets t)
             + (if out_of_memory t then 0 else 1))%nat).
Proof.
  induction reads as [| [s p] reads IH]; intros w Hlen; simpl Main.reader_loop.
  - wp_go; world_simpl; known_pointer;
      match goal with H : next_of true (w_ptr w) = _ |- _ =>
        apply next_of_nonempty in H; [rewrite H | lia] end;
      unfold successes; cbn; lia.
  - cbn [List.length] in Hlen.
    wp_go; world_simpl; known_pointer;
      match goal with H : next_of true (w_ptr w) = _ |- _ =>
        apply next_of_nonempty in H; [rewrite H in * | lia] end;
      cbn [List.length] in Hlen;
      first
        [ eapply wp_weaken;
          [ apply IH; world_simpl; lia | cbv beta; intros ? w' t Hrec ];
          world_simpl; cbn [app]; rewrite out_of_memory_cons;
          cbn [out_of_memory reported flat_map app existsb orb];
          norm_kept;
          fold (kept_packets t) (released_packets t);
          unfold successes in *; cbn [filter List.length] in *; lia
        | unfold successes; cbn; lia ].
Qed.

(** X8. In every run of [reader_thread] the packet containers [malloc]
    handed out are those the worker passed downstream or released, and one
    more: each iteration allocates a fresh container, and the container of
    the last iteration (on a run that returns, the one the end-of-stream
    read was given) is neither enqueued nor released.  Only a run that a
    failed [malloc] ended leaves no container behind. *)
Theorem reader_leaves_one_container
  (r_ctx : Main.reader_context) (reads : script AVPacket) (w : World) :
  (List.length reads < List.length (w_ptr w))%nat ->
  let r := Main.reader_thread r_ctx reads w in
  allocated w (final r)
  = (List.length (kept_packets (trace r))
     + List.length (released_packets (trace r))
     + (if out_of_memory (trace r) then 0 else 1))%nat.
Proof.
  intros Hlen.
  change (wp (Main.reader_thread r_ctx reads) w
            (fun _ w' t =>
               allocated w w'
               = (List.length (kept_packets t)
                  + List.length (released_packets t)
                  + (if out_of_memory t then 0 else 1))%nat)).
  unfold Main.reader_thread. wp_step.
  eapply wp_weaken; [apply reader_loop_containers; exact Hlen |]. cbv beta.
  intros [[] | h] w1 t1 Ht1; unfold allocated.
  - wp_go; world_simpl; rewrite out_of_memory_app;
      cbn [out_of_memory reported flat_map app existsb]; rewrite orb_false_r;
      norm_kept; fold (kept_packets t1) (released_packets t1); lia.
  - lia.
Qed.

Lemma reader_leaves_one_container_witness :
  allocated (set_ptr (repeat true 5) quiet_world)
    (final (Main.reader_thread video_reader sample_reads
              (set_ptr (repeat true 5) quiet_world)))
  = (List.length (kept_packets (trace (Main.reader_thread video_reader sample_reads
                                         (set_ptr (repeat true 5) quiet_world))))
     + List.length (released_packets (trace (Main.reader_thread video_reader sample_reads
                                         (set_ptr (repeat true 5) quiet_world))))
     + (if out_of_memory (trace (Main.reader_thread video_reader sample_reads
                                   (set_ptr (repeat true 5) quiet_world)))
        then 0 else 1))%nat.
Proof.
  apply (reader_leaves_one_container video_reader sample_reads
           (set_ptr (repeat true 5) quiet_world)).
  cbn. lia.
Defined.

(* ================================================================== *)
(** * Stages in a row: reader and source decoder *)

Lemma packets_out_app t1 t2 : packets_out (t1 ++ t2) = packets_out t1 ++ packets_out t2.
Proof. unfold packets_out. apply flat_map_app. Qed.

Lemma reader_loop_output r_ctx reads :
  forall w, wp (Main.reader_loop r_ctx reads) w
     (fun _ _ t => exists pre rest,
        reads = pre ++ rest /\ delivers pre = true /\
        packets_out t = map Some (filter (is_video r_ctx) (map snd pre))).
Proof.
  induction reads as [| [s p] reads IH]; intros w; simpl Main.reader_loop.
  - wp_go; exists [], []; repeat split.
  - wp_go;
      try (exists [], ((s, p) :: reads); repeat split; fail);
      by_loop IH; intros (pre & rest & -> & Hpre & Hout);
      exists ((s, p) :: pre), rest;
      (split; [reflexivity |]);
      (split; [cbn [delivers forallb fst]; fold (delivers pre); rewrite Hpre;
               rewrite andb_true_r; apply Z.leb_le; apply Z.ltb_ge; assumption |]);
      unfold packets_out in *; cbn [app flat_map]; rewrite Hout;
      cbn [map snd filter];
      match goal with H : (is_null _ || _) = ?v |- _ =>
        replace (is_video r_ctx p) with (negb v)
          by (unfold is_video; rewrite H; reflexivity)
      end;
      reflexivity.
Qed.

Lemma option_packet_inj (l l' : list (option AVPacket)) :
  map (option_map PPacket) l = map (option_map PPacket) l' -> l = l'.
Proof.
  revert l'. induction l as [| x l IH]; intros [| y l'] H; try discriminate;
    [reflexivity |].
  cbn [map] in H. inversion H as [[Hx Hl]]. f_equal; [| apply IH; exact Hl].
  destruct x, y; cbn in Hx; congruence.
Qed.

(** X9. Reader and source decoder in a row.  Whatever the file delivers and
    however either run ends, the packets the decoder worker of codec.c
    hands to its codec, when its packet queue is fed by [reader_thread],
    are an initial part of: the packets of the selected stream that carry a
    buffer, in file order, followed by the null packet once the reader has
    returned.  So no packet of another stream and no packet without buffer
    reaches the codec, and the drain request is made at most once and only
    after every video packet of the file. *)
Theorem only_video_reaches_the_decoder
  (r_ctx : Main.reader_context) (reads : script AVPacket)
  (recv : script AVFrame) (w w' : World) :
  let up := Main.reader_thread r_ctx reads w in
  let down := Codec.decoder_thread recv (fed_by (trace up) w') in
  (exists pre rest,
     reads = pre ++ rest /\ delivers pre = true /\
     map Some (filter (is_video r_ctx) (map snd pre))
       ++ (if returned (outcome up) then [None] else [])
     = sent_packets (trace down) ++ w_packets (final down)) /\
  forallb (video_or_drain r_ctx) (sent_packets (trace down)) = true.
Proof.
  intros up down.
  assert (Hup : exists pre rest,
             reads = pre ++ rest /\ delivers pre = true /\
             packets_out (trace up)
             = map Some (filter (is_video r_ctx) (map snd pre))
               ++ (if returned (outcome up) then [None] else [])).
  { subst up.
    change (wp (Main.reader_thread r_ctx reads) w
       (fun r _ t => exists pre rest,
          reads = pre ++ rest /\ delivers pre = true /\
          packets_out t = map Some (filter (is_video r_ctx) (map snd pre))
                          ++ (if returned r then [None] else []))).
    unfold Main.reader_thread. wp_step.
    eapply wp_weaken; [apply reader_loop_output |]. cbv beta.
    intros [[] | h] w1 t1 (pre & rest & -> & Hpre & Hout).
    - wp_go; exists pre, rest; (split; [reflexivity |]); (split; [exact Hpre |]);
        cbn [app returned]; rewrite packets_out_app, Hout; reflexivity.
    - exists pre, rest. split; [reflexivity |]. split; [exact Hpre |].
      cbn [returned]. rewrite Hout, app_nil_r. reflexivity. }
  destruct Hup as (pre & rest & Hreads & Hpre & Hout).
  assert (Hdown : packets_out (trace up)
                  = sent_packets (trace down) ++ w_packets (final down)).
  { pose proof (codec_decoder_thread_fifo recv (fed_by (trace up) w')) as Hfifo.
    pose proof (codec_decoder_thread_submits recv (fed_by (trace up) w')) as Hown.
    cbv zeta in Hown.
    unfold fifo_packets in Hfifo. fold down in Hfifo, Hown.
    rewrite Hown, <- map_app in Hfifo.
    apply option_packet_inj in Hfifo. exact Hfifo. }
  split.
  - exists pre, rest. split; [exact Hreads |]. split; [exact Hpre |].
    rewrite <- Hout. exact Hdown.
  - assert (Hall : forallb (video_or_drain r_ctx) (packets_out (trace up)) = true).
    { rewrite Hout, forallb_app. apply andb_true_iff. split.
      - apply forallb_forall. intros x Hx. apply in_map_iff in Hx.
        destruct Hx as (p & <- & Hp). apply filter_In in Hp. exact (proj2 Hp).
      - destruct (returned (outcome up)); reflexivity. }
    rewrite Hdown, forallb_app in Hall. apply andb_true_iff in Hall.
    exact (proj1 Hall).
Qed.

(* ================================================================== *)
(** * The encoder leaves at the sentinel *)

Lemma bind_stable {A B} (m : M A) (k k' : A -> M B) w :
  outcome (bind m k w) <> Halt Running ->
  (forall a w1, outcome (k a w1) <> Halt Running -> k' a w1 = k a w1) ->
  bind m k' w = bind m k w.
Proof.
  unfold bind, outcome. destruct (m w) as [[[a | h] w1] t1]; [| reflexivity].
  intros Hne Hk. rewrite (Hk a w1); [reflexivity |].
  destruct (k a w1) as [[r w2] t2]. exact Hne.
Qed.

Lemma bind_running {A B} (m : M A) (k : A -> M B) w :
  outcome (m w) = Halt Running -> outcome (bind m k w) = Halt Running.
Proof.
  unfold bind, outcome. destruct (m w) as [[[a | h] w1] t1]; cbn; intros E;
    [discriminate | inversion E; reflexivity].
Qed.

Lemma encoder_loop_stable recv more :
  forall packet w,
    outcome (Codec.encoder_loop recv packet w) <> Halt Running ->
    Codec.encoder_loop (recv ++ more) packet w = Codec.encoder_loop recv packet w.
Proof.
  induction recv as [| [s p] recv IH]; intros packet w Hne.
  - destruct packet; [exfalso; apply Hne; reflexivity |].
    destruct more as [| [s' p'] more]; reflexivity.
  - cbn [app Codec.encoder_loop] in *.
    destruct packet; cbn [negb] in *; [| reflexivity].
    destruct (s =? 0).
    + apply bind_stable; [exact Hne |]. intros [] w1 H1.
      apply bind_stable; [exact H1 |]. intros packet' w2 H2. apply IH. exact H2.
    + destruct (s =? AVERROR EAGAIN).
      * apply bind_stable; [exact Hne |]. intros [f |] w1 H1; [| reflexivity].
        apply bind_stable; [exact H1 |]. intros [] w2 H2. apply IH. exact H2.
      * destruct (s =? AVERROR_EOF); [reflexivity |].
        destruct (s =? AVERROR EINVAL); [reflexivity |].
        apply IH. exact Hne.
Qed.

(** X10. The encoder worker never drains its codec.  Once it has taken the
    null sentinel from its frame queue it leaves its loop without another
    codec call: whatever the codec would still have answered (packets it
    buffers included) has no influence on the run and is never put on the
    packet queue. *)
Theorem encoder_leaves_at_the_sentinel
  (recv more : script AVPacket) (w : World) :
  sentinel_taken (trace (Codec.encoder_thread recv w)) = true ->
  Codec.encoder_thread (recv ++ more) w = Codec.encoder_thread recv w.
Proof.
  intros Hs.
  destruct (encoder_thread_eof recv w) as (_ & Hret). cbv zeta in Hret.
  specialize (Hret Hs).
  assert (Hne : outcome (Codec.encoder_thread recv w) <> Halt Running).
  { intros E. rewrite E in Hret. destruct Hret; discriminate. }
  unfold Codec.encoder_thread in *.
  apply bind_stable; [exact Hne |]. intros packet w1 H1.
  unfold bind at 1 5. rewrite encoder_loop_stable; [reflexivity |].
  intros E. apply H1. apply bind_running. exact E.
Qed.

Lemma encoder_leaves_at_the_sentinel_witness :
  Codec.encoder_thread
    (sample_encoding ++ [(0, video_packet 50); (AVERROR_EOF, blank_packet)])
    (set_frames [Some (picture 1); Some (picture 3); None] quiet_world)
  = Codec.encoder_thread sample_encoding
      (set_frames [Some (picture 1); Some (picture 3); None] quiet_world).
Proof.
  apply (encoder_leaves_at_the_sentinel sample_encoding
           [(0, video_packet 50); (AVERROR_EOF, blank_packet)]
           (set_frames [Some (picture 1); Some (picture 3); None] quiet_world)).
  reflexivity.
Defined.

(* ================================================================== *)
(** * main with nothing to play *)

(** X11. [main] with nothing to play.  Called with an argument count other
    than 2 it prints the usage line and ends the process with
    [EXIT_FAILURE] without reading the playlist.  With an empty playlist it
    opens no file and starts no worker, but still initialises SDL: it
    returns [EXIT_SUCCESS] when [SDL_Init] answers 0 and otherwise ends the
    process with [EXIT_FAILURE] after reporting "SDL_Init failed". *)
Theorem main_with_nothing_to_play
  (probe : string -> AVFormatContext) (best : AVFormatContext -> Z)
  (parse : string -> M (list string)) (argv : list string) (w : World) :
  (List.length argv <> 2%nat ->
   Main.main probe best parse argv w = (Halt (Exit EXIT_FAILURE), w, [Usage])) /\
  (List.length argv = 2%nat ->
   let run := Main.main probe best (fun _ => ret []) argv w in
   let sdl_init := fst (next_of 0 (w_ret w)) in
   opened (trace run) = [] /\ started (trace run) = 0%nat /\
   dequeued (trace run) = [] /\
   outcome run = (if sdl_init =? 0 then Ok EXIT_SUCCESS
                  else Halt (Exit EXIT_FAILURE)) /\
   reported (trace run) = (if sdl_init =? 0 then [] else ["SDL_Init failed"])).
Proof.
  split.
  - intros Hn. unfold Main.main.
    destruct (Z.eqb_spec (Z.of_nat (List.length argv)) 2) as [E | NE]; [lia |].
    reflexivity.
  - intros Hn run sdl_init. subst run sdl_init.
    change (wp (Main.main probe best (fun _ => ret []) argv) w
       (fun r _ t =>
          opened t = [] /\ started t = 0%nat /\ dequeued t = [] /\
          r = (if fst (next_of 0 (w_ret w)) =? 0 then Ok EXIT_SUCCESS
               else Halt (Exit EXIT_FAILURE)) /\
          reported t = (if fst (next_of 0 (w_ret w)) =? 0 then []
                        else ["SDL_Init failed"]))).
    unfold Main.main. rewrite Hn. cbn [Z.of_nat Z.eqb Pos.eqb negb Pos.of_succ_nat Pos.succ].
    wp_go. cbn [Main.playlist_loop].
    wp_go; world_simpl;
      match goal with Hx : next_of 0 (w_ret w) = _ |- _ => rewrite Hx end;
      cbn [fst];
      match goal with
      | Hx : negb (_ =? 0) = true |- _ => apply negb_true_iff in Hx; rewrite Hx
      | Hx : negb (_ =? 0) = false |- _ => apply negb_false_iff in Hx; rewrite Hx
      end;
      repeat split.
Qed.

Lemma main_with_nothing_to_play_witness :
  Main.main (fun _ => two_streams) (fun _ => 0) (fun _ => ret ["clip.mkv"])
            ["ffoveated"] quiet_world
  = (Halt (Exit EXIT_FAILURE), quiet_world, [Usage]) /\
  outcome (Main.main (fun _ => two_streams) (fun _ => 0) (fun _ => ret [])
                     ["ffoveated"; "playlist.txt"] quiet_world)
  = Ok EXIT_SUCCESS.
Proof.
  split.
  - apply (proj1 (main_with_nothing_to_play (fun _ => two_streams) (fun _ => 0)
                    (fun _ => ret ["clip.mkv"]) ["ffoveated"] quiet_world)).
    discriminate.
  - apply (proj2 (main_with_nothing_to_play (fun _ => two_streams) (fun _ => 0)
                    (fun _ => ret []) ["ffoveated"; "playlist.txt"] quiet_world)
                 eq_refl).
Defined.

(* ================================================================== *)
(** * The gaze provider at the borders *)

Lemma gaze_run_fields w s d :
  gaze_run w s d ->
  d_fx d = float_div (float_of_int (ptr_x s)) (float_of_int (win_w s)) /\
  d_fy d = float_div (float_of_int (ptr_y s)) (float_of_int (win_h s)).
Proof.
  intros (sdl & ptrs & Hsdl & Hptr & Hrun).
  assert (Hq : Codec.sdl_query w = (Ok s, set_sdl sdl w, [])).
  { unfold Codec.sdl_query. destruct (w_sdl w) as [| s' l] eqn:E; simpl in Hsdl;
      inversion Hsdl; subst; [| reflexivity].
    unfold set_sdl. rewrite <- E, <- world_eta. reflexivity. }
  assert (Ha : alloc (set_sdl sdl w) = (Ok true, set_ptr ptrs (set_sdl sdl w), [])).
  { apply alloc_next. exact Hptr. }
  unfold Codec.foveation_descriptor, bind in Hrun. rewrite Hq, Ha in Hrun.
  cbn [negb ret] in Hrun. inversion Hrun. split; reflexivity.
Qed.

Lemma float_of_int_neg p : float_of_int (Zneg p) = SFopp (float_of_int (Zpos p)).
Proof.
  unfold float_of_int, binary_normalize, binary_round.
  destruct (shl_align p 0 _) as [mz ez].
  rewrite !bra_unfold. cbv zeta.
  destruct (shr_m _) as [| m | m]; try reflexivity.
  destruct (_ <=? _); reflexivity.
Qed.

(** A normal number divided by itself is exactly 1. *)
Lemma div_self m e :
  normal32 m e ->
  float_div (S754_finite false m e) (S754_finite false m e) = float_one.
Proof.
  intros [Hm He]. rewrite float_one_eq.
  unfold float_div, SFdiv. cbn [xorb].
  unfold SFdiv_core_binary. cbn [Zdigits2].
  rewrite (digits2_unique m 24) by (change (2 ^ (24 - 1)) with 8388608;
                                    change (2 ^ 24) with 16777216; lia).
  assert (Hfexp : Z.min (fexp prec32 emax32 (24 + e - (24 + e))) (e - e) = - 24).
  { unfold fexp, emin, prec32, emax32. lia. }
  rewrite Hfexp.
  replace (e - e - - 24) with 24 by lia.
  rewrite Z.shiftl_mul_pow2 by lia. change (2 ^ 24) with 16777216.
  pose proof (Z.div_eucl_eq (Zpos m * 16777216) (Zpos m) ltac:(lia)) as Hdiv.
  pose proof (Z.mod_pos_bound (Zpos m * 16777216) (Zpos m) ltac:(lia)) as Hmod.
  unfold Z.modulo in Hmod.
  destruct (Z.div_eucl (Zpos m * 16777216) (Zpos m)) as [q r].
  assert (q = 16777216) by nia. assert (r = 0) by nia. subst q r.
  assert (Hloc : new_location (Zpos m) 0 = loc_Exact).
  { unfold new_location, new_location_even, new_location_odd.
    destruct (Z.even (Zpos m)); reflexivity. }
  destruct (bra_div 16777216 (- 24) (new_location (Zpos m) 0)) as
    (m' & e' & Heq & _ & _ & Hexact); [lia | lia |].
  destruct (Hexact eq_refl Hloc) as [-> Hm'].
  rewrite Heq. f_equal. apply Pos2Z.inj. exact Hm'.
Qed.

Lemma ratio_at_the_borders b :
  0 < b <= INT_MAX ->
  float_div (float_of_int 0) (float_of_int b) = float_zero /\
  float_div (float_of_int b) (float_of_int b) = float_one.
Proof.
  unfold INT_MAX. intros Hb. destruct b as [| q | q]; try lia.
  destruct (float_of_int_spec q ltac:(lia)) as (m & e & F & N & _).
  rewrite F. split; [reflexivity | apply div_self; exact N].
Qed.

(** X12. The ends of the coordinate range are attained exactly.  For a
    window of positive size, a pointer on the left (upper) border gives the
    descriptor coordinate +0, a pointer on the right (lower) border, where
    the pointer coordinate equals the window width (height), gives exactly
    1.0: the single-precision quotient of a converted [int] by itself is
    not off by a rounding error. *)
Theorem gaze_at_the_borders (w : World) (s : sdl_sample) (d : descriptor) :
  gaze_run w s d ->
  0 < win_w s <= INT_MAX -> 0 < win_h s <= INT_MAX ->
  (ptr_x s = 0 -> d_fx d = float_zero) /\
  (ptr_x s = win_w s -> d_fx d = float_one) /\
  (ptr_y s = 0 -> d_fy d = float_zero) /\
  (ptr_y s = win_h s -> d_fy d = float_one).
Proof.
  intros Hrun Hw Hh. destruct (gaze_run_fields w s d Hrun) as (-> & ->).
  destruct (ratio_at_the_borders (win_w s) Hw) as (Hx0 & Hx1).
  destruct (ratio_at_the_borders (win_h s) Hh) as (Hy0 & Hy1).
  repeat split; intros ->; assumption.
Qed.

Lemma gaze_at_the_borders_witness :
  d_fx (mkDescr float_one float_zero (float_of_double double_0_3) (float_of_int 20))
  = float_one /\
  d_fy (mkDescr float_one float_zero (float_of_double double_0_3) (float_of_int 20))
  = float_zero.
Proof.
  assert (Hrun : gaze_run (set_sdl [mkSdl 640 480 640 0] quiet_world)
                          (mkSdl 640 480 640 0)
                          (mkDescr float_one float_zero (float_of_double double_0_3)
                                   (float_of_int 20))).
  { exists [], []. repeat split. }
  destruct (gaze_at_the_borders _ _ _ Hrun) as (_ & Hx & Hy & _);
    [unfold INT_MAX; cbn; lia | unfold INT_MAX; cbn; lia |].
  split; [apply Hx; reflexivity | apply Hy; reflexivity].
Defined.

Lemma ratio_over_zero a :
  in_int_range a ->
  float_div (float_of_int a) (float_of_int 0) = over_zero a /\
  in_unit_interval (over_zero a) = false.
Proof.
  unfold in_int_range, INT_MAX. intros Ha.
  destruct a as [| p | p]; cbn [over_zero].
  - split; reflexivity.
  - destruct (float_of_int_spec p ltac:(lia)) as (m & e & F & _).
    rewrite F. split; reflexivity.
  - split; [| reflexivity]. rewrite float_of_int_neg.
    destruct (Z.eq_dec (Zpos p) 2147483648) as [E | NE].
    + assert (Hp : p = 2147483648%positive) by (apply Pos2Z.inj; exact E).
      rewrite Hp. reflexivity.
    + destruct (float_of_int_spec p ltac:(lia)) as (m & e & F & _).
      rewrite F. reflexivity.
Qed.

(** X13. A window of width (height) 0 does not stop the gaze provider: the
    division is the IEEE one, so the call returns a descriptor whose
    coordinate is not a number when the pointer coordinate is 0 too, and an
    infinity with the sign of the pointer coordinate otherwise; in either
    case the coordinate is outside the unit interval. *)
Theorem gaze_of_an_empty_window (w : World) (s : sdl_sample) (d : descriptor) :
  gaze_run w s d ->
  (win_w s = 0 -> in_int_range (ptr_x s) ->
   d_fx d = over_zero (ptr_x s) /\ in_unit_interval (d_fx d) = false) /\
  (win_h s = 0 -> in_int_range (ptr_y s) ->
   d_fy d = over_zero (ptr_y s) /\ in_unit_interval (d_fy d) = false).
Proof.
  intros Hrun. destruct (gaze_run_fields w s d Hrun) as (-> & ->).
  split; intros -> Hr; destruct (ratio_over_zero _ Hr) as (E1 & E2);
    rewrite E1; split; [reflexivity | exact E2 | reflexivity | exact E2].
Qed.

Lemma gaze_of_an_empty_window_witness :
  d_fx (mkDescr S754_nan (S754_infinity false) (float_of_double double_0_3)
                (float_of_int 20)) = over_zero 0 /\
  d_fy (mkDescr S754_nan (S754_infinity false) (float_of_double double_0_3)
                (float_of_int 20)) = over_zero 7.
Proof.
  assert (Hrun : gaze_run (set_sdl [mkSdl 0 0 0 7] quiet_world)
                          (mkSdl 0 0 0 7)
                          (mkDescr S754_nan (S754_infinity false)
                                   (float_of_double double_0_3) (float_of_int 20))).
  { exists [], []. repeat split. }
  destruct (gaze_of_an_empty_window _ _ _ Hrun) as (Hx & Hy).
  split.
  - apply Hx; [reflexivity | unfold in_int_range, INT_MAX; cbn; lia].
  - apply Hy; [reflexivity | unfold in_int_range, INT_MAX; cbn; lia].
Defined.

(* ================================================================== *)
(** * Set-up and tear-down *)

(** One step of symbolic execution through the heap layer. *)
Ltac hopen :=
  progress (unfold hbind, lift, hret, new, malloc, free, queue_init,
            avcodec_alloc_context3, create_queue); cbv beta.

Ltac hcase :=
  lazymatch goal with
  | |- wp ((if ?b then _ else _) _) _ _ => destruct b eqn:?
  | |- wp ((match ?x with Some _ => _ | None => _ end) _) _ _ => destruct x eqn:?
  end; cbv beta iota.

Ltac hgo := repeat first [ progress cbn [fst snd] | wp_step | hopen | hcase ].

Lemma source_decoder_init_post lib rc cap h w :
  wp (source_decoder_init lib rc cap h) w
     (fun r _ t =>
        match r with
        | Ok (dc, h') =>
            t = [] /\
            h' = grow h [OCodecContext; OStruct "decoder_context"; OQueue cap] /\
            CodecSetup.dc_block dc = S (h_next h) /\
            CodecSetup.dc_packet_queue dc = CodecSetup.rc_packet_queue rc /\
            CodecSetup.dc_frame_queue dc = mkQueue (S (S (h_next h))) cap /\
            exists ctx, CodecSetup.dc_avctx dc = Some ctx /\ cx_handle ctx = h_next h
        | Halt (Exit s) => s = EXIT_FAILURE
        | Halt (Undefined _) => True
        | Halt _ => False
        end).
Proof.
  unfold source_decoder_init, CodecSetup.source_decoder_init.
  hgo; try reflexivity; try exact I.
  cbn. repeat split. eexists. split; reflexivity.
Qed.

(** The facts left once a set-up function has been run symbolically. *)
Ltac setup_fin :=
  cbn;
  repeat match goal with |- _ /\ _ => split end;
  try reflexivity; try tauto;
  try (intros [E | []]; discriminate E);
  try (intros []);
  try (intros; tauto).

Lemma select_encoder_post find id w :
  wp (CodecSetup.select_encoder find id) w
     (fun r w' t =>
        w' = w /\
        (In "trying to set options for unsupported codec" (reported t) -> False) /\
        match r with
        | Ok (options, codec) =>
            t = [] /\
            ((id = LIBX264 \/ id = LIBX265) /\
             options = low_latency_profile id /\ codec = find (encoder_name id)
             \/ (id <> LIBX264 /\ id <> LIBX265 /\ codec = None))
        | Halt _ => False
        end).
Proof.
  unfold CodecSetup.select_encoder, CodecSetup.set_codec_options.
  change (LIBX264 =? LIBX264) with true. change (LIBX265 =? LIBX264) with false.
  change (LIBX265 =? LIBX265) with true. cbv iota.
  unfold low_latency_profile, encoder_name.
  destruct (Z.eqb_spec id LIBX264) as [-> | N1].
  - wp_go. cbn. intuition auto.
  - destruct (Z.eqb_spec id LIBX265) as [-> | N2].
    + wp_go. cbn. intuition auto.
    + wp_go. cbn. intuition auto.
Qed.

Lemma encoder_init_post lib id dc wc h w :
  wp (encoder_init lib id dc wc h) w
     (fun r _ t =>
        (In "trying to set options for unsupported codec" (reported t) -> False) /\
        match r with
        | Ok (ec, h') =>
            t = [] /\
            h' = grow h [OStruct "encoder_context"; OCodecContext; OQueue 1; OQueue 1] /\
            (id = LIBX264 \/ id = LIBX265) /\
            exists codec dctx fmts,
              find_encoder_by_name lib (encoder_name id) = Some codec /\
              CodecSetup.dc_avctx dc = Some dctx /\
              cd_pix_fmts codec = Some fmts /\
              ec = CodecSetup.mkEncoder
                     (h_next h) (CodecSetup.dc_frame_queue dc)
                     (mkQueue (S (S (h_next h))) 1)
                     (mkQueue (S (S (S (h_next h)))) 1)
                     (Some (mkCtx (S (h_next h)) (Some codec) (cd_id codec)
                                  (cx_time_base dctx) (hd AV_PIX_FMT_NONE fmts)
                                  (cx_width dctx) (cx_height dctx)))
                     (options_left lib codec (low_latency_profile id)) wc id
        | Halt (Exit s) =>
            s = EXIT_FAILURE /\
            (id <> LIBX264 -> id <> LIBX265 ->
             reported t = ["malloc failed"] \/ reported t = ["encoder not found"])
        | Halt (Undefined _) =>
            (id = LIBX264 \/ id = LIBX265) /\
            exists codec,
              find_encoder_by_name lib (encoder_name id) = Some codec /\
              (CodecSetup.dc_avctx dc = None \/ cd_pix_fmts codec = None)
        | Halt _ => False
        end).
Proof.
  unfold encoder_init, CodecSetup.encoder_init.
  hgo.
  - setup_fin.
  - eapply wp_weaken; [apply select_encoder_post |]. cbv beta.
    intros [[options codec] | hh] w1 t1 (-> & Hno & Hsel); [| contradiction].
    destruct Hsel as (-> & Hsel).
    destruct Hsel as [(Hid & -> & ->) | (N1 & N2 & ->)].
    + hgo; setup_fin.
      1: (eexists _, _, _; repeat split; eassumption).
      all: eexists; (split; [reflexivity |]);
        first [left; reflexivity | right; first [eassumption | reflexivity]].
    + hgo; setup_fin.
Qed.

Lemma fov_decoder_init_post lib ec h w :
  wp (fov_decoder_init lib ec h) w
     (fun r _ t =>
        match r with
        | Ok (fd, h') =>
            t = [] /\
            h' = grow h [OCodecContext; OStruct "decoder_context"; OQueue 1] /\
            CodecSetup.dc_block fd = S (h_next h) /\
            CodecSetup.dc_packet_queue fd = CodecSetup.ec_packet_queue ec /\
            CodecSetup.dc_frame_queue fd = mkQueue (S (S (h_next h))) 1 /\
            exists ctx, CodecSetup.dc_avctx fd = Some ctx /\ cx_handle ctx = h_next h
        | Halt (Exit s) => s = EXIT_FAILURE
        | Halt (Undefined _) => True
        | Halt _ => False
        end).
Proof.
  unfold fov_decoder_init, CodecSetup.fov_decoder_init.
  hgo; try reflexivity; try exact I.
  cbn. repeat split. eexists. split; reflexivity.
Qed.

(** The contexts and the heap a set-up that returns leaves behind, with the
    handles spelled out. *)
Lemma pipeline_init_post lib rc cap id wc h w :
  wp (pipeline_init lib rc cap id wc h) w
     (fun r _ t =>
        match r with
        | Ok ((dc, ec, fd), h') =>
            let n := h_next h in
            t = [] /\
            h' = grow h [OCodecContext; OStruct "decoder_context"; OQueue cap;
                         OStruct "encoder_context"; OCodecContext; OQueue 1; OQueue 1;
                         OCodecContext; OStruct "decoder_context"; OQueue 1] /\
            (exists c0, dc = CodecSetup.mkDecoder (1 + n)%nat
                               (CodecSetup.rc_packet_queue rc)
                               (mkQueue (2 + n)%nat cap) (Some c0) /\
                        cx_handle c0 = n) /\
            (exists c1 opts, ec = CodecSetup.mkEncoder (3 + n)%nat (mkQueue (2 + n)%nat cap)
                               (mkQueue (5 + n)%nat 1) (mkQueue (6 + n)%nat 1)
                               (Some c1) opts wc id /\
                        cx_handle c1 = (4 + n)%nat) /\
            (exists c2, fd = CodecSetup.mkDecoder (8 + n)%nat (mkQueue (5 + n)%nat 1)
                               (mkQueue (9 + n)%nat 1) (Some c2) /\
                        cx_handle c2 = (7 + n)%nat)
        | Halt (Exit s) => s = EXIT_FAILURE
        | Halt (Undefined _) => True
        | Halt _ => False
        end).
Proof.
  unfold pipeline_init. unfold hbind at 1. wp_step.
  eapply wp_weaken; [apply source_decoder_init_post |]. cbv beta.
  intros [[dc h1] | hh] w1 t1 H1; [| destruct hh; auto].
  destruct H1 as (-> & -> & Hb & Hpq & Hfq & c0 & Hc0 & Hh0).
  cbn [fst snd]. unfold hbind at 1. wp_step.
  eapply wp_weaken; [apply encoder_init_post |]. cbv beta.
  intros [[ec h2] | hh] w2 t2 (_ & H2); [| destruct hh; tauto].
  destruct H2 as (-> & -> & _ & codec & dctx & fmts & _ & _ & _ & ->).
  cbn [fst snd]. unfold hbind at 1. wp_step.
  eapply wp_weaken; [apply fov_decoder_init_post |]. cbv beta.
  intros [[fd h3] | hh] w3 t3 H3; [| destruct hh; auto].
  destruct H3 as (-> & -> & Hb3 & Hpq3 & Hfq3 & c2 & Hc2 & Hh2).
  cbn [fst snd]. unfold hret. wp_step.
  destruct dc as [b0 pq0 fq0 a0]. destruct fd as [b3 pq3 fq3 a3].
  cbn in *. subst. repeat split.
  - exists c0. split; [reflexivity | exact Hh0].
  - eexists _, _. split; reflexivity.
  - exists c2. split; [reflexivity | exact Hh2].
Qed.

Lemma wf_not_live h x : wf_heap h -> (h_next h <= x)%nat -> is_live x h = false.
Proof.
  unfold wf_heap, is_live. intros Hwf Hx.
  induction Hwf as [| e L He _ IH]; [reflexivity |].
  cbn [existsb]. rewrite IH, orb_false_r. apply Nat.eqb_neq. lia.
Qed.

Lemma run_post {A} (m : M A) w (Q : result A -> World -> list event -> Prop) r w' t :
  wp m w Q -> m w = (r, w', t) -> Q r w' t.
Proof. unfold wp. intros H E. rewrite E in H. exact H. Qed.

Lemma wp_run {A} (m : M A) w res :
  wp m w (fun r w' t => (r, w', t) = res) -> m w = res.
Proof.
  unfold wp, outcome, final, trace. destruct (m w) as [[r w'] t]. cbn. auto.
Qed.


(** Releasing an object that was allocated after the objects [L]. *)
Lemma wp_dispose_new b N L news x w Q :
  Forall (fun e : nat * object => (fst e < b)%nat) L -> (b <= x)%nat ->
  is_live x (mkHeap N news) = true ->
  Q (Ok (tt, mkHeap N (L ++ filter (fun e => negb (Nat.eqb (fst e) x)) news))) w [] ->
  wp (dispose x (mkHeap N (L ++ news))) w Q.
Proof.
  intros HL Hx Hlive HQ. unfold wp, dispose, is_live in *. cbn [h_live h_next] in *.
  assert (E : existsb (fun e : nat * object => Nat.eqb (fst e) x) (L ++ news) = true).
  { rewrite existsb_app. apply orb_true_iff. right. exact Hlive. }
  rewrite E. cbn [ret outcome final trace fst snd].
  rewrite filter_app.
  assert (EL : filter (fun e : nat * object => negb (Nat.eqb (fst e) x)) L = L).
  { clear HQ Hlive E. induction HL as [| e L He _ IH]; [reflexivity |].
    cbn [filter]. replace (Nat.eqb (fst e) x) with false
      by (symmetry; apply Nat.eqb_neq; lia).
    cbn [negb]. f_equal. exact IH. }
  rewrite EL. exact HQ.
Qed.



(** Decide the comparisons of handles that are offsets of one address. *)
Lemma eqb_offsets i j n : i <> j -> Nat.eqb (i + n) (j + n) = false.
Proof. intros H. apply Nat.eqb_neq. lia. Qed.

Lemma le_offset i n : (n <= i + n)%nat.
Proof. lia. Qed.

Ltac offset x n :=
  lazymatch x with
  | n => constr:(O)
  | S ?y => let k := offset y n in constr:(S k)
  end.

Ltac nat_eqb_simpl n :=
  repeat match goal with
         | |- context [Nat.eqb ?a ?b] =>
             first [ constr_eq a b; rewrite (Nat.eqb_refl a)
                   | let i := offset a n in
                     let j := offset b n in
                     replace (Nat.eqb a b) with false
                       by (symmetry; exact (eqb_offsets i j n ltac:(discriminate))) ]
         end.

Ltac dispose_step Hwf n :=
  eapply wp_dispose_new;
  [ exact Hwf
  | match goal with |- (_ <= ?x)%nat =>
      let i := offset x n in exact (le_offset i n) end
  | unfold is_live; cbn [h_live existsb fst]; nat_eqb_simpl n; reflexivity
  | cbn [filter fst]; nat_eqb_simpl n; cbn [negb] ].

Ltac tear Hwf n :=
  repeat first
    [ progress cbn [fst snd cx_handle q_handle tear_down
                    CodecSetup.dc_avctx CodecSetup.dc_frame_queue CodecSetup.dc_block
                    CodecSetup.ec_avctx CodecSetup.ec_packet_queue
                    CodecSetup.ec_lag_queue CodecSetup.ec_block
                    CodecSetup.ec_frame_queue CodecSetup.ec_options
                    CodecSetup.ec_w_ctx CodecSetup.ec_id]
    | dispose_step Hwf n
    | wp_step
    | progress (unfold hbind, hret, free, queue_free, avcodec_free_context,
                CodecSetup.decoder_free, CodecSetup.encoder_free,
                free_stage, encoder_thread_exit); cbv beta iota ].

(** X15. Tear-down balances set-up.  After the three set-up functions of
    codec.c returned, [decoder_free] on the two decoder contexts and
    [encoder_free] on the encoder context, called in any order, release
    exactly the queues, codec contexts and context structs the set-up
    allocated, each once (no release of an object that is not allocated),
    leave what was allocated before (the reader's packet queue among it)
    untouched, and null the three context pointers.  This holds whether or
    not the encoder worker has run to its end, which releases the encoder's
    codec context and nulls its pointer before [encoder_free] sees it. *)
Theorem tear_down_balances_set_up
  (lib : Library) (rc : CodecSetup.reader_context) (cap id wc : Z)
  (h h' : Heap) (w w' w2 : World) (t : list event)
  (dc : CodecSetup.decoder_context) (ec : CodecSetup.encoder_context)
  (fd : CodecSetup.decoder_context) (ran : bool) (order : list stage) :
  wf_heap h ->
  pipeline_init lib rc cap id wc h w = (Ok ((dc, ec, fd), h'), w', t) ->
  In order free_orders ->
  shut_down ran order dc ec fd h' w2
  = (Ok ((None, None, None), mkHeap (h_next h') (h_live h)), w2, []).
Proof.
  intros Hwf Hrun Horder.
  pose proof (run_post _ _ _ _ _ _ (pipeline_init_post lib rc cap id wc h w) Hrun) as H.
  cbv beta iota zeta in H.
  destruct H as (-> & -> & (c0 & -> & Hc0) & (c1 & opts & -> & Hc1) & (c2 & -> & Hc2)).
  destruct c0 as [x0 ? ? ? ? ? ?], c1 as [x1 ? ? ? ? ? ?], c2 as [x2 ? ? ? ? ? ?].
  cbn [cx_handle] in Hc0, Hc1, Hc2. subst x0 x1 x2.
  cbn [grow h_live h_next Nat.add]. rewrite <- !app_assoc. cbn [app].
  apply wp_run.
  unfold wf_heap in Hwf.
  unfold shut_down. unfold free_orders in Horder. cbn [In] in Horder.
  destruct ran;
    destruct Horder as [<- | [<- | [<- | [<- | [<- | [<- | []]]]]]];
    tear Hwf (h_next h); rewrite app_nil_r; reflexivity.
Qed.

Lemma sample_heap_wf : wf_heap sample_heap.
Proof. unfold wf_heap, sample_heap. cbn. repeat constructor. Qed.

Lemma sample_set_up :
  pipeline_init sample_library sample_rc 32 LIBX264 7 sample_heap quiet_world
  = (Ok ((sample_dc, sample_ec, sample_fd), sample_heap_set_up), quiet_world, []).
Proof. vm_compute. reflexivity. Qed.


Lemma tear_down_balances_set_up_witness :
  shut_down true [Encoder; FovDecoder; SourceDecoder] sample_dc sample_ec sample_fd
            sample_heap_set_up quiet_world
  = (Ok ((None, None, None), mkHeap 11 [(0%nat, OQueue 32)]), quiet_world, []).
Proof.
  refine (tear_down_balances_set_up sample_library sample_rc 32 LIBX264 7 sample_heap
            sample_heap_set_up quiet_world quiet_world quiet_world []
            sample_dc sample_ec sample_fd true
            [Encoder; FovDecoder; SourceDecoder] sample_heap_wf sample_set_up _).
  cbn. auto 10.
Defined.


Lemma decoder_init_post r_ctx cap h w :
  wp (MainSetup.decoder_init r_ctx cap h) w
     (fun r _ t =>
        match r with
        | Ok (d, h') =>
            t = [] /\
            h' = grow h [OStruct "decoder_context"; OQueue (size_t_of_int cap)] /\
            d = MainSetup.mkDecoder (h_next h) (MainSetup.r_stream_index r_ctx)
                  (MainSetup.r_packet_queue r_ctx)
                  (mkQueue (S (h_next h)) (size_t_of_int cap))
                  (MainSetup.r_format_ctx r_ctx)
        | Halt (Exit s) => s = EXIT_FAILURE /\ ends_with_report t
        | Halt _ => False
        end).
Proof.
  unfold MainSetup.decoder_init.
  hgo; cbn; repeat split; try reflexivity; eexists [], _; reflexivity.
Qed.

Lemma size_t_of_int_spec n :
  in_int_range n ->
  0 <= size_t_of_int n <= SIZE_MAX /\
  (0 <= n -> size_t_of_int n = n) /\
  (n < 0 -> size_t_of_int n = SIZE_MAX + 1 + n).
Proof.
  unfold in_int_range, INT_MAX, size_t_of_int, SIZE_MAX. intros Hn.
  split; [| split].
  - pose proof (Z.mod_pos_bound n (18446744073709551615 + 1)). lia.
  - intros H0. apply Z.mod_small. lia.
  - intros H0. symmetry. apply Z.mod_unique with (q := -1); lia.
Qed.

(** X17. [decoder_init] of main.c gives the decoder the reader's packet
    queue, format context and stream index and a frame queue that is newly
    allocated, hence none of the queues allocated before (the reader's
    packet queue among them); it releases nothing.  The [int] capacity it
    is given reaches [create_queue] as a [size_t]: the frame queue has the
    capacity asked for when that is not negative, and 2^64 more than the
    capacity asked for when it is.  It fails only by ending the process
    with [EXIT_FAILURE] after a report. *)
Theorem decoder_init_shares_the_packet_queue
  (r_ctx : MainSetup.reader_context) (cap : Z) (h : Heap) (w : World) :
  wf_heap h -> in_int_range cap ->
  let run := MainSetup.decoder_init r_ctx cap h w in
  match outcome run with
  | Ok (d, h') =>
      MainSetup.d_packet_queue d = MainSetup.r_packet_queue r_ctx /\
      MainSetup.d_format_ctx d = MainSetup.r_format_ctx r_ctx /\
      MainSetup.d_stream_index d = MainSetup.r_stream_index r_ctx /\
      (q_capacity (MainSetup.d_frame_queue d) = size_t_of_int cap /\
       (0 <= cap -> q_capacity (MainSetup.d_frame_queue d) = cap) /\
       (cap < 0 -> q_capacity (MainSetup.d_frame_queue d) = SIZE_MAX + 1 + cap)) /\
      created_between h h' (MainSetup.d_frame_queue d) /\
      (is_live (q_handle (MainSetup.r_packet_queue r_ctx)) h = true ->
       q_handle (MainSetup.d_frame_queue d)
       <> q_handle (MainSetup.r_packet_queue r_ctx)) /\
      incl (h_live h) (h_live h')
  | Halt (Exit s) => s = EXIT_FAILURE /\ ends_with_report (trace run)
  | Halt _ => False
  end.
Proof.
  intros Hwf Hcap run. subst run.
  pose proof (decoder_init_post r_ctx cap h w) as H. unfold wp in H.
  destruct (outcome (MainSetup.decoder_init r_ctx cap h w)) as [[d h'] | hh];
    [| exact H].
  destruct H as (_ & -> & ->).
  cbn [MainSetup.d_packet_queue MainSetup.d_format_ctx MainSetup.d_stream_index
       MainSetup.d_frame_queue q_capacity q_handle grow h_live h_next].
  unfold created_between. cbn [q_handle q_capacity].
  assert (Hfresh : is_live (S (h_next h)) h = false)
    by (apply wf_not_live; [exact Hwf | lia]).
  destruct (size_t_of_int_spec cap Hcap) as (_ & Hpos & Hneg).
  repeat split; try reflexivity.
  - exact Hpos.
  - exact Hneg.
  - exact Hfresh.
  - apply in_or_app. right. cbn. auto.
  - intros Hlive E. rewrite <- E, Hfresh in Hlive. discriminate.
  - rewrite <- app_assoc. apply incl_appl. apply incl_refl.
Qed.

Lemma decoder_init_shares_the_packet_queue_witness :
  MainSetup.d_packet_queue
    (MainSetup.mkDecoder 1 0 (mkQueue 0 32) (mkQueue 2 SIZE_MAX) two_streams)
  = mkQueue 0 32 /\
  q_capacity (MainSetup.d_frame_queue
    (MainSetup.mkDecoder 1 0 (mkQueue 0 32) (mkQueue 2 SIZE_MAX) two_streams))
  = SIZE_MAX + 1 + -1.
Proof.
  assert (Hint : in_int_range (-1)) by (unfold in_int_range, INT_MAX; lia).
  pose proof (decoder_init_shares_the_packet_queue
                (MainSetup.mkReader "clip.mkv" 0 (mkQueue 0 32) two_streams)
                (-1) sample_heap quiet_world sample_heap_wf Hint) as H.
  cbv zeta in H.
  change (outcome (MainSetup.decoder_init
                     (MainSetup.mkReader "clip.mkv" 0 (mkQueue 0 32) two_streams)
                     (-1) sample_heap quiet_world))
    with (Ok (MainSetup.mkDecoder 1 0 (mkQueue 0 32) (mkQueue 2 SIZE_MAX) two_streams,
              grow sample_heap [OStruct "decoder_context"; OQueue SIZE_MAX])) in H.
  cbv beta iota in H.
  refine (conj (proj1 H) (proj2 (proj2 (proj1 (proj2 (proj2 (proj2 H))))) _)).
  lia.
Defined.

(* ================================================================== *)
(** * The three workers in a row, when nothing fails *)

Lemma packets_out_reader_events r_ctx s :
  packets_out (reader_events r_ctx s) = map Some (video_packets r_ctx s).
Proof.
  unfold video_packets.
  induction s as [| [r p] s IH]; [reflexivity |].
  cbn [reader_events map snd filter]. fold (reader_events r_ctx s).
  unfold packets_out in *. cbn [flat_map].
  destruct (is_video r_ctx p); cbn [app map]; rewrite IH; reflexivity.
Qed.

Lemma sent_packets_app t1 t2 :
  sent_packets (t1 ++ t2) = sent_packets t1 ++ sent_packets t2.
Proof. unfold sent_packets. apply flat_map_app. Qed.

Lemma frames_out_app t1 t2 : frames_out (t1 ++ t2) = frames_out t1 ++ frames_out t2.
Proof. unfold frames_out. apply flat_map_app. Qed.

(** The decoder loop of codec.c with a codec that answers only OK and
    NEED_INPUT before end-of-stream, enough input, and a frame queue that
    is drained. *)
Lemma codec_decoder_loop_run fr rest pre :
  forall w, healthy w = true -> ok_or_again pre = true ->
    (need_input pre <= List.length (w_packets w))%nat ->
    wp (Codec.decoder_loop (pre ++ (AVERROR_EOF, fr) :: rest) true) w
       (fun r w' t => r = Ok tt /\ healthy w' = true /\
                      frames_out t = map Some (yielded pre) /\
                      sent_packets t = firstn (need_input pre) (w_packets w) /\
                      w_packets w' = skipn (need_input pre) (w_packets w)).
Proof.
  induction pre as [| [r x] pre IH]; intros w Hh Hok Hn;
    cbn [app Codec.decoder_loop negb].
  - change (AVERROR_EOF =? 0) with false.
    change (AVERROR_EOF =? AVERROR EAGAIN) with false.
    change (AVERROR_EOF =? AVERROR_EOF) with true. cbv iota.
    wp_live. split; [reflexivity |]. split; [use_healthy |]. repeat split.
  - destruct (ok_or_again_cons _ _ _ Hok) as ([-> | ->] & Hok').
    + rewrite need_input_ok in *. change (0 =? 0) with true. cbv iota.
      wp_live. eapply wp_weaken; [apply IH; [use_healthy | exact Hok' | exact Hn] |].
      cbv beta. intros r' w' t' (-> & Hh' & Hf & Hs & Hw). split; [reflexivity |].
      split; [exact Hh' |].
      cbn [app]. rewrite yielded_cons. cbn [Z.eqb app map].
      unfold frames_out, sent_packets in *. cbn [flat_map app].
      rewrite Hf, Hs, Hw. world_simpl. repeat split.
    + rewrite need_input_again in *.
      change (AVERROR EAGAIN =? 0) with false.
      change (AVERROR EAGAIN =? AVERROR EAGAIN) with true. cbv iota.
      wp_live.
      * rewrite Hdeq in Hn. simpl in Hn. lia.
      * eapply wp_weaken;
          [apply IH; [use_healthy | exact Hok' |
                      world_simpl; rewrite Hdeq in Hn; simpl in Hn; lia] |].
        cbv beta. intros r' w' t' (-> & Hh' & Hf & Hs & Hw). split; [reflexivity |].
        split; [exact Hh' |].
        cbn [app]. rewrite yielded_cons.
        change (AVERROR EAGAIN =? 0) with false. cbn [app].
        unfold frames_out, sent_packets in *. cbn [flat_map app].
        rewrite Hf, Hs, Hw, Hdeq. world_simpl. repeat split.
Qed.

Lemma encode_frame_run fr w :
  healthy w = true ->
  wp (Codec.encode_frame fr) w
     (fun r w' t => r = Ok tt /\ healthy w' = true /\ w_frames w' = w_frames w /\
                    packets_out t = [] /\
                    map frame_id (submitted t) = [frame_id fr] /\
                    List.length (lag_entries t) = 1%nat).
Proof.
  intros Hh. unfold Codec.encode_frame. wp_live.
  split; [reflexivity |]. split; [use_healthy |]. repeat split.
Qed.

Lemma encoder_loop_run x rest more pre :
  forall fs w, healthy w = true ->
    w_frames w = map Some fs ++ None :: more ->
    ok_or_again pre = true -> need_input pre = List.length fs ->
    wp (Codec.encoder_loop (pre ++ (AVERROR EAGAIN, x) :: rest) true) w
       (fun r w' t => r = Ok tt /\ healthy w' = true /\ w_frames w' = more /\
                      packets_out t = map Some (yielded pre) /\
                      map frame_id (submitted t) = map frame_id fs /\
                      List.length (lag_entries t) = List.length fs).
Proof.
  induction pre as [| [r y] pre IH]; intros fs w Hh Hfr Hok Hn;
    cbn [app Codec.encoder_loop negb].
  - change (AVERROR EAGAIN =? 0) with false.
    change (AVERROR EAGAIN =? AVERROR EAGAIN) with true. cbv iota.
    destruct fs as [| f0 fs]; [| discriminate]. cbn [map app] in Hfr.
    wp_live; try (rewrite Hfr in Hdeq; discriminate).
    rewrite Hfr in Hdeq. inversion Hdeq; subst.
    split; [reflexivity |]. split; [use_healthy |]. repeat split.
  - destruct (ok_or_again_cons _ _ _ Hok) as ([-> | ->] & Hok').
    + rewrite need_input_ok in Hn. change (0 =? 0) with true. cbv iota.
      wp_live.
      eapply wp_weaken;
        [apply (IH fs); [use_healthy | exact Hfr | exact Hok' | exact Hn] |].
      cbv beta. intros r' w' t' (-> & Hh' & Hw & Hp & Hs & Hl). split; [reflexivity |].
      split; [exact Hh' |]. split; [exact Hw |].
      cbn [app]. rewrite yielded_cons. cbn [Z.eqb app map].
      unfold packets_out, submitted, lag_entries, enqueued in *.
      cbn [flat_map app enq_one queue_eqb].
      rewrite Hp, Hs, Hl. repeat split.
    + rewrite need_input_again in Hn.
      change (AVERROR EAGAIN =? 0) with false.
      change (AVERROR EAGAIN =? AVERROR EAGAIN) with true. cbv iota.
      destruct fs as [| f0 fs]; [discriminate |]. cbn [map app List.length] in Hfr, Hn.
      wp_live; try (rewrite Hfr in Hdeq; discriminate).
      rewrite Hfr in Hdeq. inversion Hdeq; subst.
      eapply wp_weaken; [apply encode_frame_run; use_healthy |]. cbv beta.
      intros r' w' t' (-> & Hh' & Hw' & Hp1 & Hs1 & Hl1).
      eapply wp_weaken;
        [apply (IH fs); [exact Hh' | rewrite Hw'; reflexivity | exact Hok' | lia] |].
      cbv beta. intros r'' w'' t'' (-> & Hh'' & Hw'' & Hp & Hs & Hl).
      split; [reflexivity |]. split; [exact Hh'' |]. split; [exact Hw'' |].
      rewrite yielded_cons. change (AVERROR EAGAIN =? 0) with false.
      cbn [app map List.length].
      match goal with
      | |- context [?e :: t' ++ t''] =>
          change (e :: t' ++ t'') with ([e] ++ t' ++ t'')
      end.
      rewrite !packets_out_app, !submitted_app, !lag_entries_app, !map_app, !length_app.
      rewrite Hp1, Hp, Hs1, Hs, Hl1, Hl. repeat split.
Qed.

Lemma codec_decoder_thread_run fr rest pre w :
  healthy w = true -> ok_or_again pre = true ->
  (need_input pre <= List.length (w_packets w))%nat ->
  let r := Codec.decoder_thread (pre ++ (AVERROR_EOF, fr) :: rest) w in
  outcome r = Ok 0 /\
  frames_out (trace r) = map Some (yielded pre) ++ [None] /\
  sent_packets (trace r) = firstn (need_input pre) (w_packets w) /\
  w_packets (final r) = skipn (need_input pre) (w_packets w).
Proof.
  intros Hh Hok Hn.
  change (wp (Codec.decoder_thread (pre ++ (AVERROR_EOF, fr) :: rest)) w
            (fun r w' t => r = Ok 0 /\
               frames_out t = map Some (yielded pre) ++ [None] /\
               sent_packets t = firstn (need_input pre) (w_packets w) /\
               w_packets w' = skipn (need_input pre) (w_packets w))).
  unfold Codec.decoder_thread. wp_live.
  eapply wp_weaken;
    [apply codec_decoder_loop_run; [use_healthy | exact Hok | exact Hn] |].
  cbv beta. intros r' w' t' (-> & Hh' & Hf & Hs & Hw). wp_live. split; [reflexivity |].
  cbn [app]. rewrite frames_out_app, sent_packets_app, Hf, Hs.
  world_simpl. split; [reflexivity |]. split; [apply app_nil_r | exact Hw].
Qed.

Lemma encoder_thread_run x rest more pre fs w :
  healthy w = true ->
  w_frames w = map Some fs ++ None :: more ->
  ok_or_again pre = true -> need_input pre = List.length fs ->
  let r := Codec.encoder_thread (pre ++ (AVERROR EAGAIN, x) :: rest) w in
  outcome r = Ok 0 /\
  packets_out (trace r) = map Some (yielded pre) ++ [None] /\
  map frame_id (submitted (trace r)) = map frame_id fs /\
  List.length (lag_entries (trace r)) = List.length fs /\
  w_frames (final r) = more.
Proof.
  intros Hh Hfr Hok Hn.
  change (wp (Codec.encoder_thread (pre ++ (AVERROR EAGAIN, x) :: rest)) w
            (fun r w' t => r = Ok 0 /\
               packets_out t = map Some (yielded pre) ++ [None] /\
               map frame_id (submitted t) = map frame_id fs /\
               List.length (lag_entries t) = List.length fs /\
               w_frames w' = more)).
  unfold Codec.encoder_thread. wp_live.
  eapply wp_weaken;
    [apply (encoder_loop_run x rest more pre fs);
     [use_healthy | exact Hfr | exact Hok | exact Hn] |].
  cbv beta. intros r' w' t' (-> & Hh' & Hw & Hp & Hs & Hl). wp_live.
  split; [reflexivity |].
  cbn [app]. rewrite packets_out_app, submitted_app, map_app, lag_entries_app, length_app.
  rewrite Hp, Hs, Hl. cbn. rewrite app_nil_r, Nat.add_0_r. world_simpl. repeat split.
  exact Hw.
Qed.

(** X18. The three workers in a row when nothing fails and nothing is left
    waiting.  Let the demuxer deliver packets up to an end-of-stream
    answer; let the decoder codec answer only OK and NEED_INPUT before its
    end-of-stream answer and ask for input once per video packet and once
    more, for the drain request; let the encoder codec answer only OK and
    NEED_INPUT and ask for input once per decoded frame and once more; let
    no allocation fail and no submission be refused; and let every
    [enqueue] find room ([healthy]): on the packet and the frame queue
    because the next worker takes every item, as shown below, on the
    encoder's packet and lag queues because their consumers drain them.
    Then, with each worker's input queue fed by the worker before it, all
    three workers return 0; the decoder codec is handed the video packets
    of the file in file order, then the null packet, and the packet queue
    is left empty; the frames the encoder submits are the decoded frames,
    in decoding order and each once, and the frame queue is left empty; the
    lag queue gets one entry per decoded frame; and the encoder's packet
    queue holds the encoded packets in order, closed by the sentinel. *)
Theorem pipeline_happy_path
  (r_ctx : Main.reader_context)
  (pre_r rest_r : script AVPacket) (pkt : AVPacket)
  (pre_d rest_d : script AVFrame) (fr : AVFrame)
  (pre_e rest_e : script AVPacket) (x : AVPacket)
  (w1 w2 w3 : World) :
  healthy w1 = true -> healthy w2 = true -> healthy w3 = true ->
  delivers pre_r = true -> ok_or_again pre_d = true -> ok_or_again pre_e = true ->
  need_input pre_d = S (List.length (video_packets r_ctx pre_r)) ->
  need_input pre_e = List.length (yielded pre_d) ->
  let reader := Main.reader_thread r_ctx (pre_r ++ (AVERROR_EOF, pkt) :: rest_r) w1 in
  let decoder := Codec.decoder_thread (pre_d ++ (AVERROR_EOF, fr) :: rest_d)
                                      (fed_by (trace reader) w2) in
  let encoder := Codec.encoder_thread (pre_e ++ (AVERROR EAGAIN, x) :: rest_e)
                                      (fed_frames (trace decoder) w3) in
  (outcome reader = Ok 0 /\ outcome decoder = Ok 0 /\ outcome encoder = Ok 0) /\
  (sent_packets (trace decoder) = map Some (video_packets r_ctx pre_r) ++ [None] /\
   w_packets (final decoder) = []) /\
  (map frame_id (submitted (trace encoder)) = map frame_id (yielded pre_d) /\
   w_frames (final encoder) = []) /\
  List.length (lag_entries (trace encoder)) = List.length (yielded pre_d) /\
  packets_out (trace encoder) = map Some (yielded pre_e) ++ [None].
Proof.
  intros H1 H2 H3 Hr Hd He Hnd Hne reader decoder encoder.
  destruct (reader_thread_live r_ctx pkt rest_r pre_r w1 H1 Hr) as (Ro & Rt).
  fold reader in Ro, Rt.
  assert (Rout : packets_out (trace reader)
                 = map Some (video_packets r_ctx pre_r) ++ [None]).
  { rewrite Rt, packets_out_app, packets_out_reader_events. reflexivity. }
  assert (Hlen : List.length (w_packets (fed_by (trace reader) w2)) = need_input pre_d).
  { unfold fed_by. cbn [w_packets set_packets]. rewrite Rout, length_app, length_map.
    cbn [List.length]. lia. }
  assert (Hle : (need_input pre_d <= List.length (w_packets (fed_by (trace reader) w2)))%nat)
    by lia.
  destruct (codec_decoder_thread_run fr rest_d pre_d (fed_by (trace reader) w2)
              H2 Hd Hle) as (Do & Df & Ds & Dw).
  fold decoder in Do, Df, Ds, Dw.
  rewrite <- Hlen in Ds, Dw. rewrite firstn_all in Ds. rewrite skipn_all in Dw.
  assert (Hfr : w_frames (fed_frames (trace decoder) w3)
                = map Some (yielded pre_d) ++ None :: []).
  { unfold fed_frames. cbn [w_frames set_frames]. exact Df. }
  destruct (encoder_thread_run x rest_e [] pre_e (yielded pre_d)
              (fed_frames (trace decoder) w3) H3 Hfr He Hne) as (Eo & Ep & Es & El & Ew).
  fold encoder in Eo, Ep, Es, El, Ew.
  split; [auto |]. split; [| auto].
  split; [| exact Dw].
  rewrite Ds. unfold fed_by. cbn [w_packets set_packets]. exact Rout.
Qed.

Lemma pipeline_happy_path_witness :
  let reader := Main.reader_thread video_reader sample_reads quiet_world in
  let decoder := Codec.decoder_thread sample_decoding
                   (fed_by (trace reader) quiet_world) in
  let encoder := Codec.encoder_thread sample_encoding
                   (fed_frames (trace decoder) quiet_world) in
  (outcome reader = Ok 0 /\ outcome decoder = Ok 0 /\ outcome encoder = Ok 0) /\
  map frame_id (submitted (trace encoder)) = [1; 3] /\
  packets_out (trace encoder) = [Some (video_packet 10); Some (video_packet 30); None].
Proof.
  pose proof (pipeline_happy_path video_reader
                [(0, video_packet 1); (0, audio_packet 2); (0, video_packet 3)] []
                blank_packet
                [(AVERROR EAGAIN, picture 0); (AVERROR EAGAIN, picture 0);
                 (0, picture 1); (0, picture 3); (AVERROR EAGAIN, picture 0)] []
                (picture 0)
                [(AVERROR EAGAIN, blank_packet); (0, video_packet 10);
                 (AVERROR EAGAIN, blank_packet); (0, video_packet 30)] []
                blank_packet quiet_world quiet_world quiet_world
                eq_refl eq_refl eq_refl eq_refl eq_refl eq_refl
                eq_refl eq_refl) as (Ho & _ & (Hs & _) & _ & Hp).
  exact (conj Ho (conj Hs Hp)).
Defined.
